(** * Document scanner: edge-support scoring pipeline (scanner.cpp)

    A shallow embedding of [scanner.cpp] (and of the linker stub of
    [omp_stubs.c]), the properties of its natural language specification,
    and further properties of the code.

    - C++ [int] is modelled by [Z] with 32-bit two's complement wrap-around
      written out ([CInt]); [double] and [float] are IEEE-754 binary64 and
      binary32 numbers in the Standard Library's [SpecFloat] model
      ([F64], [F32]), each operation rounded on its own, so that every
      definition evaluates.
    - [std::vector] is [list]; a reference to a vector element is the index
      of its slot.
    - The OpenCV primitives the program calls (image filters, contour
      extraction, polygon approximation, ...) are not part of the program:
      they are the operations of the class [OpenCV], and the theorems that
      quantify over the class hold for all their implementations.
      [std::sort] is a parameter as well.  The runs on concrete quads use
      the reference implementation [Ref].
    - [LOGD] calls only print; they are left out.  The [std::sort] that was
      added for the log output mutates the candidate vector and is kept. *)

From Stdlib Require Import ZArith List Bool Lia Permutation Sorted.
From Stdlib Require Import SpecFloat PrimFloat FloatOps.
Import ListNotations.

#[local] Open Scope Z_scope.
#[local] Set Warnings "-inexact-float".

(* ------------------------------------------------------------------ *)
(** ** Machine numbers *)

(** C++ [int]: 32 bits, two's complement. *)
Module CInt.
Definition wrap (z : Z) : Z := (z + 2147483648) mod 4294967296 - 2147483648.
Definition add (a b : Z) : Z := wrap (a + b).
Definition sub (a b : Z) : Z := wrap (a - b).
Definition mul (a b : Z) : Z := wrap (a * b).
Definition in_range (z : Z) : Prop := -2147483648 <= z < 2147483648.
End CInt.

(** Operations that are the same for every IEEE binary format. *)
Module IEEE.
Definition is_zero (f : spec_float) : bool :=
  match f with S754_zero _ => true | _ => false end.

Definition is_nan (f : spec_float) : bool :=
  match f with S754_nan => true | _ => false end.

(** The integer part of [f], rounded toward zero ([0] for infinities
    and NaN, where the C++ conversion is undefined). *)
Definition trunc (f : spec_float) : Z :=
  match f with
  | S754_finite s m e =>
      cond_Zopp s (if 0 <=? e then Zpos m * 2 ^ e else Zpos m / 2 ^ (- e))
  | _ => 0
  end.

(** [(int)f]: truncation; out of the [int] range the conversion is
    undefined in C++, the model wraps. *)
Definition to_int (f : spec_float) : Z := CInt.wrap (trunc f).

(** The integer nearest to [m * 2^e], halfway cases away from zero. *)
Definition nearest_away (m : positive) (e : Z) : Z :=
  if 0 <=? e then Zpos m * 2 ^ e
  else
    let q := Zpos m / 2 ^ (- e) in
    let r := Zpos m mod 2 ^ (- e) in
    if 2 ^ (- e) <=? 2 * r then q + 1 else q.

Section Format.
Variables prec emax : Z.

(** Conversion of an integer, rounding to nearest even. *)
Definition of_Z (z : Z) : spec_float := binary_normalize prec emax z 0 false.

(** Conversion from another binary format. *)
Definition convert (f : spec_float) : spec_float :=
  match f with
  | S754_finite s m e => binary_round prec emax s m e
  | _ => f
  end.

(** [std::round]: nearest integer, halfway cases away from zero. *)
Definition round (f : spec_float) : spec_float :=
  match f with
  | S754_finite s m e =>
      match nearest_away m e with
      | Z0 => S754_zero s
      | n => binary_normalize prec emax (cond_Zopp s n) 0 s
      end
  | _ => f
  end.
End Format.
End IEEE.

(** C++ [double]. *)
Module F64.
Definition t := spec_float.
Definition prec := 53.
Definition emax := 1024.
Definition add : t -> t -> t := SFadd prec emax.
Definition sub : t -> t -> t := SFsub prec emax.
Definition mul : t -> t -> t := SFmul prec emax.
Definition div : t -> t -> t := SFdiv prec emax.
Definition sqrt : t -> t := SFsqrt prec emax.
Definition fabs : t -> t := SFabs.
Definition ltb : t -> t -> bool := SFltb.
Definition leb : t -> t -> bool := SFleb.
Definition gtb (a b : t) : bool := SFltb b a.
Definition of_int : Z -> t := IEEE.of_Z prec emax.
Definition of_float : spec_float -> t := IEEE.convert prec emax.
Definition to_int : t -> Z := IEEE.to_int.
Definition round : t -> t := IEEE.round prec emax.
Definition zero : t := S754_zero false.
Definition one : t := Eval vm_compute in of_int 1.
(** The literals of the program, as the compiler reads them. *)
Definition c_0_05 : t := Eval vm_compute in Prim2SF 0.05%float.
Definition c_0_85 : t := Eval vm_compute in Prim2SF 0.85%float.
Definition c_0_4 : t := Eval vm_compute in Prim2SF 0.4%float.
Definition c_1em10 : t := Eval vm_compute in Prim2SF 1e-10%float.
Definition c_0_02 : t := Eval vm_compute in Prim2SF 0.02%float.
Definition c_0_04 : t := Eval vm_compute in Prim2SF 0.04%float.
Definition c_0_5 : t := Eval vm_compute in Prim2SF 0.5%float.
Definition c_2_5 : t := Eval vm_compute in Prim2SF 2.5%float.
Definition c_3_0 : t := Eval vm_compute in Prim2SF 3.0%float.
End F64.

(** C++ [float]. *)
Module F32.
Definition t := spec_float.
Definition prec := 24.
Definition emax := 128.
Definition add : t -> t -> t := SFadd prec emax.
Definition mul : t -> t -> t := SFmul prec emax.
Definition div : t -> t -> t := SFdiv prec emax.
Definition of_int : Z -> t := IEEE.of_Z prec emax.
Definition of_double : spec_float -> t := IEEE.convert prec emax.
Definition to_int : t -> Z := IEEE.to_int.
End F32.

Declare Scope f64_scope.
Delimit Scope f64_scope with f64.
Infix "+" := F64.add : f64_scope.
Infix "-" := F64.sub : f64_scope.
Infix "*" := F64.mul : f64_scope.
Infix "/" := F64.div : f64_scope.
Infix "<?" := F64.ltb : f64_scope.
Infix ">?" := F64.gtb : f64_scope.

Declare Scope f32_scope.
Delimit Scope f32_scope with f32.
Infix "+" := F32.add : f32_scope.
Infix "*" := F32.mul : f32_scope.
Infix "/" := F32.div : f32_scope.

(* ------------------------------------------------------------------ *)
(** ** The C++ standard library *)

(** [for (int i = 0; i < n; i++)]: the values of [i]. *)
Definition upto (n : Z) : list Z := map Z.of_nat (seq 0 (Z.to_nat n)).

(** [for (int i = lo; i < hi; i += 2)]: the values of [i]. *)
Definition stride2 (lo hi : Z) : list Z :=
  map (fun k => lo + 2 * Z.of_nat k) (seq 0 (Z.to_nat ((hi - lo + 1) / 2))).

Section Algorithm.
Context {A : Type}.
Variable comp : A -> A -> bool.

(** The loop of [std::max_element]: [largest] is the element at index
    [li], [i] is the index of the head of [l]. *)
Fixpoint max_element_from (l : list A) (i : nat) (largest : A) (li : nat) : nat :=
  match l with
  | [] => li
  | x :: tl =>
      if comp largest x then max_element_from tl (S i) x i
      else max_element_from tl (S i) largest li
  end.

(** [std::max_element(first, last, comp) - first]. *)
Definition max_element (l : list A) : nat :=
  match l with
  | [] => 0%nat
  | x :: tl => max_element_from tl 1 x 0
  end.

(** The loop of [std::min_element]. *)
Fixpoint min_element_from (l : list A) (i : nat) (smallest : A) (si : nat) : nat :=
  match l with
  | [] => si
  | x :: tl =>
      if comp x smallest then min_element_from tl (S i) x i
      else min_element_from tl (S i) smallest si
  end.

(** [std::min_element(first, last, comp) - first]. *)
Definition min_element (l : list A) : nat :=
  match l with
  | [] => 0%nat
  | x :: tl => min_element_from tl 1 x 0
  end.

(** A reference implementation of [std::sort]: insertion sort.  The
    standard leaves the order of equivalent elements open; this one
    keeps it. *)
Fixpoint insert_sorted (x : A) (l : list A) : list A :=
  match l with
  | [] => [x]
  | y :: tl => if comp y x then y :: insert_sorted x tl
               else if comp x y then x :: l
               else y :: insert_sorted x tl
  end.

Definition insertion_sort (l : list A) : list A :=
  fold_left (fun acc x => insert_sorted x acc) l [].
End Algorithm.

(** The type of [std::sort] with a comparator. *)
Definition sort_fn : Type := forall A : Type, (A -> A -> bool) -> list A -> list A.

(** What the standard promises of [std::sort] on [l]: a rearrangement of
    [l] in which no element comes before one that [comp] puts first. *)
Definition sort_contract {A : Type} (comp : A -> A -> bool) (l l' : list A) : Prop :=
  Permutation l l' /\ StronglySorted (fun a b => comp b a = false) l'.

(* ------------------------------------------------------------------ *)
(** ** Data model *)

(** [cv::Point]: integer pixel coordinates. *)
Record Point := mkPoint { px : Z; py : Z }.

(** [a - b] on [cv::Point]. *)
Definition point_sub (a b : Point) : Point :=
  {| px := CInt.sub (px a) (px b); py := CInt.sub (py a) (py b) |}.

Definition origin : Point := {| px := 0; py := 0 |}.

(** [v[i]] on a [std::vector<cv::Point>].  Reading past the end is
    undefined in C++; the model reads the origin there. *)
Definition at_pt (v : list Point) (i : nat) : Point := nth i v origin.

(** [struct Candidate]. *)
Record Candidate := mkCandidate {
  quad : list Point;
  area : F64.t;
  edgeScore : F64.t   (* average gradient magnitude along boundary *)
}.

Definition no_candidate : Candidate :=
  {| quad := []; area := F64.zero; edgeScore := F64.zero |}.

(** Flags and enumerations of OpenCV that the program passes. *)
Variant ColorCode := COLOR_BGR2GRAY | COLOR_BGR2HSV | COLOR_BGR2Lab
                   | COLOR_RGBA2BGR | COLOR_GRAY2BGR.
Variant MorphShape := MORPH_RECT | MORPH_ELLIPSE.
Variant MorphOp := MORPH_CLOSE | MORPH_OPEN.
Variant ThreshType := THRESH_BINARY_OTSU | THRESH_BINARY_INV_OTSU.
Variant Interpolation := INTER_AREA.
Variant RetrievalMode := RETR_EXTERNAL.
Variant ApproxMode := CHAIN_APPROX_SIMPLE.
Variant Depth := CV_8U | CV_32F.
Variant NormType := NORM_MINMAX.

(** The OpenCV operations the program calls, with the arguments it gives
    them.  [Mat] is OpenCV's image type. *)
Class OpenCV := {
  Mat : Type;
  rows : Mat -> Z;
  cols : Mat -> Z;
  channels : Mat -> Z;
  (** [rows] and [cols] are non-negative [int]s *)
  mat_dims : forall m, (0 <= rows m < 2147483648) /\ (0 <= cols m < 2147483648);
  (** [m.at<float>(y, x)] *)
  at_float : Mat -> Z -> Z -> F32.t;
  (** [m.at<cv::Vec3b>(y, x)[c]] *)
  at_vec3b : Mat -> Z -> Z -> Z -> Z;
  (** a [CV_32FC1] matrix filled element by element *)
  mat_of_floats : Z -> Z -> (Z -> Z -> F32.t) -> Mat;
  clone : Mat -> Mat;
  (** [m.rowRange(a, b).setTo(0)] and [m.colRange(a, b).setTo(0)] *)
  rowRange_setTo0 : Mat -> Z -> Z -> Mat;
  colRange_setTo0 : Mat -> Z -> Z -> Mat;
  (** geometry *)
  norm : Point -> F64.t;
  contourArea : list Point -> F64.t;
  isContourConvex : list Point -> bool;
  arcLength : list Point -> bool -> F64.t;
  approxPolyDP : list Point -> F64.t -> bool -> list Point;
  findContours : Mat -> RetrievalMode -> ApproxMode -> list (list Point);
  (** filters *)
  resize : Mat -> F64.t -> F64.t -> Interpolation -> Mat;
  cvtColor : Mat -> ColorCode -> Mat;
  Sobel : Mat -> Depth -> Z -> Z -> Mat;
  magnitude : Mat -> Mat -> Mat;
  pyrDown : Mat -> Z * Z -> Mat;
  pyrUp : Mat -> Z * Z -> Mat;
  (** [mixChannels] with the pair [{c, 0}]: channel [c] alone *)
  mixChannels : Mat -> Z -> Mat;
  split : Mat -> list Mat;
  Canny : Mat -> F64.t -> F64.t -> Z -> Mat;
  getStructuringElement : MorphShape -> Z * Z -> Mat;
  (** [None] is the default 3x3 kernel [cv::Mat()] *)
  dilate : Mat -> option Mat -> Mat;
  erode : Mat -> option Mat -> Mat;
  morphologyEx : Mat -> MorphOp -> Mat -> Z -> Mat;
  subtract : Mat -> Mat -> Mat;
  bitwise_or : Mat -> Mat -> Mat;
  (** [m >= v] *)
  compare_ge : Mat -> Z -> Mat;
  threshold : Mat -> F64.t -> F64.t -> ThreshType -> Mat;
  medianBlur : Mat -> Z -> Mat;
  GaussianBlur : Mat -> Z * Z -> F64.t -> Mat;
  normalize : Mat -> F64.t -> F64.t -> NormType -> Mat;
  convertTo : Mat -> Depth -> Mat;
  (** [cv::createCLAHE(clip, tiles)->apply(m)] *)
  CLAHE_apply : F64.t -> Z * Z -> Mat -> Mat
}.

(* ------------------------------------------------------------------ *)
(** ** Geometry helpers *)

(** The divisor of [angleCos]. *)
Definition angleCos_den (dx1 dy1 dx2 dy2 : F64.t) : F64.t :=
  F64.sqrt ((dx1 * dx1 + dy1 * dy1) * (dx2 * dx2 + dy2 * dy2) + F64.c_1em10)%f64.

Definition angleCos (p1 p2 p0 : Point) : F64.t :=
  let dx1 := F64.of_int (CInt.sub (px p1) (px p0)) in
  let dy1 := F64.of_int (CInt.sub (py p1) (py p0)) in
  let dx2 := F64.of_int (CInt.sub (px p2) (px p0)) in
  let dy2 := F64.of_int (CInt.sub (py p2) (py p0)) in
  ((dx1 * dx2 + dy1 * dy2) / angleCos_den dx1 dy1 dx2 dy2)%f64.

(** The vectors [s] and [d] of [orderPoints]. *)
Definition coord_sums (pts : list Point) : list Z :=
  map (fun i => CInt.add (px (at_pt pts i)) (py (at_pt pts i))) (seq 0 4).

Definition coord_diffs (pts : list Point) : list Z :=
  map (fun i => CInt.sub (py (at_pt pts i)) (px (at_pt pts i))) (seq 0 4).

(** [orderPoints]: the new value of [pts]. *)
Definition orderPoints (pts : list Point) : list Point :=
  let s := coord_sums pts in
  let d := coord_diffs pts in
  let o0 := at_pt pts (min_element Z.ltb s) in
  let o2 := at_pt pts (max_element Z.ltb s) in
  let o1 := at_pt pts (min_element Z.ltb d) in
  let o3 := at_pt pts (max_element Z.ltb d) in
  [o0; o1; o2; o3].

(* ------------------------------------------------------------------ *)
(** ** Quad validation and scoring *)

Section Pipeline.
Context {cv : OpenCV}.
Variable std_sort : sort_fn.

Definition borderMargin : Z := 5.

(** The test of the border loop of [isGoodQuad] on one corner. *)
Definition onBorder (imgW imgH : Z) (p : Point) : bool :=
  (px p <=? borderMargin) || (py p <=? borderMargin)
  || (CInt.sub (CInt.sub imgW borderMargin) 1 <=? px p)
  || (CInt.sub (CInt.sub imgH borderMargin) 1 <=? py p).

Definition borderCount (quad : list Point) (imgW imgH : Z) : Z :=
  fold_left (fun n p => if onBorder imgW imgH p then CInt.add n 1 else n) quad 0.

(** The body of the angle loop of [isGoodQuad] for one [j]. *)
Definition cornerCos (quad : list Point) (j : nat) : F64.t :=
  F64.fabs (angleCos (at_pt quad (j mod 4)) (at_pt quad (j - 2)) (at_pt quad (j - 1))).

Definition maxCos (quad : list Point) : F64.t :=
  fold_left (fun mc j => let cos := cornerCos quad j in
                         if (cos >? mc)%f64 then cos else mc)
            [2%nat; 3%nat; 4%nat] F64.zero.

Definition isGoodQuad (quad : list Point) (imgArea : F64.t) (imgW imgH : Z) : bool :=
  let area := contourArea quad in
  if (area <? imgArea * F64.c_0_05)%f64 || (area >? imgArea * F64.c_0_85)%f64 then false
  else if negb (isContourConvex quad) then false
  else if 3 <=? borderCount quad imgW imgH then false
  else (maxCos quad <? F64.c_0_4)%f64.

(** The pixel that sample [s] of [nSamples] on the edge [p1 p2] falls on. *)
Definition samplePoint (p1 p2 : Point) (nSamples s : Z) : Z * Z :=
  let t := (F32.of_int s / F32.of_int nSamples)%f32 in
  let x := F32.to_int (F32.of_int (px p1)
                       + t * F32.of_int (CInt.sub (px p2) (px p1)))%f32 in
  let y := F32.to_int (F32.of_int (py p1)
                       + t * F32.of_int (CInt.sub (py p2) (py p1)))%f32 in
  (x, y).

(** The number of samples taken on the edge [p1 p2]. *)
Definition edgeSamples (p1 p2 : Point) : Z :=
  let edgeLen := norm (point_sub p2 p1) in
  Z.max 10 (F64.to_int edgeLen).

Definition inBounds (gradMag : Mat) (x y : Z) : bool :=
  (0 <=? x) && (x <? cols gradMag) && (0 <=? y) && (y <? rows gradMag).

(** The body of the inner loop of [computeEdgeScore]: sample [s] of the
    edge [p1 p2]. *)
Definition sampleStep (gradMag : Mat) (p1 p2 : Point) (nSamples : Z)
           (acc : F64.t * Z) (s : Z) : F64.t * Z :=
  let '(totalGrad, numSamples) := acc in
  let '(x, y) := samplePoint p1 p2 nSamples s in
  if inBounds gradMag x y
  then ((totalGrad + F64.of_float (at_float gradMag y x))%f64, CInt.add numSamples 1)
  else (totalGrad, numSamples).

(** The body of the outer loop: edge [i] of the quad. *)
Definition edgeStep (quad : list Point) (gradMag : Mat)
           (acc : F64.t * Z) (i : nat) : F64.t * Z :=
  let p1 := at_pt quad i in
  let p2 := at_pt quad ((i + 1) mod 4) in
  let nSamples := edgeSamples p1 p2 in
  fold_left (sampleStep gradMag p1 p2 nSamples) (upto nSamples) acc.

(** Average gradient magnitude along the 4 edges of a quad. *)
Definition computeEdgeScore (quad : list Point) (gradMag : Mat) : F64.t :=
  let '(totalGrad, numSamples) :=
    fold_left (edgeStep quad gradMag) (seq 0 4) (F64.zero, 0) in
  if 0 <? numSamples then (totalGrad / F64.of_int numSamples)%f64 else F64.zero.

(* ---------------------------------------------------------------- *)
(** ** Candidate collection *)

(** The candidate that [collectQuads] pushes for the polygon [approx]. *)
Definition newCandidate (approx : list Point) (gradMag : Mat) : Candidate :=
  {| quad := approx;
     area := contourArea approx;
     edgeScore := computeEdgeScore approx gradMag |}.

(** The mask of [collectQuads] after its borders are zeroed. *)
Definition cleanBorders (edges : Mat) : Mat :=
  let clean := clone edges in
  let border := 5 in
  let clean := rowRange_setTo0 clean 0 border in
  let clean := rowRange_setTo0 clean (CInt.sub (rows clean) border) (rows clean) in
  let clean := colRange_setTo0 clean 0 border in
  colRange_setTo0 clean (CInt.sub (cols clean) border) (cols clean).

(** The contours of a mask, by area descending. *)
Definition sortedContours (clean : Mat) : list (list Point) :=
  std_sort _ (fun a b => (contourArea a >? contourArea b)%f64)
           (findContours clean RETR_EXTERNAL CHAIN_APPROX_SIMPLE).

(** The body of the inner loop of [collectQuads]. *)
Definition tryContour (clean : Mat) (imgArea : F64.t) (gradMag : Mat)
           (contour : list Point) (eps : F64.t)
           (candidates : list Candidate) : list Candidate :=
  let peri := arcLength contour true in
  let approx := approxPolyDP contour (eps * peri)%f64 true in
  if (length approx =? 4)%nat && isGoodQuad approx imgArea (cols clean) (rows clean)
  then candidates ++ [newCandidate approx gradMag]
  else candidates.

(** Extract quad candidates from a binary/edge image into the list. *)
Definition collectQuads (edges : Mat) (imgArea : F64.t) (gradMag : Mat)
           (candidates : list Candidate) : list Candidate :=
  let clean := cleanBorders edges in
  let contours := sortedContours clean in
  let limit := Nat.min (length contours) 20 in
  fold_left (fun candidates eps =>
    fold_left (fun candidates i =>
      tryContour clean imgArea gradMag (nth i contours []) eps candidates)
      (seq 0 limit) candidates)
    [F64.c_0_02; F64.c_0_04] candidates.

(* ---------------------------------------------------------------- *)
(** ** Detection strategies *)

(** Strategy 1: per-channel Canny + binary thresholds. *)
Definition findSquaresMultiChannel (img : Mat) (imgArea : F64.t) (gradMag : Mat)
           (candidates : list Candidate) : list Candidate :=
  let pyr := pyrDown img (Z.quot (cols img) 2, Z.quot (rows img) 2) in
  let filtered := pyrUp pyr (cols img, rows img) in
  fold_left (fun candidates c =>
    let gray0 := mixChannels filtered c in
    (* Canny pass *)
    let binary := Canny gray0 (F64.of_int 20) (F64.of_int 80) 3 in
    let binary := dilate binary None in
    let candidates := collectQuads binary imgArea gradMag candidates in
    (* Binary threshold passes *)
    fold_left (fun candidates l =>
      let binary := compare_ge gray0 (Z.quot (CInt.mul l 255) 7) in
      collectQuads binary imgArea gradMag candidates)
      [1; 2; 3; 4; 5; 6] candidates)
    (upto (channels filtered)) candidates.

(** Strategy 2: morphological gradient. *)
Definition findByMorphGradient (img : Mat) (imgArea : F64.t) (gradMag : Mat)
           (candidates : list Candidate) : list Candidate :=
  let gray := if 3 <=? channels img then cvtColor img COLOR_BGR2GRAY else img in
  fold_left (fun candidates kSize =>
    let blurred := medianBlur gray 7 in
    let elem := getStructuringElement MORPH_RECT (kSize, kSize) in
    let dilated := dilate blurred (Some elem) in
    let eroded := erode blurred (Some elem) in
    let gradient := subtract dilated eroded in
    let binary := threshold gradient (F64.of_int 0) (F64.of_int 255) THRESH_BINARY_OTSU in
    let closeElem := getStructuringElement MORPH_RECT (3, 3) in
    let binary := morphologyEx binary MORPH_CLOSE closeElem 2 in
    collectQuads binary imgArea gradMag candidates)
    [3; 5] candidates.

(** Strategy 3: HSV saturation (both directions). *)
Definition findBySaturation (bgr : Mat) (imgArea : F64.t) (gradMag : Mat)
           (candidates : list Candidate) : list Candidate :=
  let hsv := cvtColor bgr COLOR_BGR2HSV in
  let ch := split hsv in
  let sat := GaussianBlur (nth 1 ch hsv) (7, 7) (F64.of_int 0) in
  let tInv := threshold sat (F64.of_int 0) (F64.of_int 255) THRESH_BINARY_INV_OTSU in
  let tNorm := threshold sat (F64.of_int 0) (F64.of_int 255) THRESH_BINARY_OTSU in
  let kClose := getStructuringElement MORPH_RECT (9, 9) in
  fold_left (fun candidates t =>
    let cleaned := morphologyEx t MORPH_CLOSE kClose 3 in
    let cleaned := morphologyEx cleaned MORPH_OPEN
                     (getStructuringElement MORPH_RECT (5, 5)) 1 in
    collectQuads cleaned imgArea gradMag candidates)
    [tInv; tNorm] candidates.

(** The sums [bSum], [gSum], [rSum] and the count [n] that
    [findByColorDistance] takes over the border pixels of [bgr]. *)
Definition borderSums (bgr : Mat) : F64.t * F64.t * F64.t * Z :=
  let h := rows bgr in
  let w := cols bgr in
  let step (ya xa yb xb : Z) (acc : F64.t * F64.t * F64.t * Z) :=
    let '(bSum, gSum, rSum, n) := acc in
    let p0 := at_vec3b bgr ya xa in
    let p1 := at_vec3b bgr yb xb in
    ((bSum + F64.of_int (CInt.add (p0 0) (p1 0)))%f64,
     (gSum + F64.of_int (CInt.add (p0 1) (p1 1)))%f64,
     (rSum + F64.of_int (CInt.add (p0 2) (p1 2)))%f64,
     CInt.add n 2) in
  let acc := fold_left (fun acc x => step 0 x (CInt.sub h 1) x acc)
                       (stride2 0 w) (F64.zero, F64.zero, F64.zero, 0) in
  fold_left (fun acc y => step y 0 y (CInt.sub w 1) acc)
            (stride2 1 (CInt.sub h 1)) acc.

(** The matrix [dist] of [findByColorDistance]. *)
Definition colorDistance (bgr : Mat) : Mat :=
  let '(bSum, gSum, rSum, n) := borderSums bgr in
  let bM := (bSum / F64.of_int n)%f64 in
  let gM := (gSum / F64.of_int n)%f64 in
  let rM := (rSum / F64.of_int n)%f64 in
  mat_of_floats (rows bgr) (cols bgr) (fun y x =>
    let db := (F64.of_int (at_vec3b bgr y x 0) - bM)%f64 in
    let dg := (F64.of_int (at_vec3b bgr y x 1) - gM)%f64 in
    let dr := (F64.of_int (at_vec3b bgr y x 2) - rM)%f64 in
    F32.of_double (F64.sqrt (db * db + dg * dg + dr * dr)%f64)).

(** Strategy 4: background colour distance. *)
Definition findByColorDistance (bgr : Mat) (imgArea : F64.t) (gradMag : Mat)
           (candidates : list Candidate) : list Candidate :=
  let dist := colorDistance bgr in
  let distU8 := normalize dist (F64.of_int 0) (F64.of_int 255) NORM_MINMAX in
  let distU8 := convertTo distU8 CV_8U in
  let binary := threshold distU8 (F64.of_int 0) (F64.of_int 255) THRESH_BINARY_OTSU in
  let kClose := getStructuringElement MORPH_RECT (9, 9) in
  let binary := morphologyEx binary MORPH_CLOSE kClose 3 in
  collectQuads binary imgArea gradMag candidates.

(** Strategy 5: Lab L/a*/b* edges. *)
Definition findByLabEdges (bgr : Mat) (imgArea : F64.t) (gradMag : Mat)
           (candidates : list Candidate) : list Candidate :=
  let lab := cvtColor bgr COLOR_BGR2Lab in
  let ch := split lab in
  fold_left (fun candidates lo =>
    let l := GaussianBlur (nth 0 ch lab) (5, 5) (F64.of_int 0) in
    let a := GaussianBlur (nth 1 ch lab) (5, 5) (F64.of_int 0) in
    let b := GaussianBlur (nth 2 ch lab) (5, 5) (F64.of_int 0) in
    let eL := Canny l (F64.of_int lo) (F64.of_int (CInt.mul lo 3)) 3 in
    let eA := Canny a (F64.of_int lo) (F64.of_int (CInt.mul lo 3)) 3 in
    let eB := Canny b (F64.of_int lo) (F64.of_int (CInt.mul lo 3)) 3 in
    let combined := bitwise_or eA eB in
    let combined := bitwise_or combined eL in
    let combined := dilate combined
                      (Some (getStructuringElement MORPH_ELLIPSE (5, 5))) in
    collectQuads combined imgArea gradMag candidates)
    [10; 25; 45] candidates.

(** Strategy 6: CLAHE-enhanced Canny. *)
Definition findByCLAHECanny (bgr : Mat) (imgArea : F64.t) (gradMag : Mat)
           (candidates : list Candidate) : list Candidate :=
  let gray := if 3 <=? channels bgr then cvtColor bgr COLOR_BGR2GRAY else bgr in
  let enhanced := CLAHE_apply F64.c_3_0 (8, 8) gray in
  fold_left (fun candidates lo =>
    let blurred := GaussianBlur enhanced (5, 5) (F64.of_int 0) in
    let edges := Canny blurred (F64.of_int lo) (F64.of_int lo * F64.c_2_5)%f64 3 in
    let edges := dilate edges (Some (getStructuringElement MORPH_ELLIPSE (5, 5))) in
    collectQuads edges imgArea gradMag candidates)
    [20; 40; 70] candidates.

(* ---------------------------------------------------------------- *)
(** ** Main pipeline *)

Definition TARGET : Z := 600.

(** The value of [scale] after the resize step. *)
Definition workingScale (bgr : Mat) : F64.t :=
  if TARGET <? Z.max (rows bgr) (cols bgr)
  then (F64.of_int TARGET / F64.of_int (Z.max (rows bgr) (cols bgr)))%f64
  else F64.one.

(** The image [small]. *)
Definition workingImage (bgr : Mat) : Mat :=
  if TARGET <? Z.max (rows bgr) (cols bgr)
  then resize bgr (workingScale bgr) (workingScale bgr) INTER_AREA
  else clone bgr.

Definition workingArea (small : Mat) : F64.t :=
  F64.of_int (CInt.mul (rows small) (cols small)).

(** The gradient magnitude map (used to score all candidates). *)
Definition gradientMagnitude (small : Mat) : Mat :=
  let gray := cvtColor small COLOR_BGR2GRAY in
  let gradX := Sobel gray CV_32F 1 0 in
  let gradY := Sobel gray CV_32F 0 1 in
  magnitude gradX gradY.

(** The six strategies, one after the other, on the vector [candidates]. *)
Definition runStrategies (small : Mat) (imgArea : F64.t) (gradMag : Mat)
           (candidates : list Candidate) : list Candidate :=
  let candidates := findSquaresMultiChannel small imgArea gradMag candidates in
  let candidates := findByMorphGradient small imgArea gradMag candidates in
  let candidates := findBySaturation small imgArea gradMag candidates in
  let candidates := findByColorDistance small imgArea gradMag candidates in
  let candidates := findByLabEdges small imgArea gradMag candidates in
  findByCLAHECanny small imgArea gradMag candidates.

(** The vector [candidates], empty at first, after the six strategies
    have run. *)
Definition candidatePool (small : Mat) : list Candidate :=
  runStrategies small (workingArea small) (gradientMagnitude small) [].

(** The body of the rescoring loop: combined score = edgeScore * areaRatio. *)
Definition rescore (imgArea : F64.t) (c : Candidate) : Candidate :=
  let areaRatio := (area c / imgArea)%f64 in
  {| quad := quad c; area := area c; edgeScore := (edgeScore c * areaRatio)%f64 |}.

Definition scoreLess (a b : Candidate) : bool := (edgeScore a <? edgeScore b)%f64.
Definition scoreGreater (a b : Candidate) : bool := (edgeScore a >? edgeScore b)%f64.

(** The quad that [auto result = best.quad] copies.  [best] is a
    reference to the slot of the vector that [std::max_element] found;
    when it is read, the vector has been sorted for the log output. *)
Definition selectedQuad (imgArea : F64.t) (candidates : list Candidate) : list Point :=
  let candidates := map (rescore imgArea) candidates in
  let best := max_element scoreLess candidates in
  let candidates := std_sort _ scoreGreater candidates in
  quad (nth best candidates no_candidate).

(** Scale one corner back to original coordinates. *)
Definition scaleBack (scale : F64.t) (pt : Point) : Point :=
  {| px := F64.to_int (F64.round (F64.of_int (px pt) / scale)%f64);
     py := F64.to_int (F64.round (F64.of_int (py pt) / scale)%f64) |}.

(** The vector [result] before [orderPoints], when there are candidates. *)
Definition mappedQuad (bgr : Mat) : list Point :=
  let scale := workingScale bgr in
  let small := workingImage bgr in
  let result := selectedQuad (workingArea small) (candidatePool small) in
  map (scaleBack scale) result.

Definition detectDocument (bgr : Mat) : list Point :=
  let small := workingImage bgr in
  let candidates := candidatePool small in
  match candidates with
  | [] => []
  | _ :: _ => orderPoints (mappedQuad bgr)
  end.

(* ---------------------------------------------------------------- *)
(** ** JNI *)

(** The [jfloatArray] of [quadToJni]; [None] is [nullptr]. *)
Definition quadToJni (quad : list Point) : option (list F32.t) :=
  match quad with
  | [] => None
  | _ :: _ =>
      Some (flat_map (fun i => [F32.of_int (px (at_pt quad i));
                                F32.of_int (py (at_pt quad i))]) (seq 0 4))
  end.

Definition findDocumentCorners (frame : Mat) : option (list F32.t) :=
  let bgr := if channels frame =? 4 then cvtColor frame COLOR_RGBA2BGR
             else if channels frame =? 3 then frame
             else cvtColor frame COLOR_GRAY2BGR in
  quadToJni (detectDocument bgr).

Definition findDocumentCornersColor (frame : Mat) : option (list F32.t) :=
  let bgr := if channels frame =? 4 then cvtColor frame COLOR_RGBA2BGR
             else if channels frame =? 3 then frame
             else cvtColor frame COLOR_GRAY2BGR in
  quadToJni (detectDocument bgr).
End Pipeline.


(* ------------------------------------------------------------------ *)
(** ** omp_stubs.c *)

(** [void __kmpc_dispatch_deinit(void) {}]: a stub that satisfies the
    linker; it leaves the state of the program as it is. *)
Definition __kmpc_dispatch_deinit {State : Type} (s : State) : State := s.

(* ------------------------------------------------------------------ *)
(** ** Scoring and validation with the faults made explicit

    The same code as [angleCos], [maxCos] and [computeEdgeScore], read
    with a division by zero, an index past the end of the quad and a pixel
    read outside the matrix as faults. *)

Variant fault := DivisionByZero | OutOfBounds.

Definition checked (A : Type) : Type := (fault + A)%type.

Definition ret {A : Type} (a : A) : checked A := inr a.

Definition bind {A B : Type} (m : checked A) (k : A -> checked B) : checked B :=
  match m with
  | inl f => inl f
  | inr a => k a
  end.

Notation "x <- m ;; k" := (bind m (fun x => k))
  (at level 61, m at next level, right associativity).

Fixpoint foldM {A B : Type} (f : B -> A -> checked B) (l : list A) (b : B) : checked B :=
  match l with
  | [] => ret b
  | x :: tl => b' <- f b x ;; foldM f tl b'
  end.

Definition div64_checked (a b : F64.t) : checked F64.t :=
  if IEEE.is_zero b then inl DivisionByZero else ret (a / b)%f64.

Definition div32_checked (a b : F32.t) : checked F32.t :=
  if IEEE.is_zero b then inl DivisionByZero else ret (a / b)%f32.

Definition at_pt_checked (v : list Point) (i : nat) : checked Point :=
  match nth_error v i with
  | Some p => ret p
  | None => inl OutOfBounds
  end.

Definition angleCos_checked (p1 p2 p0 : Point) : checked F64.t :=
  let dx1 := F64.of_int (CInt.sub (px p1) (px p0)) in
  let dy1 := F64.of_int (CInt.sub (py p1) (py p0)) in
  let dx2 := F64.of_int (CInt.sub (px p2) (px p0)) in
  let dy2 := F64.of_int (CInt.sub (py p2) (py p0)) in
  div64_checked (dx1 * dx2 + dy1 * dy2)%f64 (angleCos_den dx1 dy1 dx2 dy2).

Definition maxCos_checked (quad : list Point) : checked F64.t :=
  foldM (fun mc j =>
    p1 <- at_pt_checked quad (j mod 4) ;;
    p2 <- at_pt_checked quad (j - 2) ;;
    p0 <- at_pt_checked quad (j - 1) ;;
    c <- angleCos_checked p1 p2 p0 ;;
    let cos := F64.fabs c in
    ret (if (cos >? mc)%f64 then cos else mc))
    [2%nat; 3%nat; 4%nat] F64.zero.

Section Checked.
Context {cv : OpenCV}.

Definition at_float_checked (m : Mat) (y x : Z) : checked F32.t :=
  if (0 <=? y) && (y <? rows m) && (0 <=? x) && (x <? cols m)
  then ret (at_float m y x) else inl OutOfBounds.

Definition samplePoint_checked (p1 p2 : Point) (nSamples s : Z) : checked (Z * Z) :=
  t <- div32_checked (F32.of_int s) (F32.of_int nSamples) ;;
  let x := F32.to_int (F32.of_int (px p1)
                       + t * F32.of_int (CInt.sub (px p2) (px p1)))%f32 in
  let y := F32.to_int (F32.of_int (py p1)
                       + t * F32.of_int (CInt.sub (py p2) (py p1)))%f32 in
  ret (x, y).

Definition sampleStep_checked (gradMag : Mat) (p1 p2 : Point) (nSamples : Z)
           (acc : F64.t * Z) (s : Z) : checked (F64.t * Z) :=
  let '(totalGrad, numSamples) := acc in
  xy <- samplePoint_checked p1 p2 nSamples s ;;
  let '(x, y) := xy in
  if inBounds gradMag x y
  then g <- at_float_checked gradMag y x ;;
       ret ((totalGrad + F64.of_float g)%f64, CInt.add numSamples 1)
  else ret (totalGrad, numSamples).

Definition edgeStep_checked (quad : list Point) (gradMag : Mat)
           (acc : F64.t * Z) (i : nat) : checked (F64.t * Z) :=
  p1 <- at_pt_checked quad i ;;
  p2 <- at_pt_checked quad ((i + 1) mod 4) ;;
  let nSamples := edgeSamples p1 p2 in
  foldM (sampleStep_checked gradMag p1 p2 nSamples) (upto nSamples) acc.

Definition computeEdgeScore_checked (quad : list Point) (gradMag : Mat) : checked F64.t :=
  acc <- foldM (edgeStep_checked quad gradMag) (seq 0 4) (F64.zero, 0) ;;
  let '(totalGrad, numSamples) := acc in
  if 0 <? numSamples then div64_checked totalGrad (F64.of_int numSamples)
  else ret F64.zero.

(** [m.at<cv::Vec3b>(y, x)], a read outside the matrix being a fault. *)
Definition at_vec3b_checked (m : Mat) (y x : Z) : checked (Z -> Z) :=
  if (0 <=? y) && (y <? rows m) && (0 <=? x) && (x <? cols m)
  then ret (at_vec3b m y x) else inl OutOfBounds.

(** The body of the two border loops of [findByColorDistance]: the pixels
    at [(ya, xa)] and [(yb, xb)] are added to the sums. *)
Definition borderStep (bgr : Mat) (ya xa yb xb : Z)
           (acc : F64.t * F64.t * F64.t * Z) : F64.t * F64.t * F64.t * Z :=
  let '(bSum, gSum, rSum, n) := acc in
  let p0 := at_vec3b bgr ya xa in
  let p1 := at_vec3b bgr yb xb in
  ((bSum + F64.of_int (CInt.add (p0 0) (p1 0)))%f64,
   (gSum + F64.of_int (CInt.add (p0 1) (p1 1)))%f64,
   (rSum + F64.of_int (CInt.add (p0 2) (p1 2)))%f64,
   CInt.add n 2).

Definition borderStep_checked (bgr : Mat) (ya xa yb xb : Z)
           (acc : F64.t * F64.t * F64.t * Z) : checked (F64.t * F64.t * F64.t * Z) :=
  let '(bSum, gSum, rSum, n) := acc in
  p0 <- at_vec3b_checked bgr ya xa ;;
  p1 <- at_vec3b_checked bgr yb xb ;;
  ret ((bSum + F64.of_int (CInt.add (p0 0) (p1 0)))%f64,
       (gSum + F64.of_int (CInt.add (p0 1) (p1 1)))%f64,
       (rSum + F64.of_int (CInt.add (p0 2) (p1 2)))%f64,
       CInt.add n 2).

Definition borderSums_checked (bgr : Mat) : checked (F64.t * F64.t * F64.t * Z) :=
  let h := rows bgr in
  let w := cols bgr in
  acc <- foldM (fun acc x => borderStep_checked bgr 0 x (CInt.sub h 1) x acc)
               (stride2 0 w) (F64.zero, F64.zero, F64.zero, 0) ;;
  foldM (fun acc y => borderStep_checked bgr y 0 y (CInt.sub w 1) acc)
        (stride2 1 (CInt.sub h 1)) acc.

(** The means [bM], [gM], [rM] of [findByColorDistance]. *)
Definition borderMeans (bgr : Mat) : F64.t * F64.t * F64.t :=
  let '(bSum, gSum, rSum, n) := borderSums bgr in
  ((bSum / F64.of_int n)%f64, (gSum / F64.of_int n)%f64, (rSum / F64.of_int n)%f64).

Definition borderMeans_checked (bgr : Mat) : checked (F64.t * F64.t * F64.t) :=
  sums <- borderSums_checked bgr ;;
  let '(bSum, gSum, rSum, n) := sums in
  bM <- div64_checked bSum (F64.of_int n) ;;
  gM <- div64_checked gSum (F64.of_int n) ;;
  rM <- div64_checked rSum (F64.of_int n) ;;
  ret (bM, gM, rM).

(** The border pixels that [findByColorDistance] visits, as (row,
    column): every second pixel of the first and the last row, then every
    second pixel of the first and the last column, the corners left out. *)
Definition borderPixels (bgr : Mat) : list (Z * Z) :=
  flat_map (fun x => [(0, x); (rows bgr - 1, x)]) (stride2 0 (cols bgr))
  ++ flat_map (fun y => [(y, 0); (y, cols bgr - 1)]) (stride2 1 (rows bgr - 1)).

(** The sum of channel [c] over the given pixels. *)
Definition channelTotal (bgr : Mat) (c : Z) (pixels : list (Z * Z)) : Z :=
  fold_right (fun yx total => at_vec3b bgr (fst yx) (snd yx) c + total) 0 pixels.

(** The entry [(y, x)] of the matrix [dist] of [findByColorDistance], for
    the means [bM], [gM], [rM]. *)
Definition colorDistanceAt (bgr : Mat) (bM gM rM : F64.t) (y x : Z) : F32.t :=
  let db := (F64.of_int (at_vec3b bgr y x 0) - bM)%f64 in
  let dg := (F64.of_int (at_vec3b bgr y x 1) - gM)%f64 in
  let dr := (F64.of_int (at_vec3b bgr y x 2) - rM)%f64 in
  F32.of_double (F64.sqrt (db * db + dg * dg + dr * dr)%f64).

(* ------------------------------------------------------------------ *)
(** ** The edge score in the words of the specification *)

(** The sample points of edge [i]: [max(10, edge length)] evenly spaced
    points. *)
Definition edgePoints (quad : list Point) (i : nat) : list (Z * Z) :=
  let p1 := at_pt quad i in
  let p2 := at_pt quad ((i + 1) mod 4) in
  map (samplePoint p1 p2 (edgeSamples p1 p2)) (upto (edgeSamples p1 p2)).

(** The sample points of the 4 edges. *)
Definition edgeSamplePoints (quad : list Point) : list (Z * Z) :=
  flat_map (edgePoints quad) (seq 0 4).

Definition sampleValid (gradMag : Mat) (xy : Z * Z) : bool :=
  inBounds gradMag (fst xy) (snd xy).

(** The sample points inside the gradient map. *)
Definition validSamples (quad : list Point) (gradMag : Mat) : list (Z * Z) :=
  filter (sampleValid gradMag) (edgeSamplePoints quad).



End Checked.

(* ------------------------------------------------------------------ *)
(** ** A reference implementation of the OpenCV operations

    Used to run the program on concrete quads.  The geometric functions
    follow OpenCV's own sources for integer points; a contour is taken to be
    its own polygon approximation, and the image filters return their input
    (the contours of a mask are stored with it). *)
Module Ref.

Record RMat := mkRMat {
  r_rows : Z;
  r_cols : Z;
  r_channels : Z;
  r_float : Z -> Z -> F32.t;
  r_vec3b : Z -> Z -> Z -> Z;
  r_contours : list (list Point)
}.

Definition dim (z : Z) : Z := Z.max 0 (Z.min z 2147483647).

Definition dim_range (m : RMat) :
  (0 <= dim (r_rows m) < 2147483648) /\ (0 <= dim (r_cols m) < 2147483648).
Proof. unfold dim; lia. Qed.

(** [cv::norm(pt)]: [std::sqrt((double)pt.x*pt.x + (double)pt.y*pt.y)]. *)
Definition cvNorm (p : Point) : F64.t :=
  F64.sqrt (F64.of_int (px p) * F64.of_int (px p)
            + F64.of_int (py p) * F64.of_int (py p))%f64.

(** The coordinates of an integer point as [float]s, widened to [double]. *)
Definition fx (p : Point) : F64.t := F64.of_float (F32.of_int (px p)).
Definition fy (p : Point) : F64.t := F64.of_float (F32.of_int (py p)).

(** [cv::contourArea(contour, false)]: Green's formula, halved, absolute. *)
Definition cvContourArea (contour : list Point) : F64.t :=
  match contour with
  | [] => F64.zero
  | _ :: _ =>
      let a00 :=
        fst (fold_left (fun '(a00, prev) p =>
               ((a00 + (fx prev * fy p - fy prev * fx p))%f64, p))
             contour (F64.zero, last contour origin)) in
      F64.fabs (a00 * F64.c_0_5)%f64
  end.

(** [cv::isContourConvex] on integer points: every turn goes the same
    way, and none is straight. *)
Definition cvIsContourConvex (contour : list Point) : bool :=
  let n := length contour in
  let prev_pt := nth (n - 2) contour origin in
  let cur_pt := last contour origin in
  let dx0 := CInt.sub (px cur_pt) (px prev_pt) in
  let dy0 := CInt.sub (py cur_pt) (py prev_pt) in
  let '(_, _, _, orientation) :=
    fold_left (fun '(cur_pt, dx0, dy0, orientation) p =>
      let dx := CInt.sub (px p) (px cur_pt) in
      let dy := CInt.sub (py p) (py cur_pt) in
      let dxdy0 := CInt.mul dx dy0 in
      let dydx0 := CInt.mul dy dx0 in
      let o := if dxdy0 <? dydx0 then 1 else if dydx0 <? dxdy0 then 2 else 3 in
      (p, dx, dy, Z.lor orientation o))
      contour (cur_pt, dx0, dy0, 0) in
  (3 <=? Z.of_nat n) && negb (orientation =? 3).

(** [cv::arcLength]: the sum of the edge lengths. *)
Definition cvArcLength (contour : list Point) (closed : bool) : F64.t :=
  match contour with
  | [] => F64.zero
  | first :: _ =>
      let start := if closed then last contour origin else first in
      fst (fold_left (fun '(perimeter, prev) p =>
             ((perimeter + cvNorm (point_sub p prev))%f64, p))
           contour (F64.zero, start))
  end.

Definition cv : OpenCV := {|
  Mat := RMat;
  rows := fun m => dim (r_rows m);
  cols := fun m => dim (r_cols m);
  channels := r_channels;
  mat_dims := dim_range;
  at_float := r_float;
  at_vec3b := r_vec3b;
  mat_of_floats := fun h w f => mkRMat h w 1 f (fun _ _ _ => 0) [];
  clone := fun m => m;
  rowRange_setTo0 := fun m _ _ => m;
  colRange_setTo0 := fun m _ _ => m;
  norm := cvNorm;
  contourArea := cvContourArea;
  isContourConvex := cvIsContourConvex;
  arcLength := cvArcLength;
  approxPolyDP := fun c _ _ => c;
  findContours := fun m _ _ => r_contours m;
  resize := fun m _ _ _ => m;
  cvtColor := fun m _ => m;
  Sobel := fun m _ _ _ => m;
  magnitude := fun m _ => m;
  pyrDown := fun m _ => m;
  pyrUp := fun m _ => m;
  mixChannels := fun m _ => m;
  split := fun m => [m; m; m];
  Canny := fun m _ _ _ => m;
  getStructuringElement := fun _ _ => mkRMat 0 0 1 (fun _ _ => F64.zero) (fun _ _ _ => 0) [];
  dilate := fun m _ => m;
  erode := fun m _ => m;
  morphologyEx := fun m _ _ _ => m;
  subtract := fun m _ => m;
  bitwise_or := fun m _ => m;
  compare_ge := fun m _ => m;
  threshold := fun m _ _ _ => m;
  medianBlur := fun m _ => m;
  GaussianBlur := fun m _ _ => m;
  normalize := fun m _ _ _ => m;
  convertTo := fun m _ => m;
  CLAHE_apply := fun _ _ m => m
|}.

(** [std::sort] for the runs below. *)
Definition sort : sort_fn := fun A comp l => insertion_sort comp l.

(** A gradient map of the given size with the same magnitude everywhere. *)
Definition flatMap (w h : Z) (g : F32.t) : RMat :=
  mkRMat h w 1 (fun _ _ => g) (fun _ _ _ => 0) [].

(** A square standing on a corner, in a 200x200 image. *)
Definition diamond : list Point :=
  [mkPoint 100 50; mkPoint 150 100; mkPoint 100 150; mkPoint 50 100].

(** A kite with a sharp corner at index 0, in a 200x220 image. *)
Definition kite : list Point :=
  [mkPoint 100 20; mkPoint 140 169; mkPoint 100 197; mkPoint 60 169].

(** A mask of 200x220 pixels that shows the contour of [kite]. *)
Definition kiteMask : RMat :=
  mkRMat 220 200 1 (fun _ _ => F32.of_int 7) (fun _ _ _ => 0) [kite].

(** A square standing on a corner, in a 40x40 image. *)
Definition smallDiamond : list Point :=
  [mkPoint 20 10; mkPoint 30 20; mkPoint 20 30; mkPoint 10 20].

(** A grey image of 40x40 pixels whose masks all show the contour of
    [smallDiamond], with gradient magnitude 7 everywhere. *)
Definition scene : RMat :=
  mkRMat 40 40 1 (fun _ _ => F32.of_int 7) (fun _ _ _ => 0) [smallDiamond].

(** Three pooled candidates of a 200x200 image, in the order they were
    pushed: a small quad with strong edges (7% of the area, edge score
    260), the document (40%, 60) and a large quad with weak edges (60%,
    30).  Their combined scores are 18.2, 24 and 18. *)
Definition candA : Candidate :=
  mkCandidate [mkPoint 20 20; mkPoint 90 20; mkPoint 90 60; mkPoint 20 60]
              (F64.of_int 2800) (F64.of_int 260).

Definition candB : Candidate :=
  mkCandidate [mkPoint 30 40; mkPoint 190 40; mkPoint 190 140; mkPoint 30 140]
              (F64.of_int 16000) (F64.of_int 60).

Definition candC : Candidate :=
  mkCandidate [mkPoint 20 20; mkPoint 180 20; mkPoint 180 170; mkPoint 20 170]
              (F64.of_int 24000) (F64.of_int 30).

Definition poolABC : list Candidate := [candA; candB; candC].

(** A mask of 40x40 pixels on which [findContours] finds the contour
    [extra] and then 20 times the contour of [smallDiamond]. *)
Definition crowdedMask (extra : list Point) : RMat :=
  mkRMat 40 40 1 (fun _ _ => F32.of_int 7) (fun _ _ _ => 0)
         (extra :: repeat smallDiamond 20).

(** Two small triangles. *)
Definition speckA : list Point := [mkPoint 1 1; mkPoint 3 1; mkPoint 1 3].
Definition speckB : list Point := [mkPoint 1 1; mkPoint 5 1; mkPoint 1 5].


(** A colour image of 6 rows and 8 columns whose three channels differ
    from pixel to pixel. *)
Definition photo : RMat :=
  mkRMat 6 8 3 (fun _ _ => F32.of_int 7)
         (fun y x c => (37 * y + 11 * x + 70 * c + 5) mod 256) [].

End Ref.

(* ------------------------------------------------------------------ *)
(** ** Vocabulary of the properties *)

(** Coordinates whose sums and differences fit an [int]. *)
Definition small_coord (p : Point) : Prop :=
  (-1073741824 <= px p < 1073741824) /\ (-1073741824 <= py p < 1073741824).

(** The four corners that the program reads from a quad. *)
Definition corners (pts : list Point) : list Point := map (at_pt pts) (seq 0 4).

Definition xPlusY (p : Point) : Z := px p + py p.
Definition yMinusX (p : Point) : Z := py p - px p.

(** [i] is the first index of [l] at which [key] is least (greatest). *)
Definition firstArgMin (key : Point -> Z) (l : list Point) (i : nat) : Prop :=
  (i < length l)%nat
  /\ (forall p, In p l -> key (nth i l origin) <= key p)
  /\ (forall j, (j < i)%nat -> key (nth i l origin) < key (nth j l origin)).

Definition firstArgMax (key : Point -> Z) (l : list Point) (i : nat) : Prop :=
  (i < length l)%nat
  /\ (forall p, In p l -> key p <= key (nth i l origin))
  /\ (forall j, (j < i)%nat -> key (nth j l origin) < key (nth i l origin)).

(** [p] is a corner of [l], and [key] is less (greater) at [p] than at
    every other corner. *)
Definition onlyMin (key : Point -> Z) (l : list Point) (p : Point) : Prop :=
  In p l /\ forall q, In q l -> q <> p -> key p < key q.

Definition onlyMax (key : Point -> Z) (l : list Point) (p : Point) : Prop :=
  In p l /\ forall q, In q l -> q <> p -> key q < key p.

(** The corners of the upright rectangle from [(x0, y0)] to [(x1, y1)]:
    top-left, top-right, bottom-right, bottom-left ([y] grows downwards). *)
Definition rectangle (x0 y0 x1 y1 : Z) : list Point :=
  [mkPoint x0 y0; mkPoint x1 y0; mkPoint x1 y1; mkPoint x0 y1].

(** The quad is a parallelogram: its diagonals have the same midpoint. *)
Definition parallelogram (q : list Point) : Prop :=
  px (at_pt q 0) + px (at_pt q 2) = px (at_pt q 1) + px (at_pt q 3)
  /\ py (at_pt q 0) + py (at_pt q 2) = py (at_pt q 1) + py (at_pt q 3).

(** The absolute cosine at corner 0 of a quad, between the edges to the
    corners 1 and 3. *)
Definition cornerCos0 (q : list Point) : F64.t :=
  F64.fabs (angleCos (at_pt q 1) (at_pt q 3) (at_pt q 0)).

(** The same number, or two zeros of whatever sign. *)
Definition sameOrZeros (a b : spec_float) : Prop :=
  a = b \/ (IEEE.is_zero a = true /\ IEEE.is_zero b = true).

(** [f] holds the integer [z], which is not 0, in a format of [prec]
    bits: the mantissa is [|z|] shifted to [prec] bits. *)
Definition holdsInt (prec z : Z) (f : spec_float) : Prop :=
  match f with
  | S754_finite s m e =>
      s = (z <? 0) /\ e <= 0 /\ Zpos m = Z.abs z * 2 ^ (- e)
      /\ Zpos (digits2_pos m) = prec
  | _ => False
  end.

(** The dot product of the edges from [p0] to [p1] and from [p0] to [p2]. *)
Definition edgeDot (p1 p2 p0 : Point) : Z :=
  (px p1 - px p0) * (px p2 - px p0) + (py p1 - py p0) * (py p2 - py p0).

(** Neither of two candidates has the lesser score. *)
Definition scoreTied (a b : Candidate) : Prop :=
  scoreLess a b = false /\ scoreLess b a = false.

(** Neither a negative number nor minus infinity (a NaN passes). *)
Definition notNegative (f : spec_float) : Prop :=
  match f with
  | S754_finite true _ _ | S754_infinity true => False
  | _ => True
  end.

(** A number that is not negative: a zero, a positive number or plus
    infinity, and not a NaN. *)
Definition nonNegative (f : spec_float) : Prop :=
  IEEE.is_nan f = false /\ notNegative f.

(** A positive number whose leading bit is at [2^(L-1)] or above, plus
    infinity, or a NaN. *)
Definition aboveBit (L : Z) (f : spec_float) : Prop :=
  match f with
  | S754_finite false m e => L <= Zpos (digits2_pos m) + e
  | S754_infinity false | S754_nan => True
  | _ => False
  end.

(** A key that orders the numbers as [SFcompare] does: the class (minus
    infinity, negative, zero, positive, plus infinity), then the exponent,
    then the mantissa. *)
Definition ordKey (f : spec_float) : Z * Z * Z :=
  match f with
  | S754_infinity true => (-2, 0, 0)
  | S754_finite true m e => (-1, - e, - Zpos m)
  | S754_zero _ | S754_nan => (0, 0, 0)
  | S754_finite false m e => (1, e, Zpos m)
  | S754_infinity false => (2, 0, 0)
  end.

Definition keyLt (k1 k2 : Z * Z * Z) : Prop :=
  let '(a1, b1, c1) := k1 in
  let '(a2, b2, c2) := k2 in
  a1 < a2 \/ (a1 = a2 /\ (b1 < b2 \/ (b1 = b2 /\ c1 < c2))).

(** [p] lies within [margin] pixels of a border of a [W] x [H] image. *)
Definition nearBorder (margin W H : Z) (p : Point) : bool :=
  (px p <=? margin) || (py p <=? margin)
  || (W - 1 - margin <=? px p) || (H - 1 - margin <=? py p).

Definition cornersNearBorder (margin W H : Z) (quad : list Point) : nat :=
  length (filter (nearBorder margin W H) quad).

(** The step of the maximum in [maxCos]. *)
Definition maxStep (mc cos : F64.t) : F64.t := if (cos >? mc)%f64 then cos else mc.

Section Validity.
Context {cv : OpenCV}.

(** What validation establishes for a candidate made from a mask of
    [imgW] x [imgH] pixels. *)
Definition validCandidate (imgArea : F64.t) (gradMag : Mat) (imgW imgH : Z)
           (c : Candidate) : Prop :=
  length (quad c) = 4%nat
  /\ area c = contourArea (quad c)
  /\ edgeScore c = computeEdgeScore (quad c) gradMag
  /\ (area c <? imgArea * F64.c_0_05)%f64 = false
  /\ (area c >? imgArea * F64.c_0_85)%f64 = false
  /\ (IEEE.is_nan (area c) = false -> IEEE.is_nan imgArea = false ->
        F64.leb (imgArea * F64.c_0_05)%f64 (area c) = true
        /\ F64.leb (area c) (imgArea * F64.c_0_85)%f64 = true)
  /\ isContourConvex (quad c) = true
  /\ (cornersNearBorder 5 imgW imgH (quad c) < 3)%nat
  /\ (forall j, In j [2; 3; 4]%nat -> (cornerCos (quad c) j <? F64.c_0_4)%f64 = true).

(** A candidate that passed validation against some mask. *)
Definition pooledCandidate (imgArea : F64.t) (gradMag : Mat) (c : Candidate) : Prop :=
  exists clean : Mat, validCandidate imgArea gradMag (cols clean) (rows clean) c.

(** [c] is the candidate that [collectQuads] makes on the mask [edges]:
    the polygon of one of the 20 largest contours of the cleaned mask at
    one of the two tolerances, which has 4 vertices and which [isGoodQuad]
    accepted for the size of that cleaned mask. *)
Definition pushedFrom (std_sort : sort_fn) (edges : Mat) (imgArea : F64.t)
           (gradMag : Mat) (c : Candidate) : Prop :=
  let clean := cleanBorders edges in
  exists (contour : list Point) (eps : F64.t),
    In contour (firstn 20 (sortedContours std_sort clean))
    /\ In eps [F64.c_0_02; F64.c_0_04]
    /\ c = newCandidate (approxPolyDP contour (eps * arcLength contour true)%f64 true) gradMag
    /\ length (quad c) = 4%nat
    /\ isGoodQuad (quad c) imgArea (cols clean) (rows clean) = true.

(** The masks that the six strategies pass to [collectQuads], in the
    order of the calls. *)
Definition masksMultiChannel (img : Mat) : list Mat :=
  let pyr := pyrDown img (Z.quot (cols img) 2, Z.quot (rows img) 2) in
  let filtered := pyrUp pyr (cols img, rows img) in
  flat_map (fun c =>
    let gray0 := mixChannels filtered c in
    dilate (Canny gray0 (F64.of_int 20) (F64.of_int 80) 3) None
    :: map (fun l => compare_ge gray0 (Z.quot (CInt.mul l 255) 7)) [1; 2; 3; 4; 5; 6])
    (upto (channels filtered)).

Definition masksMorphGradient (img : Mat) : list Mat :=
  let gray := if 3 <=? channels img then cvtColor img COLOR_BGR2GRAY else img in
  map (fun kSize =>
    let blurred := medianBlur gray 7 in
    let elem := getStructuringElement MORPH_RECT (kSize, kSize) in
    let gradient := subtract (dilate blurred (Some elem)) (erode blurred (Some elem)) in
    let binary := threshold gradient (F64.of_int 0) (F64.of_int 255) THRESH_BINARY_OTSU in
    morphologyEx binary MORPH_CLOSE (getStructuringElement MORPH_RECT (3, 3)) 2)
    [3; 5].

Definition masksSaturation (bgr : Mat) : list Mat :=
  let hsv := cvtColor bgr COLOR_BGR2HSV in
  let sat := GaussianBlur (nth 1 (split hsv) hsv) (7, 7) (F64.of_int 0) in
  map (fun t =>
    morphologyEx (morphologyEx t MORPH_CLOSE (getStructuringElement MORPH_RECT (9, 9)) 3)
                 MORPH_OPEN (getStructuringElement MORPH_RECT (5, 5)) 1)
    [threshold sat (F64.of_int 0) (F64.of_int 255) THRESH_BINARY_INV_OTSU;
     threshold sat (F64.of_int 0) (F64.of_int 255) THRESH_BINARY_OTSU].

Definition masksColorDistance (bgr : Mat) : list Mat :=
  let distU8 := normalize (colorDistance bgr) (F64.of_int 0) (F64.of_int 255) NORM_MINMAX in
  let binary := threshold (convertTo distU8 CV_8U) (F64.of_int 0) (F64.of_int 255)
                          THRESH_BINARY_OTSU in
  [morphologyEx binary MORPH_CLOSE (getStructuringElement MORPH_RECT (9, 9)) 3].

Definition masksLabEdges (bgr : Mat) : list Mat :=
  let lab := cvtColor bgr COLOR_BGR2Lab in
  let ch := split lab in
  map (fun lo =>
    let edge (i : nat) :=
      Canny (GaussianBlur (nth i ch lab) (5, 5) (F64.of_int 0))
            (F64.of_int lo) (F64.of_int (CInt.mul lo 3)) 3 in
    dilate (bitwise_or (bitwise_or (edge 1%nat) (edge 2%nat)) (edge 0%nat))
           (Some (getStructuringElement MORPH_ELLIPSE (5, 5))))
    [10; 25; 45].

Definition masksCLAHECanny (bgr : Mat) : list Mat :=
  let gray := if 3 <=? channels bgr then cvtColor bgr COLOR_BGR2GRAY else bgr in
  let enhanced := CLAHE_apply F64.c_3_0 (8, 8) gray in
  map (fun lo =>
    dilate (Canny (GaussianBlur enhanced (5, 5) (F64.of_int 0))
                  (F64.of_int lo) (F64.of_int lo * F64.c_2_5)%f64 3)
           (Some (getStructuringElement MORPH_ELLIPSE (5, 5))))
    [20; 40; 70].

Definition strategyMasks (small : Mat) : list Mat :=
  masksMultiChannel small ++ masksMorphGradient small ++ masksSaturation small
  ++ masksColorDistance small ++ masksLabEdges small ++ masksCLAHECanny small.

(** The cleaned mask of [edges] has the size of the working image. *)
Definition sizeOf (small edges : Mat) : Prop :=
  cols (cleanBorders edges) = cols small /\ rows (cleanBorders edges) = rows small.

(** [c] came from one of the [masks], and passed validation against the
    size of that mask. *)
Definition validatedOn (std_sort : sort_fn) (masks : list Mat) (imgArea : F64.t)
           (gradMag : Mat) (c : Candidate) : Prop :=
  exists edges : Mat,
    In edges masks
    /\ pushedFrom std_sort edges imgArea gradMag c
    /\ validCandidate imgArea gradMag (cols (cleanBorders edges)) (rows (cleanBorders edges)) c.
End Validity.

(** [F] only appends to the pool, what it appends does not depend on the
    pool, and all of it satisfies [P]. *)
Definition appendsOnly (P : Candidate -> Prop)
           (F : list Candidate -> list Candidate) : Prop :=
  exists new, Forall P new /\ forall pool, F pool = pool ++ new.

(** [F] appends at most [n] candidates to the pool and leaves the
    candidates that are in it where they are. *)
Definition appendsAtMost (n : nat) (F : list Candidate -> list Candidate) : Prop :=
  forall pool, exists new, F pool = pool ++ new /\ (length new <= n)%nat.

(** A zero, or a finite number with exponent at most [E] and leading bit
    below [2^B]. *)
Definition finBound (E B : Z) (f : spec_float) : Prop :=
  match f with
  | S754_zero _ => True
  | S754_finite _ m e => e <= E /\ Zpos (digits2_pos m) + e <= B
  | _ => False
  end.



(** [n] times the coordinate of the point that lies [s/n] of the way
    from [a] to [b]. *)
Definition interpolated (a b n s : Z) : Z := n * a + s * (b - a).



(* ================================================================== *)
(** * Properties *)

(* ------------------------------------------------------------------ *)
(** ** Integers *)

Lemma wrap_small (z : Z) : CInt.in_range z -> CInt.wrap z = z.
Proof.
  unfold CInt.in_range, CInt.wrap. intros H.
  rewrite Z.mod_small by lia. lia.
Qed.

Lemma wrap_in_range (z : Z) : CInt.in_range (CInt.wrap z).
Proof.
  unfold CInt.in_range, CInt.wrap.
  pose proof (Z.mod_pos_bound (z + 2147483648) 4294967296 eq_refl). lia.
Qed.

Lemma small_coord_sum (p : Point) :
  small_coord p -> CInt.add (px p) (py p) = xPlusY p.
Proof.
  intros [Hx Hy]. unfold CInt.add, xPlusY.
  apply wrap_small. unfold CInt.in_range. lia.
Qed.

Lemma small_coord_diff (p : Point) :
  small_coord p -> CInt.sub (py p) (px p) = yMinusX p.
Proof.
  intros [Hx Hy]. unfold CInt.sub, yMinusX.
  apply wrap_small. unfold CInt.in_range. lia.
Qed.

(* ------------------------------------------------------------------ *)
(** ** [std::min_element] and [std::max_element] on integers *)

Lemma max_element_from_spec (l : list Z) : forall i largest li,
  let r := max_element_from Z.ltb l i largest li in
  (r = li /\ Forall (fun x => x <= largest) l) \/
  (exists k, r = (i + k)%nat /\ (k < length l)%nat /\ largest < nth k l 0
     /\ Forall (fun x => x <= nth k l 0) l
     /\ forall j, (j < k)%nat -> nth j l 0 < nth k l 0).
Proof.
  induction l as [|x tl IH]; intros i largest li; cbn [max_element_from].
  - left. split; [reflexivity | constructor].
  - destruct (Z.ltb_spec largest x) as [Hlt | Hge].
    + right. destruct (IH (S i) x i) as [[Hr Hall] | (k & Hr & Hk & Hgt & Hall & Hfirst)].
      * exists 0%nat. cbn [nth length]. repeat split; try lia.
        constructor; [lia | exact Hall].
      * exists (S k). cbn [nth length]. repeat split; try lia.
        -- constructor; [lia | exact Hall].
        -- intros [|j] Hj; cbn [nth]; [lia | apply Hfirst; lia].
    + destruct (IH (S i) largest li) as [[Hr Hall] | (k & Hr & Hk & Hgt & Hall & Hfirst)].
      * left. split; [exact Hr | constructor; [lia | exact Hall]].
      * right. exists (S k). cbn [nth length]. repeat split; try lia.
        -- constructor; [lia | exact Hall].
        -- intros [|j] Hj; cbn [nth]; [lia | apply Hfirst; lia].
Qed.

Lemma max_element_spec (l : list Z) :
  l <> [] ->
  let r := max_element Z.ltb l in
  (r < length l)%nat
  /\ Forall (fun x => x <= nth r l 0) l
  /\ forall j, (j < r)%nat -> nth j l 0 < nth r l 0.
Proof.
  destruct l as [|x tl]; [congruence | intros _].
  cbn [max_element].
  destruct (max_element_from_spec tl 1 x 0) as [[Hr Hall] | (k & Hr & Hk & Hgt & Hall & Hfirst)];
    rewrite Hr; cbn [nth length Nat.add].
  - repeat split; [lia | constructor; [lia | exact Hall] | lia].
  - repeat split; [lia | constructor; [lia | exact Hall] |].
    intros [|j] Hj; cbn [nth]; [lia | apply Hfirst; lia].
Qed.

Lemma min_element_from_spec (l : list Z) : forall i smallest si,
  let r := min_element_from Z.ltb l i smallest si in
  (r = si /\ Forall (fun x => smallest <= x) l) \/
  (exists k, r = (i + k)%nat /\ (k < length l)%nat /\ nth k l 0 < smallest
     /\ Forall (fun x => nth k l 0 <= x) l
     /\ forall j, (j < k)%nat -> nth k l 0 < nth j l 0).
Proof.
  induction l as [|x tl IH]; intros i smallest si; cbn [min_element_from].
  - left. split; [reflexivity | constructor].
  - destruct (Z.ltb_spec x smallest) as [Hlt | Hge].
    + right. destruct (IH (S i) x i) as [[Hr Hall] | (k & Hr & Hk & Hgt & Hall & Hfirst)].
      * exists 0%nat. cbn [nth length]. repeat split; try lia.
        constructor; [lia | exact Hall].
      * exists (S k). cbn [nth length]. repeat split; try lia.
        -- constructor; [lia | exact Hall].
        -- intros [|j] Hj; cbn [nth]; [lia | apply Hfirst; lia].
    + destruct (IH (S i) smallest si) as [[Hr Hall] | (k & Hr & Hk & Hgt & Hall & Hfirst)].
      * left. split; [exact Hr | constructor; [lia | exact Hall]].
      * right. exists (S k). cbn [nth length]. repeat split; try lia.
        -- constructor; [lia | exact Hall].
        -- intros [|j] Hj; cbn [nth]; [lia | apply Hfirst; lia].
Qed.

Lemma min_element_spec (l : list Z) :
  l <> [] ->
  let r := min_element Z.ltb l in
  (r < length l)%nat
  /\ Forall (fun x => nth r l 0 <= x) l
  /\ forall j, (j < r)%nat -> nth r l 0 < nth j l 0.
Proof.
  destruct l as [|x tl]; [congruence | intros _].
  cbn [min_element].
  destruct (min_element_from_spec tl 1 x 0) as [[Hr Hall] | (k & Hr & Hk & Hgt & Hall & Hfirst)];
    rewrite Hr; cbn [nth length Nat.add].
  - repeat split; [lia | constructor; [lia | exact Hall] | lia].
  - repeat split; [lia | constructor; [lia | exact Hall] |].
    intros [|j] Hj; cbn [nth]; [lia | apply Hfirst; lia].
Qed.

(** The two searches, on the keys of a list of points. *)
Lemma min_element_keys (key : Point -> Z) (l : list Point) :
  l <> [] -> key origin = 0 ->
  firstArgMin key l (min_element Z.ltb (map key l)).
Proof.
  intros Hne Hk.
  destruct (min_element_spec (map key l)) as (Hlen & Hall & Hfirst).
  { destruct l; [congruence | discriminate]. }
  rewrite length_map in Hlen.
  assert (Hnth : forall j, nth j (map key l) 0 = key (nth j l origin)).
  { intros j. rewrite <- Hk. apply map_nth. }
  repeat split.
  - exact Hlen.
  - intros p Hp. rewrite <- Hnth.
    rewrite Forall_forall in Hall. apply Hall. now apply in_map.
  - intros j Hj. rewrite <- !Hnth. now apply Hfirst.
Qed.

Lemma max_element_keys (key : Point -> Z) (l : list Point) :
  l <> [] -> key origin = 0 ->
  firstArgMax key l (max_element Z.ltb (map key l)).
Proof.
  intros Hne Hk.
  destruct (max_element_spec (map key l)) as (Hlen & Hall & Hfirst).
  { destruct l; [congruence | discriminate]. }
  rewrite length_map in Hlen.
  assert (Hnth : forall j, nth j (map key l) 0 = key (nth j l origin)).
  { intros j. rewrite <- Hk. apply map_nth. }
  repeat split.
  - exact Hlen.
  - intros p Hp. rewrite <- Hnth.
    rewrite Forall_forall in Hall. apply Hall. now apply in_map.
  - intros j Hj. rewrite <- !Hnth. now apply Hfirst.
Qed.

(* ------------------------------------------------------------------ *)
(** ** [orderPoints] *)

Lemma corners_length (pts : list Point) : length (corners pts) = 4%nat.
Proof. reflexivity. Qed.

Lemma corners_of_quad (pts : list Point) : length pts = 4%nat -> corners pts = pts.
Proof.
  destruct pts as [|a [|b [|c [|d [|e tl]]]]]; try discriminate. reflexivity.
Qed.

Lemma corners_nth (pts : list Point) (i : nat) :
  (i < 4)%nat -> nth i (corners pts) origin = at_pt pts i.
Proof.
  intros Hi. destruct i as [|[|[|[|i]]]]; try reflexivity; lia.
Qed.

Lemma coord_sums_small (pts : list Point) :
  Forall small_coord (corners pts) -> coord_sums pts = map xPlusY (corners pts).
Proof.
  unfold coord_sums, corners. rewrite map_map. intros H.
  apply map_ext_in. intros i Hi. apply small_coord_sum.
  rewrite Forall_forall in H. apply H. now apply in_map.
Qed.

Lemma coord_diffs_small (pts : list Point) :
  Forall small_coord (corners pts) -> coord_diffs pts = map yMinusX (corners pts).
Proof.
  unfold coord_diffs, corners. rewrite map_map. intros H.
  apply map_ext_in. intros i Hi. apply small_coord_diff.
  rewrite Forall_forall in H. apply H. now apply in_map.
Qed.

(** Each slot of the result is filled on its own, by the first corner
    that is extreme for its key. *)
Lemma orderPoints_slots (pts : list Point) :
  Forall small_coord (corners pts) ->
  exists i0 i1 i2 i3,
    firstArgMin xPlusY (corners pts) i0 /\ firstArgMin yMinusX (corners pts) i1
    /\ firstArgMax xPlusY (corners pts) i2 /\ firstArgMax yMinusX (corners pts) i3
    /\ orderPoints pts = [nth i0 (corners pts) origin; nth i1 (corners pts) origin;
                          nth i2 (corners pts) origin; nth i3 (corners pts) origin].
Proof.
  intros Hsmall.
  assert (Hne : corners pts <> []) by discriminate.
  pose proof (min_element_keys xPlusY _ Hne eq_refl) as H0.
  pose proof (min_element_keys yMinusX _ Hne eq_refl) as H1.
  pose proof (max_element_keys xPlusY _ Hne eq_refl) as H2.
  pose proof (max_element_keys yMinusX _ Hne eq_refl) as H3.
  exists (min_element Z.ltb (map xPlusY (corners pts))),
         (min_element Z.ltb (map yMinusX (corners pts))),
         (max_element Z.ltb (map xPlusY (corners pts))),
         (max_element Z.ltb (map yMinusX (corners pts))).
  split; [exact H0 | split; [exact H1 | split; [exact H2 | split; [exact H3 |]]]].
  unfold orderPoints.
  rewrite (coord_sums_small _ Hsmall), (coord_diffs_small _ Hsmall).
  rewrite !corners_nth; [reflexivity | apply H3 | apply H2 | apply H1 | apply H0].
Qed.

Lemma orderPoints_length (pts : list Point) : length (orderPoints pts) = 4%nat.
Proof. reflexivity. Qed.

Lemma max_element_from_bound {A : Type} (comp : A -> A -> bool) (l : list A) :
  forall i largest li, (li < i)%nat ->
  (max_element_from comp l i largest li < i + length l)%nat.
Proof.
  induction l as [|x tl IH]; intros i largest li Hli; cbn [max_element_from length].
  - lia.
  - destruct (comp largest x).
    + specialize (IH (S i) x i). lia.
    + specialize (IH (S i) largest li). lia.
Qed.

Lemma min_element_from_bound {A : Type} (comp : A -> A -> bool) (l : list A) :
  forall i smallest si, (si < i)%nat ->
  (min_element_from comp l i smallest si < i + length l)%nat.
Proof.
  induction l as [|x tl IH]; intros i smallest si Hsi; cbn [min_element_from length].
  - lia.
  - destruct (comp x smallest).
    + specialize (IH (S i) x i). lia.
    + specialize (IH (S i) smallest si). lia.
Qed.

Lemma max_element_bound {A : Type} (comp : A -> A -> bool) (l : list A) :
  l <> [] -> (max_element comp l < length l)%nat.
Proof.
  destruct l as [|x tl]; [congruence | intros _]. cbn [max_element length].
  pose proof (max_element_from_bound comp tl 1 x 0). lia.
Qed.

Lemma min_element_bound {A : Type} (comp : A -> A -> bool) (l : list A) :
  l <> [] -> (min_element comp l < length l)%nat.
Proof.
  destruct l as [|x tl]; [congruence | intros _]. cbn [min_element length].
  pose proof (min_element_from_bound comp tl 1 x 0). lia.
Qed.

(** Every point of the result is a corner of the argument. *)
Lemma orderPoints_incl (pts : list Point) : incl (orderPoints pts) (corners pts).
Proof.
  assert (Hs : (length (coord_sums pts) = 4)%nat) by reflexivity.
  assert (Hd : (length (coord_diffs pts) = 4)%nat) by reflexivity.
  assert (Hin : forall i, (i < 4)%nat -> In (at_pt pts i) (corners pts)).
  { intros i Hi. rewrite <- corners_nth by exact Hi. apply nth_In. exact Hi. }
  intros p Hp. unfold orderPoints in Hp. cbn [In] in Hp.
  destruct Hp as [<- | [<- | [<- | [<- | []]]]]; apply Hin.
  - rewrite <- Hs. apply min_element_bound. discriminate.
  - rewrite <- Hd. apply min_element_bound. discriminate.
  - rewrite <- Hs. apply max_element_bound. discriminate.
  - rewrite <- Hd. apply max_element_bound. discriminate.
Qed.

(* ------------------------------------------------------------------ *)
(** ** Rounding in a binary format

    [digits m + e] locates the leading bit of [m * 2^e]; rounding a
    positive number whose leading bit lies above [emin] gives a positive
    number, with the leading bit no lower. *)

(** [lia] over powers of two taken as unknowns. *)
Ltac hide_pow :=
  repeat match goal with
  | |- context [2 ^ ?x] => let a := fresh "pw" in set (a := 2 ^ x) in *; clearbody a
  | H : context [2 ^ ?x] |- _ => let a := fresh "pw" in set (a := 2 ^ x) in *; clearbody a
  end.
Ltac pow_lia := hide_pow; lia.
Ltac div_lia := Z.div_mod_to_equations; lia.
Ltac pow_nia := hide_pow; nia.

Lemma digits2_pos_bounds (p : positive) :
  2 ^ (Zpos (digits2_pos p) - 1) <= Zpos p < 2 ^ Zpos (digits2_pos p).
Proof.
  induction p as [p IH | p IH |]; cbn [digits2_pos].
  - rewrite Pos2Z.inj_succ.
    replace (Z.succ (Zpos (digits2_pos p)) - 1) with (Z.succ (Zpos (digits2_pos p) - 1)) by lia.
    rewrite !Z.pow_succ_r by lia. pow_lia.
  - rewrite Pos2Z.inj_succ.
    replace (Z.succ (Zpos (digits2_pos p)) - 1) with (Z.succ (Zpos (digits2_pos p) - 1)) by lia.
    rewrite !Z.pow_succ_r by lia. pow_lia.
  - cbn. lia.
Qed.

Lemma Zdigits2_bounds (m : Z) :
  0 < m -> 0 < Zdigits2 m /\ 2 ^ (Zdigits2 m - 1) <= m < 2 ^ Zdigits2 m.
Proof.
  destruct m as [|p|p]; try lia. intros _. cbn [Zdigits2].
  split; [lia | apply digits2_pos_bounds].
Qed.

Lemma Zdigits2_unique (m d : Z) :
  2 ^ (d - 1) <= m < 2 ^ d -> 0 < d -> Zdigits2 m = d.
Proof.
  intros [Hlo Hhi] Hd.
  assert (Hm : 0 < m) by (pose proof (Z.pow_pos_nonneg 2 (d - 1)); lia).
  destruct (Zdigits2_bounds m Hm) as (Hd' & Hlo' & Hhi').
  destruct (Z.lt_trichotomy (Zdigits2 m) d) as [Hlt | [Heq | Hgt]]; [| exact Heq |].
  - assert (2 ^ Zdigits2 m <= 2 ^ (d - 1)) by (apply Z.pow_le_mono_r; lia). lia.
  - assert (2 ^ d <= 2 ^ (Zdigits2 m - 1)) by (apply Z.pow_le_mono_r; lia). lia.
Qed.

Lemma Zdigits2_mono (a b : Z) : 0 < a -> a <= b -> Zdigits2 a <= Zdigits2 b.
Proof.
  intros Ha Hab.
  destruct (Zdigits2_bounds a Ha) as (Hda & Hloa & Hhia).
  destruct (Zdigits2_bounds b ltac:(lia)) as (Hdb & Hlob & Hhib).
  destruct (Z.le_gt_cases (Zdigits2 a) (Zdigits2 b)) as [Hle | Hgt]; [exact Hle |].
  assert (2 ^ Zdigits2 b <= 2 ^ (Zdigits2 a - 1)) by (apply Z.pow_le_mono_r; lia). lia.
Qed.

Lemma Zdigits2_shiftl (m k : Z) :
  0 < m -> 0 <= k -> Zdigits2 (m * 2 ^ k) = Zdigits2 m + k.
Proof.
  intros Hm Hk.
  destruct (Zdigits2_bounds m Hm) as (Hd & Hlo & Hhi).
  apply Zdigits2_unique; [| lia].
  replace (Zdigits2 m + k - 1) with (Zdigits2 m - 1 + k) by lia.
  rewrite !Z.pow_add_r by lia.
  pose proof (Z.pow_pos_nonneg 2 k). nia.
Qed.

Lemma Zdigits2_shiftr (m k : Z) :
  0 < m -> 0 <= k < Zdigits2 m ->
  0 < m / 2 ^ k /\ Zdigits2 (m / 2 ^ k) = Zdigits2 m - k.
Proof.
  intros Hm Hk.
  destruct (Zdigits2_bounds m Hm) as (Hd & Hlo & Hhi).
  assert (Hp : 0 < 2 ^ k) by (apply Z.pow_pos_nonneg; lia).
  assert (Hlo' : 2 ^ (Zdigits2 m - k - 1) <= m / 2 ^ k).
  { apply Z.div_le_lower_bound; [exact Hp |].
    rewrite <- Z.pow_add_r by lia.
    replace (k + (Zdigits2 m - k - 1)) with (Zdigits2 m - 1) by lia. exact Hlo. }
  assert (Hhi' : m / 2 ^ k < 2 ^ (Zdigits2 m - k)).
  { apply Z.div_lt_upper_bound; [exact Hp |].
    rewrite <- Z.pow_add_r by lia.
    replace (k + (Zdigits2 m - k)) with (Zdigits2 m) by lia. exact Hhi. }
  assert (0 < 2 ^ (Zdigits2 m - k - 1)) by (apply Z.pow_pos_nonneg; lia).
  split; [lia |].
  apply Zdigits2_unique; [split; assumption | lia].
Qed.

Lemma shr_1_m (mrs : shr_record) :
  0 <= shr_m mrs -> shr_m (shr_1 mrs) = shr_m mrs / 2.
Proof.
  destruct mrs as [m r s]. cbn [shr_m]. intros Hm.
  rewrite <- Z.div2_div.
  destruct m as [|[p|p|]|p]; try reflexivity; lia.
Qed.

Lemma iter_shr_1_m (p : positive) : forall mrs,
  0 <= shr_m mrs -> shr_m (iter_pos shr_1 p mrs) = shr_m mrs / 2 ^ Zpos p.
Proof.
  assert (Hnn : forall mrs, 0 <= shr_m mrs -> 0 <= shr_m mrs / 2).
  { intros mrs H. apply Z.div_pos; lia. }
  induction p as [p IH | p IH |]; intros mrs Hm; cbn [iter_pos].
  - assert (H1 : 0 <= shr_m (shr_1 mrs)) by (rewrite shr_1_m by exact Hm; auto).
    assert (H2 : 0 <= shr_m (iter_pos shr_1 p (shr_1 mrs))).
    { rewrite IH by exact H1. apply Z.div_pos; [exact H1 | apply Z.pow_pos_nonneg; lia]. }
    rewrite IH by exact H2. rewrite IH by exact H1. rewrite shr_1_m by exact Hm.
    rewrite !Z.div_div by (try apply Z.pow_pos_nonneg; lia).
    f_equal. replace (Zpos p~1) with (1 + Zpos p + Zpos p) by lia.
    rewrite !Z.pow_add_r by lia. change (2 ^ 1) with 2. ring.
  - assert (H2 : 0 <= shr_m (iter_pos shr_1 p mrs)).
    { rewrite IH by exact Hm. apply Z.div_pos; [exact Hm | apply Z.pow_pos_nonneg; lia]. }
    rewrite IH by exact H2. rewrite IH by exact Hm.
    rewrite !Z.div_div by (try apply Z.pow_pos_nonneg; lia).
    f_equal. replace (Zpos p~0) with (Zpos p + Zpos p) by lia.
    rewrite !Z.pow_add_r by lia. ring.
  - rewrite shr_1_m by exact Hm. reflexivity.
Qed.

Lemma shr_record_of_loc_m (m : Z) (l : location) : shr_m (shr_record_of_loc m l) = m.
Proof. destruct l as [|[]]; reflexivity. Qed.

Lemma round_nearest_even_bounds (m : Z) (l : location) :
  m <= round_nearest_even m l <= m + 1.
Proof.
  unfold round_nearest_even. destruct l as [|[]]; try destruct (Z.even m); lia.
Qed.

Section Rounding.
Variables prec emax : Z.
Hypothesis prec_pos : 0 < prec.

#[local] Abbreviation emin := (SpecFloat.emin prec emax).
#[local] Abbreviation fexp := (SpecFloat.fexp prec emax).

Lemma fexp_lt (x : Z) : emin < x -> fexp x < x.
Proof. unfold SpecFloat.fexp. lia. Qed.

(** One shift to the format's exponent keeps a non-negative mantissa
    non-negative. *)
Lemma shr_fexp_nonneg (m e : Z) (l : location) :
  0 <= m -> 0 <= shr_m (fst (shr_fexp prec emax m e l)).
Proof.
  intros Hm. unfold shr_fexp, shr.
  destruct (fexp (Zdigits2 m + e) - e) as [|p|p]; cbn [fst];
    rewrite ?shr_record_of_loc_m; try exact Hm.
  rewrite iter_shr_1_m by (rewrite shr_record_of_loc_m; exact Hm).
  rewrite shr_record_of_loc_m. apply Z.div_pos; [exact Hm | apply Z.pow_pos_nonneg; lia].
Qed.

(** One shift keeps a mantissa positive and its leading bit in place,
    when that bit lies above [emin]. *)
Lemma shr_fexp_pos (m e : Z) (l : location) :
  0 < m -> emin < Zdigits2 m + e ->
  0 < shr_m (fst (shr_fexp prec emax m e l))
  /\ Zdigits2 (shr_m (fst (shr_fexp prec emax m e l))) + snd (shr_fexp prec emax m e l)
     = Zdigits2 m + e.
Proof.
  intros Hm HD. unfold shr_fexp, shr.
  pose proof (fexp_lt _ HD) as Hf.
  destruct (fexp (Zdigits2 m + e) - e) as [|p|p] eqn:Hn; cbn [fst snd];
    rewrite ?shr_record_of_loc_m; try (split; [exact Hm | reflexivity]).
  rewrite iter_shr_1_m by (rewrite shr_record_of_loc_m; lia).
  rewrite shr_record_of_loc_m.
  destruct (Zdigits2_shiftr m (Zpos p) Hm ltac:(lia)) as [Hpos Hdig].
  split; [exact Hpos | lia].
Qed.

(** Rounding a non-negative mantissa gives a zero, a finite number or an
    infinity of the given sign, never a NaN. *)
Lemma binary_round_aux_cases (sx : bool) (m e : Z) (l : location) :
  0 <= m ->
  binary_round_aux prec emax sx m e l = S754_zero sx
  \/ (exists m' e', binary_round_aux prec emax sx m e l = S754_finite sx m' e')
  \/ binary_round_aux prec emax sx m e l = S754_infinity sx.
Proof.
  intros Hm. unfold binary_round_aux.
  pose proof (shr_fexp_nonneg m e l Hm) as H1.
  destruct (shr_fexp prec emax m e l) as [mrs' e'] eqn:E1. cbn [fst] in H1.
  pose proof (round_nearest_even_bounds (shr_m mrs') (loc_of_shr_record mrs')) as Hr.
  pose proof (shr_fexp_nonneg (round_nearest_even (shr_m mrs') (loc_of_shr_record mrs')) e'
                loc_Exact ltac:(lia)) as H2.
  destruct (shr_fexp prec emax (round_nearest_even _ _) e' loc_Exact) as [mrs'' e''] eqn:E2.
  cbn [fst] in H2.
  destruct (shr_m mrs'') as [|p|p]; [left; reflexivity | | lia].
  right. destruct (e'' <=? emax - prec); [left; eauto | right; reflexivity].
Qed.

(** Rounding a positive mantissa whose leading bit lies above [emin]
    gives a finite number with the leading bit no lower, or an infinity. *)
Lemma binary_round_aux_pos (sx : bool) (m e : Z) (l : location) :
  0 < m -> emin < Zdigits2 m + e ->
  (exists m' e', binary_round_aux prec emax sx m e l = S754_finite sx m' e'
                 /\ Zdigits2 m + e <= Zpos (digits2_pos m') + e')
  \/ binary_round_aux prec emax sx m e l = S754_infinity sx.
Proof.
  intros Hm HD. unfold binary_round_aux.
  destruct (shr_fexp_pos m e l Hm HD) as [H1 D1].
  destruct (shr_fexp prec emax m e l) as [mrs' e'] eqn:E1. cbn [fst snd] in H1, D1.
  pose proof (round_nearest_even_bounds (shr_m mrs') (loc_of_shr_record mrs')) as Hr.
  set (m2 := round_nearest_even (shr_m mrs') (loc_of_shr_record mrs')) in *.
  assert (Hm2 : 0 < m2) by lia.
  pose proof (Zdigits2_mono (shr_m mrs') m2 H1 ltac:(lia)) as Hmono.
  destruct (shr_fexp_pos m2 e' loc_Exact Hm2 ltac:(lia)) as [H2 D2].
  destruct (shr_fexp prec emax m2 e' loc_Exact) as [mrs'' e''] eqn:E2.
  cbn [fst snd] in H2, D2.
  destruct (shr_m mrs'') as [|p|p] eqn:E3; try lia.
  destruct (e'' <=? emax - prec); [left | right; reflexivity].
  exists p, e''. split; [reflexivity |]. cbn [Zdigits2] in D2. lia.
Qed.

Lemma shl_align_digits (mx : positive) (ex ex' : Z) :
  Zpos (digits2_pos (fst (shl_align mx ex ex'))) + snd (shl_align mx ex ex')
  = Zpos (digits2_pos mx) + ex.
Proof.
  unfold shl_align. destruct (ex' - ex) as [|d|d] eqn:Hd; cbn [fst snd]; try reflexivity.
  fold (shift_pos d mx).
  change (Zpos (digits2_pos (shift_pos d mx))) with (Zdigits2 (Zpos (shift_pos d mx))).
  rewrite shift_pos_correct, Z.pow_pos_fold, Z.mul_comm.
  rewrite Zdigits2_shiftl by lia. cbn [Zdigits2]. lia.
Qed.

Lemma binary_round_pos (sx : bool) (mx : positive) (ex : Z) :
  emin < Zpos (digits2_pos mx) + ex ->
  (exists m' e', binary_round prec emax sx mx ex = S754_finite sx m' e'
                 /\ Zpos (digits2_pos mx) + ex <= Zpos (digits2_pos m') + e')
  \/ binary_round prec emax sx mx ex = S754_infinity sx.
Proof.
  intros HD. unfold binary_round.
  pose proof (shl_align_digits mx ex (fexp (Zpos (digits2_pos mx) + ex))) as Hal.
  destruct (shl_align mx ex _) as [mz ez]. cbn [fst snd] in Hal.
  destruct (binary_round_aux_pos sx (Zpos mz) ez loc_Exact ltac:(lia)) as [(m' & e' & E & HD') | E].
  - cbn [Zdigits2]. lia.
  - left. exists m', e'. split; [exact E |]. cbn [Zdigits2] in HD'. lia.
  - right. exact E.
Qed.

Lemma binary_round_cases (sx : bool) (mx : positive) (ex : Z) :
  binary_round prec emax sx mx ex = S754_zero sx
  \/ (exists m' e', binary_round prec emax sx mx ex = S754_finite sx m' e')
  \/ binary_round prec emax sx mx ex = S754_infinity sx.
Proof.
  unfold binary_round. destruct (shl_align mx ex _) as [mz ez].
  apply binary_round_aux_cases. lia.
Qed.
(** *** Signs and magnitudes through the operations *)

Lemma SFmul_self_notNegative (x : spec_float) : notNegative (SFmul prec emax x x).
Proof.
  destruct x as [s | s | | s m e]; cbn [SFmul notNegative];
    try exact I; try (destruct s; exact I).
  replace (xorb s s) with false by (destruct s; reflexivity).
  destruct (binary_round_aux_cases false (Zpos (m * m)) (e + e) loc_Exact ltac:(lia))
    as [-> | [(m' & e' & ->) | ->]]; exact I.
Qed.

Lemma SFmul_notNegative (x y : spec_float) :
  notNegative x -> notNegative y -> notNegative (SFmul prec emax x y).
Proof.
  destruct x as [sx | [] | | [] mx ex]; destruct y as [sy | [] | | [] my ey];
    cbn [SFmul notNegative xorb]; try tauto; intros _ _.
  destruct (binary_round_aux_cases false (Zpos (mx * my)) (ex + ey) loc_Exact ltac:(lia))
    as [-> | [(m' & e' & ->) | ->]]; exact I.
Qed.

Lemma SFadd_notNegative (x y : spec_float) :
  notNegative x -> notNegative y -> notNegative (SFadd prec emax x y).
Proof.
  destruct x as [[] | [] | | [] mx ex]; destruct y as [[] | [] | | [] my ey];
    cbn [SFadd notNegative]; try tauto; intros _ _.
  cbn [cond_Zopp Z.add binary_normalize].
  destruct (binary_round_cases false
              (fst (shl_align mx ex (Z.min ex ey)) + fst (shl_align my ey (Z.min ex ey)))
              (Z.min ex ey))
    as [-> | [(m' & e' & ->) | ->]]; exact I.
Qed.

Lemma shl_align_snd (m : positive) (e ez : Z) : ez <= e -> snd (shl_align m e ez) = ez.
Proof.
  intros H. unfold shl_align. destruct (ez - e) as [|d|d] eqn:Hd; cbn [snd]; lia.
Qed.

(** Adding a positive constant to a number that is not negative gives a
    number at least as large as the constant. *)
Lemma SFadd_aboveBit (x : spec_float) (mc : positive) (ec : Z) :
  emin < Zpos (digits2_pos mc) + ec ->
  notNegative x ->
  aboveBit (Zpos (digits2_pos mc) + ec) (SFadd prec emax x (S754_finite false mc ec)).
Proof.
  intros HD.
  destruct x as [[] | [] | | [] mx ex]; cbn [SFadd notNegative aboveBit]; try tauto;
    try lia; intros _.
  cbn [cond_Zopp]. rewrite <- Pos2Z.inj_add. cbn [binary_normalize].
  set (ez := Z.min ex ec).
  pose proof (shl_align_digits mc ec ez) as Hc.
  rewrite (shl_align_snd mc ec ez) in Hc by (unfold ez; lia).
  set (a := fst (shl_align mx ex ez)) in *.
  set (b := fst (shl_align mc ec ez)) in *.
  pose proof (Zdigits2_mono (Zpos b) (Zpos (a + b)) ltac:(lia) ltac:(lia)) as Hmono.
  cbn [Zdigits2] in Hmono.
  destruct (binary_round_pos false (a + b) ez ltac:(lia)) as [(m' & e' & -> & HD') | ->];
    cbn [aboveBit]; [lia | exact I].
Qed.

Lemma Zdigits2_pow2 (j : Z) : 0 <= j -> Zdigits2 (2 ^ j) = j + 1.
Proof.
  intros Hj. apply Zdigits2_unique; [| lia].
  replace (j + 1 - 1) with j by lia.
  split; [lia | apply Z.pow_lt_mono_r; lia].
Qed.

(** The square root of a positive number whose leading bit is well above
    [emin] is not zero. *)
Lemma SFsqrt_aboveBit_nonzero (L : Z) (x : spec_float) :
  emin < (L + 1) / 2 ->
  aboveBit L x -> IEEE.is_zero (SFsqrt prec emax x) = false.
Proof.
  intros HL.
  destruct x as [s | [] | | [] m e]; cbn [aboveBit SFsqrt IEEE.is_zero]; try tauto.
  intros HD.
  unfold SFsqrt_core_binary. cbn [Zdigits2].
  set (d := Zpos (digits2_pos m)) in *.
  set (e' := Z.min (fexp (Z.div2 (d + e + 1))) (Z.div2 e)).
  assert (He' : 2 * e' <= e).
  { unfold e'. generalize (fexp (Z.div2 (d + e + 1))). intros f.
    rewrite Z.div2_div. div_lia. }
  set (s := e - 2 * e') in *.
  assert (Hm' : match s with
                | Zpos _ => Z.shiftl (Zpos m) s
                | Z0 => Zpos m
                | Zneg _ => 0
                end = Zpos m * 2 ^ s).
  { destruct s as [|p|p] eqn:Hs; [cbn; lia | | lia].
    apply Z.shiftl_mul_pow2. lia. }
  rewrite Hm'. clear Hm'.
  set (m' := Zpos m * 2 ^ s).
  pose proof (Z.sqrtrem_sqrt m') as Hq.
  destruct (Z.sqrtrem m') as [q r]. cbn [fst] in Hq. subst q.
  pose proof (digits2_pos_bounds m) as [Hlo _]. fold d in Hlo.
  set (j := (d - 1 + s) / 2).
  assert (Hj : 0 <= j) by (unfold j; apply Z.div_pos; lia).
  assert (Hsq : 2 ^ j * 2 ^ j <= m').
  { unfold m'. rewrite <- Z.pow_add_r by lia.
    apply Z.le_trans with (2 ^ (d - 1 + s)).
    - apply Z.pow_le_mono_r; [lia |]. unfold j. div_lia.
    - rewrite Z.pow_add_r by lia. apply Z.mul_le_mono_nonneg_r; [| exact Hlo].
      apply Z.pow_nonneg. lia. }
  assert (Hpj : 0 < 2 ^ j) by (apply Z.pow_pos_nonneg; lia).
  assert (Hq : 2 ^ j <= Z.sqrt m').
  { apply Z.sqrt_le_square; lia. }
  pose proof (Zdigits2_mono (2 ^ j) (Z.sqrt m') Hpj Hq) as Hmono.
  rewrite Zdigits2_pow2 in Hmono by exact Hj.
  assert (HDq : emin < Zdigits2 (Z.sqrt m') + e').
  { unfold j, s in Hmono. clear Hsq Hq Hpj. div_lia. }
  destruct (binary_round_aux_pos false (Z.sqrt m') e'
              (if r =? 0 then loc_Exact else loc_Inexact (if r <=? Z.sqrt m' then Lt else Gt))
              ltac:(lia) HDq) as [(m2 & e2 & -> & _) | ->]; reflexivity.
Qed.

(** A non-zero integer converts to a non-zero number. *)
Lemma of_Z_nonzero (z : Z) :
  emin <= 0 -> z <> 0 -> IEEE.is_zero (IEEE.of_Z prec emax z) = false.
Proof.
  intros Hemin Hz. unfold IEEE.of_Z, binary_normalize.
  destruct z as [|p|p]; [congruence | |].
  - destruct (binary_round_pos false p 0 ltac:(lia)) as [(m' & e' & -> & _) | ->]; reflexivity.
  - destruct (binary_round_pos true p 0 ltac:(lia)) as [(m' & e' & -> & _) | ->]; reflexivity.
Qed.
End Rounding.

(** The divisor of [angleCos] is never zero, whatever the four
    differences are. *)
Lemma angleCos_den_nonzero (dx1 dy1 dx2 dy2 : F64.t) :
  IEEE.is_zero (angleCos_den dx1 dy1 dx2 dy2) = false.
Proof.
  unfold angleCos_den, F64.sqrt.
  apply (SFsqrt_aboveBit_nonzero F64.prec F64.emax eq_refl (-33)); [reflexivity |].
  apply (SFadd_aboveBit F64.prec F64.emax eq_refl _ 7737125245533627 (-86)); [reflexivity |].
  apply (SFmul_notNegative F64.prec F64.emax);
    (apply (SFadd_notNegative F64.prec F64.emax);
     apply (SFmul_self_notNegative F64.prec F64.emax)).
Qed.

(* ------------------------------------------------------------------ *)
(** ** No overflow, no NaN: bounds on exponents and magnitudes *)

Lemma Zdigits2_nonneg (m : Z) : 0 <= Zdigits2 m.
Proof. destruct m; cbn; lia. Qed.

Lemma Zdigits2_le_of_lt (m k : Z) : 0 <= m -> 0 <= k -> m < 2 ^ k -> Zdigits2 m <= k.
Proof.
  intros Hm Hk Hlt. destruct (Z.eq_dec m 0) as [-> | Hne]; [cbn; lia |].
  destruct (Zdigits2_bounds m ltac:(lia)) as (Hd & Hlo & _).
  destruct (Z.le_gt_cases (Zdigits2 m) k) as [| Hgt]; [assumption |].
  assert (2 ^ k <= 2 ^ (Zdigits2 m - 1)) by (apply Z.pow_le_mono_r; lia). lia.
Qed.

Lemma Zdigits2_succ_le (m : Z) : 0 <= m -> Zdigits2 (m + 1) <= Zdigits2 m + 1.
Proof.
  intros Hm. destruct (Z.eq_dec m 0) as [-> | Hne]; [cbn; lia |].
  destruct (Zdigits2_bounds m ltac:(lia)) as (Hd & _ & Hhi).
  apply Zdigits2_le_of_lt; [lia | lia |].
  rewrite Z.pow_add_r by lia. change (2 ^ 1) with 2. lia.
Qed.

Lemma Zdigits2_mul_le (a b : positive) :
  Zdigits2 (Zpos (a * b)) <= Zpos (digits2_pos a) + Zpos (digits2_pos b).
Proof.
  pose proof (digits2_pos_bounds a) as [_ Ha]. pose proof (digits2_pos_bounds b) as [_ Hb].
  apply Zdigits2_le_of_lt; [lia | lia |].
  rewrite Z.pow_add_r by lia. rewrite Pos2Z.inj_mul.
  apply Z.mul_lt_mono_nonneg; lia.
Qed.

Lemma Zdigits2_add_le (a b : Z) (k : Z) :
  0 <= a -> 0 <= b -> Zdigits2 a <= k -> Zdigits2 b <= k -> Zdigits2 (a + b) <= k + 1.
Proof.
  intros Ha Hb Hka Hkb.
  assert (Hk : 0 <= k) by (pose proof (Zdigits2_nonneg a); lia).
  assert (Hlt : forall x, 0 <= x -> Zdigits2 x <= k -> x < 2 ^ k).
  { intros x Hx Hd. destruct (Z.eq_dec x 0) as [-> | Hne]; [apply Z.pow_pos_nonneg; lia |].
    destruct (Zdigits2_bounds x ltac:(lia)) as (_ & _ & Hhi).
    apply Z.lt_le_trans with (2 ^ Zdigits2 x); [exact Hhi | apply Z.pow_le_mono_r; lia]. }
  apply Zdigits2_le_of_lt; [lia | lia |].
  rewrite Z.pow_add_r by lia. change (2 ^ 1) with 2.
  pose proof (Hlt a Ha Hka). pose proof (Hlt b Hb Hkb). lia.
Qed.

Section Bounds.
Variables prec emax : Z.
Hypothesis prec_pos : 0 < prec.

#[local] Abbreviation emin := (SpecFloat.emin prec emax).
#[local] Abbreviation fexp := (SpecFloat.fexp prec emax).

Lemma fexp_mono (a b : Z) : a <= b -> fexp a <= fexp b.
Proof. unfold SpecFloat.fexp. lia. Qed.

Lemma fexp_ge_emin (a : Z) : emin <= fexp a.
Proof. unfold SpecFloat.fexp. lia. Qed.

Lemma fexp_succ_le (a : Z) : emin <= a -> fexp (a + 1) <= a.
Proof. unfold SpecFloat.fexp. lia. Qed.

(** One shift: the exponent that comes out, and where the leading bit
    is. *)
Lemma shr_fexp_bounds (m e : Z) (l : location) :
  0 <= m ->
  0 <= shr_m (fst (shr_fexp prec emax m e l))
  /\ snd (shr_fexp prec emax m e l) = Z.max e (fexp (Zdigits2 m + e))
  /\ Zdigits2 (shr_m (fst (shr_fexp prec emax m e l))) + snd (shr_fexp prec emax m e l)
     <= Z.max (Zdigits2 m + e) (snd (shr_fexp prec emax m e l)).
Proof.
  intros Hm. unfold shr_fexp, shr.
  destruct (fexp (Zdigits2 m + e) - e) as [|p|p] eqn:Hn; cbn [fst snd];
    rewrite ?shr_record_of_loc_m; try (repeat split; lia).
  rewrite iter_shr_1_m by (rewrite shr_record_of_loc_m; exact Hm).
  rewrite shr_record_of_loc_m.
  assert (Hp : 0 < 2 ^ Zpos p) by (apply Z.pow_pos_nonneg; lia).
  split; [apply Z.div_pos; lia | split; [lia |]].
  destruct (Z.eq_dec m 0) as [-> | Hne]; [rewrite Z.div_0_l by lia; cbn [Zdigits2]; lia |].
  destruct (Z.lt_ge_cases (Zpos p) (Zdigits2 m)) as [Hlt | Hge].
  - destruct (Zdigits2_shiftr m (Zpos p) ltac:(lia) ltac:(lia)) as [_ Hdig]. lia.
  - destruct (Zdigits2_bounds m ltac:(lia)) as (_ & _ & Hhi).
    assert (2 ^ Zdigits2 m <= 2 ^ Zpos p) by (apply Z.pow_le_mono_r; lia).
    rewrite Z.div_small by lia. cbn [Zdigits2]. lia.
Qed.

(** Rounding a non-negative mantissa does not overflow when the exponent
    that comes out fits the format. *)
Lemma binary_round_aux_fin (sx : bool) (m e : Z) (l : location) (E B : Z) :
  0 <= m ->
  Z.max e (fexp (Zdigits2 m + e + 1)) <= E -> E <= emax - prec ->
  Z.max (Zdigits2 m + e + 1) (E + 1) <= B ->
  finBound E B (binary_round_aux prec emax sx m e l).
Proof.
  intros Hm HE Hfit HB. unfold binary_round_aux.
  destruct (shr_fexp_bounds m e l Hm) as (H1 & E1 & D1).
  destruct (shr_fexp prec emax m e l) as [mrs' e'] eqn:Eq1. cbn [fst snd] in H1, E1, D1.
  pose proof (round_nearest_even_bounds (shr_m mrs') (loc_of_shr_record mrs')) as Hr.
  set (m2 := round_nearest_even (shr_m mrs') (loc_of_shr_record mrs')) in *.
  assert (Hm2 : 0 <= m2) by lia.
  assert (Hd2 : Zdigits2 m2 <= Zdigits2 (shr_m mrs') + 1).
  { destruct (Z.eq_dec m2 (shr_m mrs')) as [-> | Hne]; [lia |].
    replace m2 with (shr_m mrs' + 1) by lia. apply Zdigits2_succ_le. exact H1. }
  destruct (shr_fexp_bounds m2 e' loc_Exact Hm2) as (H2 & E2 & D2).
  destruct (shr_fexp prec emax m2 e' loc_Exact) as [mrs'' e''] eqn:Eq2.
  cbn [fst snd] in H2, E2, D2.
  pose proof (fexp_mono (Zdigits2 m + e) (Zdigits2 m + e + 1) ltac:(lia)) as Hf1.
  pose proof (fexp_ge_emin (Zdigits2 m + e)) as Hf0.
  assert (He' : e' <= E) by lia.
  assert (Hf2 : fexp (Zdigits2 m2 + e') <= Z.max e (fexp (Zdigits2 m + e + 1))).
  { destruct (Z.le_gt_cases (Zdigits2 m2 + e') (Zdigits2 m + e + 1)) as [Hle | Hgt].
    - pose proof (fexp_mono _ _ Hle). lia.
    - assert (Zdigits2 m2 + e' <= e' + 1) by lia.
      pose proof (fexp_mono _ _ H). pose proof (fexp_succ_le e' ltac:(lia)). lia. }
  assert (He'' : e'' <= E) by lia.
  destruct (shr_m mrs'') as [|p|p] eqn:E3; [exact I | | lia].
  replace (e'' <=? emax - prec) with true by (symmetry; apply Z.leb_le; lia).
  cbn [finBound]. cbn [Zdigits2] in D2. split; [exact He'' | lia].
Qed.

Lemma binary_round_fin (sx : bool) (mx : positive) (ex : Z) (E B : Z) :
  Z.max ex (fexp (Zpos (digits2_pos mx) + ex + 1)) <= E -> E <= emax - prec ->
  Z.max (Zpos (digits2_pos mx) + ex + 1) (E + 1) <= B ->
  finBound E B (binary_round prec emax sx mx ex).
Proof.
  intros HE Hfit HB. unfold binary_round.
  pose proof (shl_align_digits mx ex (fexp (Zpos (digits2_pos mx) + ex))) as Hal.
  assert (Hez : snd (shl_align mx ex (fexp (Zpos (digits2_pos mx) + ex))) <= ex).
  { unfold shl_align. destruct (_ - ex) as [|k|k] eqn:Hk; cbn [snd]; lia. }
  destruct (shl_align mx ex _) as [mz ez]. cbn [fst snd] in Hal, Hez.
  rewrite <- Hal in HE, HB.
  apply binary_round_aux_fin; cbn [Zdigits2]; lia.
Qed.

Lemma SFmul_fin (E1 B1 E2 B2 E B : Z) (x y : spec_float) :
  finBound E1 B1 x -> finBound E2 B2 y ->
  Z.max (E1 + E2) (fexp (B1 + B2 + 1)) <= E -> E <= emax - prec ->
  Z.max (B1 + B2 + 1) (E + 1) <= B ->
  finBound E B (SFmul prec emax x y).
Proof.
  destruct x as [sx | sx | | sx mx ex]; destruct y as [sy | sy | | sy my ey];
    cbn [finBound SFmul]; try tauto.
  intros [He1 Hd1] [He2 Hd2] HE Hfit HB.
  pose proof (Zdigits2_mul_le mx my) as Hmul.
  pose proof (fexp_mono (Zdigits2 (Zpos (mx * my)) + (ex + ey) + 1) (B1 + B2 + 1) ltac:(lia)).
  apply binary_round_aux_fin; try lia.
Qed.

Lemma shl_align_fst_digits (m : positive) (e ez : Z) :
  ez <= e -> Zpos (digits2_pos (fst (shl_align m e ez))) + ez = Zpos (digits2_pos m) + e.
Proof.
  intros H. pose proof (shl_align_digits m e ez) as Hd.
  rewrite (shl_align_snd m e ez H) in Hd. exact Hd.
Qed.

Lemma SFadd_fin (E1 B1 E2 B2 E B : Z) (x y : spec_float) :
  finBound E1 B1 x -> finBound E2 B2 y ->
  Z.max (Z.max E1 E2) (fexp (Z.max B1 B2 + 2)) <= E -> E <= emax - prec ->
  Z.max (Z.max B1 B2 + 2) (E + 1) <= B ->
  finBound E B (SFadd prec emax x y).
Proof.
  destruct x as [sx | sx | | sx mx ex]; destruct y as [sy | sy | | sy my ey];
    cbn [finBound SFadd]; try tauto.
  - intros _ _ _ _ _. destruct sx, sy; exact I.
  - intros _ [He Hd] HE Hfit HB. lia.
  - intros [He Hd] _ HE Hfit HB. lia.
  - intros [He1 Hd1] [He2 Hd2] HE Hfit HB.
    set (ez := Z.min ex ey).
    pose proof (shl_align_fst_digits mx ex ez ltac:(unfold ez; lia)) as Ha.
    pose proof (shl_align_fst_digits my ey ez ltac:(unfold ez; lia)) as Hb.
    set (a := fst (shl_align mx ex ez)) in *. set (b := fst (shl_align my ey ez)) in *.
    set (k := Z.max B1 B2 - ez).
    assert (Hka : Zdigits2 (Zpos a) <= k) by (cbn [Zdigits2]; unfold k; lia).
    assert (Hkb : Zdigits2 (Zpos b) <= k) by (cbn [Zdigits2]; unfold k; lia).
    assert (Hsum : forall z, Z.abs z <= Zpos a + Zpos b -> Zdigits2 (Z.abs z) <= k + 1).
    { intros z Hz. destruct (Z.eq_dec (Z.abs z) 0) as [-> | Hne];
        [cbn [Zdigits2]; pose proof (Zdigits2_nonneg (Zpos a)); lia |].
      apply Z.le_trans with (Zdigits2 (Zpos a + Zpos b)).
      - apply Zdigits2_mono; lia.
      - apply Zdigits2_add_le; lia. }
    assert (Hfe : forall d, d <= k + 1 -> fexp (d + ez + 1) <= fexp (Z.max B1 B2 + 2)).
    { intros d Hd. apply fexp_mono. unfold k in Hd. lia. }
    destruct (cond_Zopp sx (Zpos a) + cond_Zopp sy (Zpos b)) as [|p|p] eqn:Ez;
      cbn [binary_normalize finBound]; [exact I | |].
    + specialize (Hsum (Zpos p) ltac:(destruct sx, sy; cbn [cond_Zopp] in Ez; lia)).
      cbn [Z.abs Zdigits2] in Hsum. specialize (Hfe _ Hsum).
      apply binary_round_fin; unfold ez, k in *; lia.
    + specialize (Hsum (Zneg p) ltac:(destruct sx, sy; cbn [cond_Zopp] in Ez; lia)).
      cbn [Z.abs Zdigits2] in Hsum. specialize (Hfe _ Hsum).
      apply binary_round_fin; unfold ez, k in *; lia.
Qed.

(** A quotient of a bounded number by a finite or infinite one is not a
    NaN, unless both are zero. *)
Lemma SFdiv_not_nan (E B : Z) (x y : spec_float) :
  finBound E B x -> IEEE.is_nan y = false -> IEEE.is_zero y = false ->
  IEEE.is_nan (SFdiv prec emax x y) = false.
Proof.
  destruct x as [sx | sx | | sx mx ex]; destruct y as [sy | sy | | sy my ey];
    cbn [finBound SFdiv IEEE.is_nan IEEE.is_zero]; try tauto; try discriminate;
    try reflexivity.
  intros _ _ _. unfold SFdiv_core_binary.
  set (e' := Z.min _ _). set (m' := match _ with 0 => _ | _ => _ end).
  assert (Hm' : 0 <= m').
  { unfold m'. destruct (ex - ey - e') as [|p|p]; try lia. apply Z.shiftl_nonneg. lia. }
  pose proof (Z.div_pos m' (Zpos my) Hm' ltac:(lia)) as Hq. unfold Z.div in Hq.
  destruct (Z.div_eucl m' (Zpos my)) as [q r].
  destruct (binary_round_aux_cases prec emax (xorb sx sy) q e' (new_location (Zpos my) r) Hq)
    as [-> | [(m2 & e2 & ->) | ->]]; reflexivity.
Qed.

Lemma SFsqrt_not_nan (x : spec_float) :
  IEEE.is_nan x = false -> notNegative x -> IEEE.is_nan (SFsqrt prec emax x) = false.
Proof.
  destruct x as [sx | [] | | [] mx ex]; cbn [IEEE.is_nan notNegative SFsqrt];
    try tauto; try discriminate; try reflexivity.
  intros _ _. unfold SFsqrt_core_binary.
  set (e' := Z.min _ _). set (m' := match _ with 0 => _ | _ => _ end).
  pose proof (Z.sqrtrem_sqrt m') as Hq. pose proof (Z.sqrt_nonneg m') as Hnn.
  destruct (Z.sqrtrem m') as [q r]. cbn [fst] in Hq. subst q.
  destruct (binary_round_aux_cases prec emax false (Z.sqrt m') e'
              (if r =? 0 then loc_Exact else loc_Inexact (if r <=? Z.sqrt m' then Lt else Gt))
              Hnn) as [-> | [(m2 & e2 & ->) | ->]]; reflexivity.
Qed.

Lemma finBound_not_nan (E B : Z) (x : spec_float) : finBound E B x -> IEEE.is_nan x = false.
Proof. destruct x; cbn; tauto. Qed.

End Bounds.

(* ------------------------------------------------------------------ *)
(** ** Integers that a format holds exactly, and [std::round] *)

Section Exact.
Variables prec emax : Z.
Hypothesis prec_pos : 0 < prec.
Hypothesis prec_le_emax : prec <= emax.
Hypothesis emax_ge_2 : 2 <= emax.

(** An integer of at most [prec] bits converts without rounding. *)
Lemma binary_round_exact (s : bool) (p : positive) :
  Zpos (digits2_pos p) <= prec ->
  exists mz ez, binary_round prec emax s p 0 = S754_finite s mz ez
                /\ ez <= 0 /\ Zpos mz = Zpos p * 2 ^ (- ez).
Proof.
  intros Hd. unfold binary_round.
  set (d := Zpos (digits2_pos p)) in *.
  assert (Hf : SpecFloat.fexp prec emax (d + 0) = d - prec).
  { unfold SpecFloat.fexp, SpecFloat.emin. lia. }
  rewrite Hf.
  pose proof (shl_align_digits p 0 (d - prec)) as Hal. fold d in Hal.
  assert (Hsh : snd (shl_align p 0 (d - prec)) = d - prec
                /\ Zpos (fst (shl_align p 0 (d - prec))) = Zpos p * 2 ^ (prec - d)).
  { unfold shl_align. destruct (d - prec - 0) as [|k|k] eqn:Hk; cbn [fst snd]; try lia.
    - split; [lia |]. replace (prec - d) with 0 by lia. lia.
    - split; [reflexivity |]. fold (shift_pos k p).
      rewrite shift_pos_correct, Z.pow_pos_fold. replace (prec - d) with (Zpos k) by lia. lia. }
  destruct Hsh as [Hez Hmz].
  destruct (shl_align p 0 (d - prec)) as [mz ez]. cbn [fst snd] in Hal, Hez, Hmz. subst ez.
  exists mz, (d - prec).
  split; [| split; [lia | replace (- (d - prec)) with (prec - d) by lia; exact Hmz]].
  assert (Hdz : Zpos (digits2_pos mz) = prec) by lia.
  unfold binary_round_aux, shr_fexp. cbn [Zdigits2]. rewrite Hdz.
  replace (SpecFloat.fexp prec emax (prec + (d - prec)) - (d - prec)) with 0
    by (unfold SpecFloat.fexp, SpecFloat.emin; lia).
  cbn [shr shr_record_of_loc shr_m loc_of_shr_record round_nearest_even Zdigits2].
  rewrite Hdz.
  replace (SpecFloat.fexp prec emax (prec + (d - prec)) - (d - prec)) with 0
    by (unfold SpecFloat.fexp, SpecFloat.emin; lia).
  cbn [shr shr_record_of_loc shr_m].
  replace (d - prec <=? emax - prec) with true by (symmetry; apply Z.leb_le; lia).
  reflexivity.
Qed.

Lemma trunc_exact (s : bool) (mz : positive) (ez : Z) (n : Z) :
  ez <= 0 -> Zpos mz = n * 2 ^ (- ez) ->
  IEEE.trunc (S754_finite s mz ez) = cond_Zopp s n.
Proof.
  intros Hez Hmz. unfold IEEE.trunc. f_equal.
  assert (Hp : 0 < 2 ^ (- ez)) by (apply Z.pow_pos_nonneg; lia).
  destruct (Z.leb_spec 0 ez).
  - replace ez with 0 in * by lia. cbn in Hmz |- *. lia.
  - rewrite Hmz. apply Z.div_mul. lia.
Qed.

(** Converting an integer of at most [prec] bits and back is the
    identity. *)
Lemma trunc_of_Z (z : Z) :
  Z.abs z < 2 ^ prec -> IEEE.trunc (IEEE.of_Z prec emax z) = z.
Proof.
  intros Hz. unfold IEEE.of_Z, binary_normalize.
  assert (Hdig : forall p, Zpos p < 2 ^ prec -> Zpos (digits2_pos p) <= prec).
  { intros p Hp. pose proof (digits2_pos_bounds p) as [Hlo _].
    destruct (Z.le_gt_cases (Zpos (digits2_pos p)) prec) as [|Hgt]; [assumption |].
    assert (2 ^ prec <= 2 ^ (Zpos (digits2_pos p) - 1)) by (apply Z.pow_le_mono_r; lia).
    lia. }
  destruct z as [|p|p]; [reflexivity | |].
  - destruct (binary_round_exact false p (Hdig p ltac:(lia))) as (mz & ez & -> & Hez & Hmz).
    now rewrite (trunc_exact false mz ez (Zpos p)).
  - destruct (binary_round_exact true p (Hdig p ltac:(lia))) as (mz & ez & -> & Hez & Hmz).
    now rewrite (trunc_exact true mz ez (Zpos p)).
Qed.

(** [std::round] followed by the conversion to an integer. *)
Lemma trunc_round (s : bool) (m : positive) (e : Z) :
  IEEE.nearest_away m e < 2 ^ prec ->
  IEEE.trunc (IEEE.round prec emax (S754_finite s m e)) = cond_Zopp s (IEEE.nearest_away m e).
Proof.
  intros Hn. unfold IEEE.round.
  assert (H0 : 0 <= IEEE.nearest_away m e).
  { unfold IEEE.nearest_away.
    assert (0 < 2 ^ (- e) \/ e >= 0) as [Hp | He].
    { destruct (Z.le_gt_cases 0 e); [right; lia | left; apply Z.pow_pos_nonneg; lia]. }
    - destruct (0 <=? e); [apply Z.mul_nonneg_nonneg; [lia | apply Z.pow_nonneg; lia] |].
      pose proof (Z.div_pos (Zpos m) (2 ^ (- e)) ltac:(lia) Hp).
      destruct (_ <=? _); lia.
    - replace (0 <=? e) with true by (symmetry; apply Z.leb_le; lia).
      apply Z.mul_nonneg_nonneg; [lia | apply Z.pow_nonneg; lia]. }
  destruct (IEEE.nearest_away m e) as [|n|n] eqn:En; [destruct s; reflexivity | | lia].
  change (binary_normalize prec emax (cond_Zopp s (Zpos n)) 0 s)
    with (match cond_Zopp s (Zpos n) with
          | 0 => S754_zero s
          | Zpos q => binary_round prec emax false q 0
          | Zneg q => binary_round prec emax true q 0
          end).
  pose proof (trunc_of_Z (cond_Zopp s (Zpos n))) as Ht.
  unfold IEEE.of_Z, binary_normalize in Ht.
  destruct s; cbn [cond_Zopp Z.opp] in *; apply Ht; lia.
Qed.
End Exact.

Lemma nearest_away_spec (m : positive) (e : Z) :
  (0 <= e -> IEEE.nearest_away m e = Zpos m * 2 ^ e)
  /\ (e < 0 -> 2 * Z.abs (IEEE.nearest_away m e * 2 ^ (- e) - Zpos m) <= 2 ^ (- e)).
Proof.
  unfold IEEE.nearest_away. split; intros He.
  - replace (0 <=? e) with true by (symmetry; apply Z.leb_le; lia). reflexivity.
  - replace (0 <=? e) with false by (symmetry; apply Z.leb_gt; lia).
    assert (Hp : 0 < 2 ^ (- e)) by (apply Z.pow_pos_nonneg; lia).
    pose proof (Z.div_mod (Zpos m) (2 ^ (- e)) ltac:(lia)) as Hdm.
    pose proof (Z.mod_pos_bound (Zpos m) (2 ^ (- e)) Hp) as Hr.
    set (q := Zpos m / 2 ^ (- e)) in *. set (r := Zpos m mod 2 ^ (- e)) in *.
    set (k := 2 ^ (- e)) in *.
    destruct (Z.leb_spec k (2 * r)); nia.
Qed.

(** [(int)std::round(q)] is the integer nearest to [q], halfway cases
    away from zero, as long as that integer fits an [int]. *)
Lemma to_int_round (s : bool) (m : positive) (e : Z) :
  IEEE.nearest_away m e < 2147483648 ->
  F64.to_int (F64.round (S754_finite s m e)) = cond_Zopp s (IEEE.nearest_away m e).
Proof.
  intros Hn. unfold F64.to_int, IEEE.to_int, F64.round.
  rewrite (trunc_round F64.prec F64.emax eq_refl) by (try discriminate; cbn; lia).
  apply wrap_small. unfold CInt.in_range.
  destruct (nearest_away_spec m e) as [H1 H2].
  assert (0 <= IEEE.nearest_away m e).
  { destruct (Z.le_gt_cases 0 e) as [He | He].
    - rewrite (H1 He). apply Z.mul_nonneg_nonneg; [lia | apply Z.pow_nonneg; lia].
    - specialize (H2 He). assert (0 < 2 ^ (- e)) by (apply Z.pow_pos_nonneg; lia). nia. }
  destruct s; cbn [cond_Zopp]; lia.
Qed.

(* ------------------------------------------------------------------ *)
(** ** The angle cosine of integer points is a number *)

Ltac f64_bound :=
  unfold SpecFloat.fexp, SpecFloat.emin, F64.prec, F64.emax; lia.

(** An [int] converts to a double exactly: exponent at most 0, below
    [2^32] in absolute value. *)
Lemma of_int_fin (z : Z) :
  -2147483648 <= z < 2147483648 -> finBound 0 32 (F64.of_int z).
Proof.
  intros Hz. unfold F64.of_int, IEEE.of_Z, binary_normalize.
  assert (Hdig : forall p, Zpos p <= 2147483648 -> Zpos (digits2_pos p) <= 32).
  { intros p Hp. change (Zpos (digits2_pos p)) with (Zdigits2 (Zpos p)).
    apply Zdigits2_le_of_lt; lia. }
  assert (Hfin : forall s p, Zpos p <= 2147483648 ->
                             finBound 0 32 (binary_round F64.prec F64.emax s p 0)).
  { intros s p Hp. pose proof (Hdig p Hp) as Hd.
    destruct (binary_round_exact F64.prec F64.emax ltac:(unfold F64.prec, F64.emax; lia)
                ltac:(unfold F64.emax; lia) s p ltac:(unfold F64.prec; lia))
      as (mz & ez & -> & Hez & Hmz).
    cbn [finBound]. split; [exact Hez |].
    change (Zpos (digits2_pos mz)) with (Zdigits2 (Zpos mz)).
    rewrite Hmz, Zdigits2_shiftl by lia. cbn [Zdigits2]. lia. }
  destruct z as [|p|p]; [exact I | apply Hfin; lia | apply Hfin; lia].
Qed.

Lemma wrapped_fin (z : Z) : finBound 0 32 (F64.of_int (CInt.wrap z)).
Proof. apply of_int_fin. apply wrap_in_range. Qed.

Lemma aboveBit_notNegative (L : Z) (x : spec_float) : aboveBit L x -> notNegative x.
Proof. destruct x as [s | [] | | [] m e]; cbn; tauto. Qed.

(** The angle cosine of three integer points is never a NaN. *)
Lemma angleCos_not_nan (p1 p2 p0 : Point) : IEEE.is_nan (angleCos p1 p2 p0) = false.
Proof.
  unfold angleCos, CInt.sub.
  pose proof (wrapped_fin (px p1 - px p0)) as Hx1. pose proof (wrapped_fin (py p1 - py p0)) as Hy1.
  pose proof (wrapped_fin (px p2 - px p0)) as Hx2. pose proof (wrapped_fin (py p2 - py p0)) as Hy2.
  set (dx1 := F64.of_int (CInt.wrap (px p1 - px p0))) in *.
  set (dy1 := F64.of_int (CInt.wrap (py p1 - py p0))) in *.
  set (dx2 := F64.of_int (CInt.wrap (px p2 - px p0))) in *.
  set (dy2 := F64.of_int (CInt.wrap (py p2 - py p0))) in *.
  assert (Hmul : forall a b, finBound 0 32 a -> finBound 0 32 b -> finBound 12 65 (a * b)%f64).
  { intros a b Ha Hb.
    apply (SFmul_fin F64.prec F64.emax eq_refl 0 32 0 32); try assumption; f64_bound. }
  assert (Hadd : forall a b, finBound 12 65 a -> finBound 12 65 b -> finBound 14 67 (a + b)%f64).
  { intros a b Ha Hb.
    apply (SFadd_fin F64.prec F64.emax eq_refl 12 65 12 65); try assumption; f64_bound. }
  assert (Hnum : finBound 14 67 (dx1 * dx2 + dy1 * dy2)%f64) by auto.
  apply (SFdiv_not_nan F64.prec F64.emax 14 67); [exact Hnum | | apply angleCos_den_nonzero].
  unfold angleCos_den, F64.sqrt.
  assert (HX : finBound 82 135 ((dx1 * dx1 + dy1 * dy1) * (dx2 * dx2 + dy2 * dy2))%f64).
  { apply (SFmul_fin F64.prec F64.emax eq_refl 14 67 14 67); auto; f64_bound. }
  assert (HY : finBound 84 137
                 ((dx1 * dx1 + dy1 * dy1) * (dx2 * dx2 + dy2 * dy2) + F64.c_1em10)%f64).
  { apply (SFadd_fin F64.prec F64.emax eq_refl 82 135 (-86) (-33)); try exact HX;
      try f64_bound. cbn. lia. }
  apply SFsqrt_not_nan; [exact (finBound_not_nan _ _ _ HY) |].
  apply (aboveBit_notNegative (-33)).
  apply (SFadd_aboveBit F64.prec F64.emax eq_refl _ 7737125245533627 (-86)); [reflexivity |].
  apply (SFmul_notNegative F64.prec F64.emax);
    (apply (SFadd_notNegative F64.prec F64.emax);
     apply (SFmul_self_notNegative F64.prec F64.emax)).
Qed.

Lemma fabs_not_nan (x : F64.t) : IEEE.is_nan (F64.fabs x) = IEEE.is_nan x.
Proof. destruct x; reflexivity. Qed.

(* ------------------------------------------------------------------ *)
(** ** The order of the floating-point numbers *)

Lemma SFcompare_key (x y : spec_float) :
  IEEE.is_nan x = false -> IEEE.is_nan y = false ->
  exists c, SFcompare x y = Some c
    /\ (c = Lt <-> keyLt (ordKey x) (ordKey y))
    /\ (c = Gt <-> keyLt (ordKey y) (ordKey x)).
Proof.
  destruct x as [sx | [] | | [] mx ex]; destruct y as [sy | [] | | [] my ey];
    cbn [IEEE.is_nan SFcompare ordKey]; try discriminate; intros _ _;
    try (eexists; split; [reflexivity |]; unfold keyLt; split; split;
         first [discriminate | lia | intros; exfalso; lia | reflexivity]).
  - eexists; split; [reflexivity |]. unfold keyLt.
    destruct (Z.compare_spec ex ey) as [He | He | He];
      [rewrite Pos.compare_cont_spec; cbn [Pos.switch_Eq];
       destruct (Pos.compare_spec mx my) as [Hm | Hm | Hm]; cbn [CompOpp] | |];
      split; split; first [discriminate | lia | reflexivity].
  - eexists; split; [reflexivity |]. unfold keyLt.
    destruct (Z.compare_spec ex ey) as [He | He | He];
      [rewrite Pos.compare_cont_spec; cbn [Pos.switch_Eq];
       destruct (Pos.compare_spec mx my) as [Hm | Hm | Hm] | |];
      split; split; first [discriminate | lia | reflexivity].
Qed.

Lemma ltb_key (x y : spec_float) :
  IEEE.is_nan x = false -> IEEE.is_nan y = false ->
  (F64.ltb x y = true <-> keyLt (ordKey x) (ordKey y)).
Proof.
  intros Hx Hy. destruct (SFcompare_key x y Hx Hy) as (c & E & HLt & HGt).
  unfold F64.ltb, SFltb. rewrite E. rewrite <- HLt.
  destruct c; split; congruence.
Qed.

Lemma leb_key (x y : spec_float) :
  IEEE.is_nan x = false -> IEEE.is_nan y = false ->
  (F64.leb x y = true <-> ~ keyLt (ordKey y) (ordKey x)).
Proof.
  intros Hx Hy. destruct (SFcompare_key x y Hx Hy) as (c & E & HLt & HGt).
  unfold F64.leb, SFleb. rewrite E. rewrite <- HGt.
  destruct c; split; congruence.
Qed.

Lemma keyLt_trans (a b c : Z * Z * Z) : keyLt a b -> keyLt b c -> keyLt a c.
Proof.
  destruct a as [[a1 a2] a3], b as [[b1 b2] b3], c as [[c1 c2] c3]. unfold keyLt. lia.
Qed.

Lemma keyLe_lt_trans (a b c : Z * Z * Z) : ~ keyLt b a -> keyLt b c -> keyLt a c.
Proof.
  destruct a as [[a1 a2] a3], b as [[b1 b2] b3], c as [[c1 c2] c3]. unfold keyLt. lia.
Qed.

Lemma keyLt_irrefl (a : Z * Z * Z) : ~ keyLt a a.
Proof. destruct a as [[a1 a2] a3]. unfold keyLt. lia. Qed.

(** Without NaNs, "not less" is "greater or equal". *)
Lemma ltb_false_leb (x y : F64.t) :
  IEEE.is_nan x = false -> IEEE.is_nan y = false ->
  F64.ltb x y = false -> F64.leb y x = true.
Proof.
  intros Hx Hy H. apply leb_key; [exact Hy | exact Hx |].
  intros Hk. apply (ltb_key x y Hx Hy) in Hk. congruence.
Qed.

(* ------------------------------------------------------------------ *)
(** ** [std::max_element] on combined scores *)

Section MaxElementKeys.
Context {A : Type}.
Variables (comp : A -> A -> bool) (ok : A -> Prop) (key : A -> Z * Z * Z) (d : A).
Hypothesis comp_key :
  forall a b, ok a -> ok b -> (comp a b = true <-> keyLt (key a) (key b)).

Lemma max_element_from_keys (l : list A) : forall i largest li,
  ok largest -> Forall ok l ->
  let r := max_element_from comp l i largest li in
  (r = li /\ Forall (fun x => ~ keyLt (key largest) (key x)) l) \/
  (exists k, r = (i + k)%nat /\ (k < length l)%nat
     /\ keyLt (key largest) (key (nth k l d))
     /\ Forall (fun x => ~ keyLt (key (nth k l d)) (key x)) l
     /\ forall j, (j < k)%nat -> keyLt (key (nth j l d)) (key (nth k l d))).
Proof.
  induction l as [|x tl IH]; intros i largest li Hok Hall; cbn [max_element_from].
  - left. split; [reflexivity | constructor].
  - inversion Hall as [|? ? Hx Htl]; subst.
    destruct (comp largest x) eqn:Hcmp.
    + apply (comp_key largest x Hok Hx) in Hcmp. right.
      destruct (IH (S i) x i Hx Htl) as [[Hr Hmax] | (k & Hr & Hk & Hgt & Hmax & Hfirst)].
      * exists 0%nat. cbn [nth length]. repeat split; try lia; try assumption.
        constructor; [apply keyLt_irrefl | exact Hmax].
      * exists (S k). cbn [nth length]. repeat split; try lia.
        -- now apply keyLt_trans with (key x).
        -- constructor; [| exact Hmax].
           intros Hback. apply (keyLt_irrefl (key x)). now apply keyLt_trans with (key (nth k tl d)).
        -- intros [|j] Hj; cbn [nth]; [assumption | apply Hfirst; lia].
    + assert (Hge : ~ keyLt (key largest) (key x)).
      { intros Hlt. apply (comp_key largest x Hok Hx) in Hlt. congruence. }
      destruct (IH (S i) largest li Hok Htl) as [[Hr Hmax] | (k & Hr & Hk & Hgt & Hmax & Hfirst)].
      * left. split; [exact Hr | constructor; assumption].
      * right. exists (S k). cbn [nth length]. repeat split; try lia; try assumption.
        -- constructor; [| exact Hmax].
           intros Hback. apply Hge. now apply keyLt_trans with (key (nth k tl d)).
        -- intros [|j] Hj; cbn [nth]; [| apply Hfirst; lia].
           now apply keyLe_lt_trans with (key largest).
Qed.

(** Without NaNs, [std::max_element] returns the first element that no
    other element exceeds. *)
Lemma max_element_keys_first (l : list A) :
  l <> [] -> Forall ok l ->
  let r := max_element comp l in
  (r < length l)%nat
  /\ Forall (fun x => ~ keyLt (key (nth r l d)) (key x)) l
  /\ forall j, (j < r)%nat -> keyLt (key (nth j l d)) (key (nth r l d)).
Proof.
  destruct l as [|x tl]; [congruence | intros _ Hall].
  inversion Hall as [|? ? Hx Htl]; subst. cbn [max_element].
  destruct (max_element_from_keys tl 1 x 0 Hx Htl)
    as [[Hr Hmax] | (k & Hr & Hk & Hgt & Hmax & Hfirst)]; rewrite Hr; cbn [nth length Nat.add].
  - repeat split; [lia | constructor; [apply keyLt_irrefl | exact Hmax] | lia].
  - repeat split; [lia | constructor; [| exact Hmax] |].
    + intros Hback. apply (keyLt_irrefl (key x)). now apply keyLt_trans with (key (nth k tl d)).
    + intros [|j] Hj; cbn [nth]; [assumption | apply Hfirst; lia].
Qed.
End MaxElementKeys.

(** The slot that [best] refers to holds, before the vector is sorted, the
    first candidate with the greatest combined score (when no score is a
    NaN). *)
Lemma max_element_scoreLess (pool : list Candidate) :
  pool <> [] ->
  Forall (fun c => IEEE.is_nan (edgeScore c) = false) pool ->
  let best := max_element scoreLess pool in
  (best < length pool)%nat
  /\ (forall c, In c pool -> F64.leb (edgeScore c) (edgeScore (nth best pool no_candidate)) = true)
  /\ (forall j, (j < best)%nat ->
        scoreLess (nth j pool no_candidate) (nth best pool no_candidate) = true).
Proof.
  intros Hne Hok.
  destruct (max_element_keys_first scoreLess (fun c => IEEE.is_nan (edgeScore c) = false)
              (fun c => ordKey (edgeScore c)) no_candidate
              (fun a b Ha Hb => ltb_key (edgeScore a) (edgeScore b) Ha Hb) pool Hne Hok)
    as (Hlen & Hmax & Hfirst).
  assert (Hbest : IEEE.is_nan (edgeScore (nth (max_element scoreLess pool) pool no_candidate))
                  = false).
  { rewrite Forall_forall in Hok. apply Hok. now apply nth_In. }
  split; [exact Hlen | split].
  - intros c Hc. rewrite Forall_forall in Hmax, Hok.
    apply leb_key; [now apply Hok | exact Hbest | now apply Hmax].
  - intros j Hj. unfold scoreLess. apply ltb_key; [| exact Hbest | now apply Hfirst].
    rewrite Forall_forall in Hok. apply Hok. apply nth_In. lia.
Qed.

(* ------------------------------------------------------------------ *)
(** ** Scoring and validation raise no fault *)

Lemma foldM_ret {A B : Type} (f : B -> A -> checked B) (g : B -> A -> B) (l : list A) :
  forall b, (forall b' x, In x l -> f b' x = ret (g b' x)) ->
  foldM f l b = ret (fold_left g l b).
Proof.
  induction l as [|x tl IH]; intros b H; cbn [foldM fold_left].
  - reflexivity.
  - rewrite H by (left; reflexivity). cbn [bind ret].
    apply IH. intros b' y Hy. apply H. right. exact Hy.
Qed.

Lemma angleCos_checked_ok (p1 p2 p0 : Point) :
  angleCos_checked p1 p2 p0 = ret (angleCos p1 p2 p0).
Proof.
  unfold angleCos_checked, angleCos, div64_checked.
  rewrite angleCos_den_nonzero. reflexivity.
Qed.

Lemma at_pt_checked_ok (quad : list Point) (i : nat) :
  (i < length quad)%nat -> at_pt_checked quad i = ret (at_pt quad i).
Proof.
  intros Hi. unfold at_pt_checked, at_pt.
  destruct (nth_error quad i) as [p|] eqn:E.
  - rewrite (nth_error_nth _ _ _ E). reflexivity.
  - apply nth_error_None in E. lia.
Qed.

Lemma maxCos_checked_ok (quad : list Point) :
  length quad = 4%nat -> maxCos_checked quad = ret (maxCos quad).
Proof.
  intros Hlen. unfold maxCos_checked, maxCos.
  apply foldM_ret. intros mc j Hj.
  assert (Hj' : (2 <= j <= 4)%nat) by (cbn in Hj; lia).
  rewrite !at_pt_checked_ok; cbn [bind ret].
  - rewrite angleCos_checked_ok. reflexivity.
  - lia.
  - lia.
  - rewrite Hlen. apply Nat.mod_upper_bound. lia.
Qed.

Section ScoringSafe.
Context {cv : OpenCV}.

Lemma edgeSamples_ge_10 (p1 p2 : Point) : 10 <= edgeSamples p1 p2.
Proof. unfold edgeSamples. lia. Qed.

Lemma samplePoint_checked_ok (p1 p2 : Point) (nSamples s : Z) :
  nSamples <> 0 ->
  samplePoint_checked p1 p2 nSamples s = ret (samplePoint p1 p2 nSamples s).
Proof.
  intros Hn. unfold samplePoint_checked, samplePoint, div32_checked, F32.of_int.
  rewrite (of_Z_nonzero F32.prec F32.emax eq_refl nSamples) by (try exact Hn; discriminate).
  reflexivity.
Qed.

Lemma at_float_checked_ok (gradMag : Mat) (x y : Z) :
  inBounds gradMag x y = true ->
  at_float_checked gradMag y x = ret (at_float gradMag y x).
Proof.
  unfold inBounds, at_float_checked. intros H.
  apply andb_prop in H as [H Hy2]. apply andb_prop in H as [H Hy1].
  apply andb_prop in H as [Hx1 Hx2].
  rewrite Hx1, Hx2, Hy1, Hy2. reflexivity.
Qed.

Lemma sampleStep_checked_ok (gradMag : Mat) (p1 p2 : Point) (nSamples : Z)
      (acc : F64.t * Z) (s : Z) :
  nSamples <> 0 ->
  sampleStep_checked gradMag p1 p2 nSamples acc s
  = ret (sampleStep gradMag p1 p2 nSamples acc s).
Proof.
  intros Hn. unfold sampleStep_checked, sampleStep. destruct acc as [totalGrad numSamples].
  rewrite samplePoint_checked_ok by exact Hn. cbn [bind ret].
  destruct (samplePoint p1 p2 nSamples s) as [x y].
  destruct (inBounds gradMag x y) eqn:Hb; [| reflexivity].
  rewrite at_float_checked_ok by exact Hb. reflexivity.
Qed.

Lemma edgeStep_checked_ok (quad : list Point) (gradMag : Mat) (acc : F64.t * Z) (i : nat) :
  length quad = 4%nat -> (i < 4)%nat ->
  edgeStep_checked quad gradMag acc i = ret (edgeStep quad gradMag acc i).
Proof.
  intros Hlen Hi. unfold edgeStep_checked, edgeStep.
  rewrite !at_pt_checked_ok; cbn [bind ret].
  - apply foldM_ret. intros acc' s _. apply sampleStep_checked_ok.
    pose proof (edgeSamples_ge_10 (at_pt quad i) (at_pt quad ((i + 1) mod 4))). lia.
  - rewrite Hlen. apply Nat.mod_upper_bound. lia.
  - lia.
Qed.

Lemma computeEdgeScore_checked_ok (quad : list Point) (gradMag : Mat) :
  length quad = 4%nat ->
  computeEdgeScore_checked quad gradMag = ret (computeEdgeScore quad gradMag).
Proof.
  intros Hlen. unfold computeEdgeScore_checked, computeEdgeScore.
  rewrite (foldM_ret _ (edgeStep quad gradMag)).
  - cbn [bind ret].
    destruct (fold_left _ (seq 0 4) (F64.zero, 0)) as [totalGrad numSamples].
    destruct (Z.ltb_spec 0 numSamples) as [Hpos | Hle]; [| reflexivity].
    unfold div64_checked, F64.of_int.
    rewrite (of_Z_nonzero F64.prec F64.emax eq_refl numSamples) by (try discriminate; lia).
    reflexivity.
  - intros acc i Hi. apply edgeStep_checked_ok; [exact Hlen |].
    apply in_seq in Hi. lia.
Qed.
End ScoringSafe.

(** C9: for every quad of four points, degenerate ones with coincident or
    collinear points included, scoring and validation raise no fault.  The
    divisor of the angle cosine has 1e-10 under its square root and is
    never zero, and the cosine is never a NaN; the edge score is divided by the sample count only when the
    count is positive; every read of the gradient map follows the bounds
    check on both coordinates; the quad is read at indices 0 to 3 only.  So
    the code run with every fault made explicit returns the value of the
    plain code. *)
Theorem scoring_and_validation_never_fault :
  forall (cv : OpenCV) (a b c d : Point) (gradMag : Mat),
    let quad := [a; b; c; d] in
    (forall p1 p2 p0, IEEE.is_zero (angleCos_den
        (F64.of_int (CInt.sub (px p1) (px p0))) (F64.of_int (CInt.sub (py p1) (py p0)))
        (F64.of_int (CInt.sub (px p2) (px p0))) (F64.of_int (CInt.sub (py p2) (py p0))))
        = false)
    /\ (forall p1 p2 p0, IEEE.is_nan (angleCos p1 p2 p0) = false)
    /\ maxCos_checked quad = inr (maxCos quad)
    /\ computeEdgeScore_checked quad gradMag = inr (computeEdgeScore quad gradMag).
Proof.
  intros cv a b c d gradMag quad. split; [| split; [| split]].
  - intros p1 p2 p0. apply angleCos_den_nonzero.
  - exact angleCos_not_nan.
  - apply maxCos_checked_ok. reflexivity.
  - apply computeEdgeScore_checked_ok. reflexivity.
Qed.

(* ------------------------------------------------------------------ *)
(** ** The edge score is the mean gradient over the valid samples *)

Section EdgeScore.
Context {cv : OpenCV}.





End EdgeScore.

(* ------------------------------------------------------------------ *)
(** ** Quad validation *)

Lemma mul_const_not_nan (x : F64.t) (m : positive) (e : Z) :
  IEEE.is_nan x = false -> IEEE.is_nan (x * S754_finite false m e)%f64 = false.
Proof.
  destruct x as [s | s | | s mx ex]; cbn [IEEE.is_nan]; try discriminate; intros _;
    try reflexivity.
  unfold F64.mul. cbn [SFmul].
  destruct (binary_round_aux_cases F64.prec F64.emax (xorb s false) (Zpos (mx * m)) (ex + e)
              loc_Exact ltac:(lia)) as [-> | [(m' & e' & ->) | ->]]; reflexivity.
Qed.

(** The running maximum: when it ends below [c], every number that went
    in and is not a NaN lies below [c]. *)
Lemma maxStep_fold_below (c : F64.t) (l : list F64.t) : forall mc,
  IEEE.is_nan mc = false ->
  F64.ltb (fold_left maxStep l mc) c = true ->
  F64.ltb mc c = true
  /\ forall x, In x l -> IEEE.is_nan x = false -> F64.ltb x c = true.
Proof.
  assert (Hc : forall y, F64.ltb y c = true -> IEEE.is_nan c = false).
  { intros y H. destruct c; try reflexivity. destruct y; discriminate. }
  induction l as [|x tl IH]; intros mc Hmc H; cbn [fold_left] in H.
  - split; [exact H | intros x []].
  - unfold maxStep at 2 in H. unfold F64.gtb in H.
    destruct (SFltb mc x) eqn:Hcmp.
    + assert (Hx : IEEE.is_nan x = false).
      { destruct x; try reflexivity. destruct mc; discriminate. }
      destruct (IH x Hx H) as [Hxc Hrest]. pose proof (Hc _ Hxc) as Hcn.
      assert (Hmcc : F64.ltb mc c = true).
      { apply ltb_key; [exact Hmc | exact Hcn |].
        apply keyLt_trans with (ordKey x); apply ltb_key; assumption. }
      split; [exact Hmcc |]. intros y [<- | Hy] Hyn; [exact Hxc | now apply Hrest].
    + destruct (IH mc Hmc H) as [Hmcc Hrest]. pose proof (Hc _ Hmcc) as Hcn.
      split; [exact Hmcc |]. intros y [<- | Hy] Hyn; [| now apply Hrest].
      apply ltb_key; [exact Hyn | exact Hcn |].
      apply keyLe_lt_trans with (ordKey mc).
      * intros Hk. apply (ltb_key mc x Hmc Hyn) in Hk. unfold F64.ltb in Hk. congruence.
      * apply ltb_key; assumption.
Qed.

Section Validation.
Context {cv : OpenCV}.

Lemma maxCos_fold (quad : list Point) :
  maxCos quad = fold_left maxStep (map (cornerCos quad) [2; 3; 4]%nat) F64.zero.
Proof. reflexivity. Qed.

Lemma cornerCos_not_nan (quad : list Point) (j : nat) :
  IEEE.is_nan (cornerCos quad j) = false.
Proof. unfold cornerCos. rewrite fabs_not_nan. apply angleCos_not_nan. Qed.

(** When the maximum is below [c], so is the cosine at each corner that
    the loop visits. *)
Lemma maxCos_below (quad : list Point) (c : F64.t) :
  F64.ltb (maxCos quad) c = true ->
  forall j, In j [2; 3; 4]%nat -> F64.ltb (cornerCos quad j) c = true.
Proof.
  intros H j Hj. rewrite maxCos_fold in H.
  destruct (maxStep_fold_below c _ F64.zero eq_refl H) as [_ Hall].
  apply Hall; [now apply in_map | apply cornerCos_not_nan].
Qed.

Lemma onBorder_nearBorder (imgW imgH : Z) (p : Point) :
  0 <= imgW < 2147483648 -> 0 <= imgH < 2147483648 ->
  onBorder imgW imgH p = nearBorder 5 imgW imgH p.
Proof.
  intros HW HH. unfold onBorder, nearBorder, borderMargin, CInt.sub.
  rewrite (wrap_small (imgW - 5)), (wrap_small (imgH - 5)) by (unfold CInt.in_range; lia).
  rewrite (wrap_small (imgW - 5 - 1)), (wrap_small (imgH - 5 - 1))
    by (unfold CInt.in_range; lia).
  replace (imgW - 5 - 1) with (imgW - 1 - 5) by lia.
  replace (imgH - 5 - 1) with (imgH - 1 - 5) by lia.
  reflexivity.
Qed.

Lemma borderCount_from (imgW imgH : Z) (quad : list Point) : forall n,
  0 <= imgW < 2147483648 -> 0 <= imgH < 2147483648 ->
  0 <= n -> n + Z.of_nat (length quad) < 2147483648 ->
  fold_left (fun n p => if onBorder imgW imgH p then CInt.add n 1 else n) quad n
  = n + Z.of_nat (cornersNearBorder 5 imgW imgH quad).
Proof.
  unfold cornersNearBorder.
  induction quad as [|p tl IH]; intros n HW HH Hn Hfit; cbn [fold_left filter length].
  - lia.
  - cbn [length] in Hfit. rewrite (onBorder_nearBorder imgW imgH p HW HH).
    pose proof (filter_length_le (nearBorder 5 imgW imgH) tl) as Hle.
    destruct (nearBorder 5 imgW imgH p); cbn [length].
    + unfold CInt.add. rewrite wrap_small by (unfold CInt.in_range; lia).
      rewrite IH by lia. lia.
    + rewrite IH by lia. lia.
Qed.

Lemma borderCount_eq (imgW imgH : Z) (quad : list Point) :
  0 <= imgW < 2147483648 -> 0 <= imgH < 2147483648 ->
  Z.of_nat (length quad) < 2147483648 ->
  borderCount quad imgW imgH = Z.of_nat (cornersNearBorder 5 imgW imgH quad).
Proof.
  intros HW HH Hfit. unfold borderCount.
  rewrite borderCount_from by lia. lia.
Qed.

Lemma nearBorder_mono (m1 m2 W H : Z) (p : Point) :
  m1 <= m2 -> nearBorder m1 W H p = true -> nearBorder m2 W H p = true.
Proof.
  unfold nearBorder. intros Hm Hn.
  repeat (apply orb_prop in Hn; destruct Hn as [Hn | Hn]); apply Z.leb_le in Hn;
    repeat (apply orb_true_iff; first [right; apply Z.leb_le; lia | left]);
    apply Z.leb_le; lia.
Qed.

Lemma cornersNearBorder_mono (m1 m2 W H : Z) (quad : list Point) :
  m1 <= m2 -> (cornersNearBorder m1 W H quad <= cornersNearBorder m2 W H quad)%nat.
Proof.
  intros Hm. unfold cornersNearBorder.
  induction quad as [|p tl IH]; cbn [filter length]; [lia |].
  destruct (nearBorder m1 W H p) eqn:E1.
  - rewrite (nearBorder_mono m1 m2 W H p Hm E1). cbn [length]. lia.
  - destruct (nearBorder m2 W H p); cbn [length]; lia.
Qed.

(** What [isGoodQuad] has checked when it returns [true]. *)
Lemma isGoodQuad_true (q : list Point) (imgArea : F64.t) (clean gradMag : Mat) :
  length q = 4%nat ->
  isGoodQuad q imgArea (cols clean) (rows clean) = true ->
  validCandidate imgArea gradMag (cols clean) (rows clean) (newCandidate q gradMag).
Proof.
  intros Hlen H. unfold isGoodQuad in H.
  destruct (F64.ltb (contourArea q) (imgArea * F64.c_0_05)%f64) eqn:Hlo;
    [discriminate |].
  destruct (F64.gtb (contourArea q) (imgArea * F64.c_0_85)%f64) eqn:Hhi;
    [discriminate |].
  cbn [orb] in H.
  destruct (isContourConvex q) eqn:Hconv; [| discriminate]. cbn [negb] in H.
  destruct (Z.leb_spec 3 (borderCount q (cols clean) (rows clean))) as [| Hb];
    [discriminate |].
  destruct (mat_dims clean) as [HH HW].
  rewrite borderCount_eq in Hb by (try assumption; rewrite Hlen; cbn; lia).
  unfold validCandidate, newCandidate. cbn [quad area edgeScore].
  repeat split; try assumption; try reflexivity.
  - apply ltb_false_leb; try assumption. apply mul_const_not_nan. assumption.
  - apply ltb_false_leb; try assumption. apply mul_const_not_nan. assumption.
  - lia.
  - apply maxCos_below. exact H.
Qed.

(** Three corners within 3 pixels of the border: not a good quad. *)
Lemma isGoodQuad_border (quad : list Point) (imgArea : F64.t) (clean : Mat) :
  length quad = 4%nat ->
  (3 <= cornersNearBorder 3 (cols clean) (rows clean) quad)%nat ->
  isGoodQuad quad imgArea (cols clean) (rows clean) = false.
Proof.
  intros Hlen H3. unfold isGoodQuad.
  destruct (_ || _); [reflexivity |].
  destruct (negb _); [reflexivity |].
  destruct (mat_dims clean) as [HH HW].
  rewrite borderCount_eq by (try assumption; rewrite Hlen; cbn; lia).
  pose proof (cornersNearBorder_mono 3 5 (cols clean) (rows clean) quad ltac:(lia)).
  destruct (Z.leb_spec 3 (Z.of_nat (cornersNearBorder 5 (cols clean) (rows clean) quad)));
    [reflexivity | lia].
Qed.
End Validation.

(* ------------------------------------------------------------------ *)
(** ** The candidate pool *)

Lemma appendsOnly_compose (P : Candidate -> Prop) (F G : list Candidate -> list Candidate) :
  appendsOnly P F -> appendsOnly P G -> appendsOnly P (fun pool => G (F pool)).
Proof.
  intros (nf & Pf & Hf) (ng & Pg & Hg). exists (nf ++ ng). split.
  - apply Forall_app. split; assumption.
  - intros pool. rewrite Hf, Hg, app_assoc. reflexivity.
Qed.

Lemma appendsOnly_fold {X : Type} (P : Candidate -> Prop)
      (step : list Candidate -> X -> list Candidate) (l : list X) :
  (forall x, appendsOnly P (fun pool => step pool x)) ->
  appendsOnly P (fun pool => fold_left step l pool).
Proof.
  intros Hstep. induction l as [|x tl IH]; cbn [fold_left].
  - exists []. split; [constructor | intros pool; symmetry; apply app_nil_r].
  - apply (appendsOnly_compose P (fun pool => step pool x) (fun pool => fold_left step tl pool));
      [apply Hstep | exact IH].
Qed.

Lemma appendsOnly_fold_after {X : Type} (P : Candidate -> Prop)
      (F : list Candidate -> list Candidate)
      (step : list Candidate -> X -> list Candidate) (l : list X) :
  appendsOnly P F ->
  (forall x, appendsOnly P (fun pool => step pool x)) ->
  appendsOnly P (fun pool => fold_left step l (F pool)).
Proof.
  intros HF Hstep.
  apply (appendsOnly_compose P F (fun pool => fold_left step l pool));
    [exact HF | apply appendsOnly_fold; exact Hstep].
Qed.

Section Pool.
Context {cv : OpenCV}.
Variable std_sort : sort_fn.
Variables (imgArea : F64.t) (gradMag : Mat).

#[local] Abbreviation pooled := (pooledCandidate imgArea gradMag).

Lemma tryContour_appends (clean : Mat) (contour : list Point) (eps : F64.t) :
  appendsOnly pooled (tryContour clean imgArea gradMag contour eps).
Proof.
  unfold tryContour.
  set (approx := approxPolyDP contour (eps * arcLength contour true)%f64 true).
  destruct ((length approx =? 4)%nat && isGoodQuad approx imgArea (cols clean) (rows clean))
    eqn:E.
  - apply andb_prop in E as [Hlen Hgood]. apply Nat.eqb_eq in Hlen.
    exists [newCandidate approx gradMag]. split; [| reflexivity].
    constructor; [| constructor]. exists clean. now apply isGoodQuad_true.
  - exists []. split; [constructor | intros pool; symmetry; apply app_nil_r].
Qed.

Lemma collectQuads_appends (edges : Mat) :
  appendsOnly pooled (collectQuads std_sort edges imgArea gradMag).
Proof.
  unfold collectQuads. apply appendsOnly_fold. intros eps.
  apply appendsOnly_fold. intros i. apply tryContour_appends.
Qed.

Lemma findSquaresMultiChannel_appends (img : Mat) :
  appendsOnly pooled (findSquaresMultiChannel std_sort img imgArea gradMag).
Proof.
  unfold findSquaresMultiChannel. apply appendsOnly_fold. intros c.
  apply appendsOnly_fold_after; [apply collectQuads_appends |].
  intros l. apply collectQuads_appends.
Qed.

Lemma findByMorphGradient_appends (img : Mat) :
  appendsOnly pooled (findByMorphGradient std_sort img imgArea gradMag).
Proof.
  unfold findByMorphGradient. apply appendsOnly_fold. intros k. apply collectQuads_appends.
Qed.

Lemma findBySaturation_appends (img : Mat) :
  appendsOnly pooled (findBySaturation std_sort img imgArea gradMag).
Proof.
  unfold findBySaturation. apply appendsOnly_fold. intros t. apply collectQuads_appends.
Qed.

Lemma findByColorDistance_appends (img : Mat) :
  appendsOnly pooled (findByColorDistance std_sort img imgArea gradMag).
Proof. unfold findByColorDistance. apply collectQuads_appends. Qed.

Lemma findByLabEdges_appends (img : Mat) :
  appendsOnly pooled (findByLabEdges std_sort img imgArea gradMag).
Proof.
  unfold findByLabEdges. apply appendsOnly_fold. intros lo. apply collectQuads_appends.
Qed.

Lemma findByCLAHECanny_appends (img : Mat) :
  appendsOnly pooled (findByCLAHECanny std_sort img imgArea gradMag).
Proof.
  unfold findByCLAHECanny. apply appendsOnly_fold. intros lo. apply collectQuads_appends.
Qed.

Lemma runStrategies_appends (small : Mat) :
  appendsOnly pooled (runStrategies std_sort small imgArea gradMag).
Proof.
  pose proof (findSquaresMultiChannel_appends small) as H1.
  pose proof (appendsOnly_compose pooled _ _ H1 (findByMorphGradient_appends small)) as H2.
  pose proof (appendsOnly_compose pooled _ _ H2 (findBySaturation_appends small)) as H3.
  pose proof (appendsOnly_compose pooled _ _ H3 (findByColorDistance_appends small)) as H4.
  pose proof (appendsOnly_compose pooled _ _ H4 (findByLabEdges_appends small)) as H5.
  exact (appendsOnly_compose pooled _ _ H5 (findByCLAHECanny_appends small)).
Qed.
End Pool.
(* ------------------------------------------------------------------ *)
(** ** Where the pooled candidates come from *)

Lemma appendsOnly_fold_in {X : Type} (P : Candidate -> Prop)
      (step : list Candidate -> X -> list Candidate) (l : list X) :
  (forall x, In x l -> appendsOnly P (fun pool => step pool x)) ->
  appendsOnly P (fun pool => fold_left step l pool).
Proof.
  induction l as [|x tl IH]; intros Hstep; cbn [fold_left].
  - exists []. split; [constructor | intros pool; symmetry; apply app_nil_r].
  - apply (appendsOnly_compose P (fun pool => step pool x) (fun pool => fold_left step tl pool)).
    + apply Hstep. left. reflexivity.
    + apply IH. intros y Hy. apply Hstep. right. exact Hy.
Qed.

Lemma appendsOnly_weaken (P Q : Candidate -> Prop) (F : list Candidate -> list Candidate) :
  (forall c, P c -> Q c) -> appendsOnly P F -> appendsOnly Q F.
Proof.
  intros HPQ (new & Hnew & Happ). exists new. split; [| exact Happ].
  apply Forall_impl with (P := P); assumption.
Qed.

Lemma nth_in_firstn {A : Type} (l : list A) (d : A) (k i : nat) :
  (i < Nat.min (length l) k)%nat -> In (nth i l d) (firstn k l).
Proof.
  revert k i. induction l as [|a tl IH]; intros k i Hi; cbn [length] in Hi.
  - cbn in Hi. lia.
  - destruct k as [|k]; [lia |]. destruct i as [|i]; cbn [nth firstn].
    + left. reflexivity.
    + right. apply IH. cbn in Hi. lia.
Qed.

Lemma fold_left_map_list {A B C : Type} (f : A -> B -> A) (g : C -> B) (l : list C) :
  forall a, fold_left f (map g l) a = fold_left (fun a x => f a (g x)) l a.
Proof. induction l as [|x tl IH]; intros a; cbn [map fold_left]; [reflexivity | apply IH]. Qed.

Lemma fold_left_flat_map_list {A B C : Type} (f : A -> B -> A) (g : C -> list B) (l : list C) :
  forall a, fold_left f (flat_map g l) a = fold_left (fun a x => fold_left f (g x) a) l a.
Proof.
  induction l as [|x tl IH]; intros a; cbn [flat_map fold_left]; [reflexivity |].
  rewrite fold_left_app. apply IH.
Qed.

Section Provenance.
Context {cv : OpenCV}.
Variable std_sort : sort_fn.
Variables (imgArea : F64.t) (gradMag : Mat).

(** What [collectQuads] pushes on the mask [edges]. *)
#[local] Abbreviation pushed edges :=
  (fun c => pushedFrom std_sort edges imgArea gradMag c
            /\ validCandidate imgArea gradMag (cols (cleanBorders edges))
                              (rows (cleanBorders edges)) c).

Lemma tryContour_pushes (edges : Mat) (contour : list Point) (eps : F64.t) :
  In contour (firstn 20 (sortedContours std_sort (cleanBorders edges))) ->
  In eps [F64.c_0_02; F64.c_0_04] ->
  appendsOnly (pushed edges) (tryContour (cleanBorders edges) imgArea gradMag contour eps).
Proof.
  intros Hcontour Heps. unfold tryContour.
  set (clean := cleanBorders edges) in *.
  set (approx := approxPolyDP contour (eps * arcLength contour true)%f64 true).
  destruct ((length approx =? 4)%nat && isGoodQuad approx imgArea (cols clean) (rows clean))
    eqn:E.
  - apply andb_prop in E as [Hlen Hgood]. apply Nat.eqb_eq in Hlen.
    exists [newCandidate approx gradMag]. split; [| reflexivity].
    constructor; [| constructor]. split.
    + exists contour, eps. fold clean. fold approx. cbn [quad newCandidate].
      split; [exact Hcontour |]. split; [exact Heps |]. split; [reflexivity |].
      split; assumption.
    + now apply isGoodQuad_true.
  - exists []. split; [constructor | intros pool; symmetry; apply app_nil_r].
Qed.

Lemma collectQuads_pushes (edges : Mat) :
  appendsOnly (pushed edges) (collectQuads std_sort edges imgArea gradMag).
Proof.
  unfold collectQuads. apply appendsOnly_fold_in. intros eps Heps.
  apply appendsOnly_fold_in. intros i Hi. apply tryContour_pushes; [| exact Heps].
  apply in_seq in Hi. apply nth_in_firstn. lia.
Qed.

(** Each strategy is a sequence of calls of [collectQuads], one for each
    of its masks. *)
#[local] Abbreviation collectAll masks pool :=
  (fold_left (fun pool edges => collectQuads std_sort edges imgArea gradMag pool) masks pool).

Lemma findSquaresMultiChannel_masks (img : Mat) (pool : list Candidate) :
  findSquaresMultiChannel std_sort img imgArea gradMag pool
  = collectAll (masksMultiChannel img) pool.
Proof.
  unfold findSquaresMultiChannel, masksMultiChannel.
  rewrite fold_left_flat_map_list. reflexivity.
Qed.

Lemma findByMorphGradient_masks (img : Mat) (pool : list Candidate) :
  findByMorphGradient std_sort img imgArea gradMag pool
  = collectAll (masksMorphGradient img) pool.
Proof. reflexivity. Qed.

Lemma findBySaturation_masks (img : Mat) (pool : list Candidate) :
  findBySaturation std_sort img imgArea gradMag pool
  = collectAll (masksSaturation img) pool.
Proof. reflexivity. Qed.

Lemma findByColorDistance_masks (img : Mat) (pool : list Candidate) :
  findByColorDistance std_sort img imgArea gradMag pool
  = collectAll (masksColorDistance img) pool.
Proof. reflexivity. Qed.

Lemma findByLabEdges_masks (img : Mat) (pool : list Candidate) :
  findByLabEdges std_sort img imgArea gradMag pool
  = collectAll (masksLabEdges img) pool.
Proof. reflexivity. Qed.

Lemma findByCLAHECanny_masks (img : Mat) (pool : list Candidate) :
  findByCLAHECanny std_sort img imgArea gradMag pool
  = collectAll (masksCLAHECanny img) pool.
Proof. reflexivity. Qed.

Lemma runStrategies_masks (small : Mat) (pool : list Candidate) :
  runStrategies std_sort small imgArea gradMag pool = collectAll (strategyMasks small) pool.
Proof.
  unfold runStrategies, strategyMasks. rewrite !fold_left_app.
  rewrite findSquaresMultiChannel_masks, findByMorphGradient_masks,
    findBySaturation_masks, findByColorDistance_masks, findByLabEdges_masks,
    findByCLAHECanny_masks.
  reflexivity.
Qed.

Lemma collectAll_validated (masks : list Mat) :
  appendsOnly (validatedOn std_sort masks imgArea gradMag) (fun pool => collectAll masks pool).
Proof.
  apply appendsOnly_fold_in. intros edges Hin.
  apply (appendsOnly_weaken (pushed edges)); [| apply collectQuads_pushes].
  intros c (Hpush & Hvalid). exists edges. split; [exact Hin | split; assumption].
Qed.
End Provenance.

Section PoolProvenance.
Context {cv : OpenCV}.
Variable std_sort : sort_fn.

Lemma candidatePool_validated (small : Mat) :
  Forall (validatedOn std_sort (strategyMasks small) (workingArea small)
                      (gradientMagnitude small))
         (candidatePool std_sort small).
Proof.
  unfold candidatePool. rewrite runStrategies_masks.
  destruct (collectAll_validated std_sort (workingArea small) (gradientMagnitude small)
              (strategyMasks small)) as (new & Hnew & Happ).
  rewrite Happ. exact Hnew.
Qed.

Lemma candidatePool_valid_for_image (small : Mat) :
  Forall (sizeOf small) (strategyMasks small) ->
  Forall (validCandidate (workingArea small) (gradientMagnitude small)
                         (cols small) (rows small))
         (candidatePool std_sort small).
Proof.
  intros Hsize. apply Forall_impl with (2 := candidatePool_validated small).
  intros c (edges & Hin & _ & Hvalid).
  rewrite Forall_forall in Hsize. destruct (Hsize edges Hin) as (Hc & Hr).
  rewrite Hc, Hr in Hvalid. exact Hvalid.
Qed.
End PoolProvenance.

(* ================================================================== *)
(** * The claims of the specification *)

Section Detect.
Context {cv : OpenCV}.
Variable std_sort : sort_fn.

Lemma detectDocument_empty (bgr : Mat) :
  detectDocument std_sort bgr = [] <-> candidatePool std_sort (workingImage bgr) = [].
Proof.
  unfold detectDocument.
  destruct (candidatePool std_sort (workingImage bgr)) as [|c tl].
  - split; reflexivity.
  - split; discriminate.
Qed.

Lemma detectDocument_found (bgr : Mat) :
  candidatePool std_sort (workingImage bgr) <> [] ->
  detectDocument std_sort bgr = orderPoints (mappedQuad std_sort bgr).
Proof.
  unfold detectDocument.
  destruct (candidatePool std_sort (workingImage bgr)) as [|c tl]; [congruence | reflexivity].
Qed.

Lemma quadToJni_some (q : list Point) :
  q <> [] -> exists arr, quadToJni q = Some arr /\ length arr = 8%nat.
Proof.
  destruct q as [|p tl]; [congruence | intros _].
  eexists. split; reflexivity.
Qed.

Lemma candidatePool_pooled (small : Mat) :
  Forall (pooledCandidate (workingArea small) (gradientMagnitude small))
         (candidatePool std_sort small).
Proof.
  unfold candidatePool.
  destruct (runStrategies_appends std_sort (workingArea small) (gradientMagnitude small) small)
    as (new & Hnew & Happ).
  rewrite Happ. exact Hnew.
Qed.

Lemma appendsOnly_frame (P : Candidate -> Prop) (F : list Candidate -> list Candidate) :
  appendsOnly P F -> forall pool, F pool = pool ++ F [].
Proof.
  intros (new & _ & H) pool. rewrite (H pool), (H []). reflexivity.
Qed.
End Detect.

(** C1: the pipeline reports "not found" exactly when the candidate pool
    is empty after the six strategies; otherwise it returns 4 points.  The
    JNI result tells the two apart: a null array, or an array of 8 floats. *)
Theorem detectDocument_found_iff_pool_nonempty :
  forall (cv : OpenCV) (std_sort : sort_fn) (bgr : Mat),
    let pool := candidatePool std_sort (workingImage bgr) in
    (detectDocument std_sort bgr = [] <-> pool = [])
    /\ (pool = [] -> quadToJni (detectDocument std_sort bgr) = None)
    /\ (pool <> [] ->
        length (detectDocument std_sort bgr) = 4%nat
        /\ exists arr, quadToJni (detectDocument std_sort bgr) = Some arr
                       /\ length arr = 8%nat).
Proof.
  intros cv std_sort bgr pool. split; [apply detectDocument_empty | split].
  - intros Hnone. apply (detectDocument_empty std_sort bgr) in Hnone.
    rewrite Hnone. reflexivity.
  - intros Hsome. rewrite (detectDocument_found std_sort bgr Hsome).
    split; [apply orderPoints_length |].
    apply quadToJni_some. discriminate.
Qed.

(** C2: every candidate in the pool was valid when it was made.  The pool
    is what [collectQuads] pushes on the masks of the six strategies, one
    mask after the other; each candidate is the 4-vertex polygon of a
    contour of one of these masks that [isGoodQuad] accepted for the size
    of that mask: its area is the contour area of its quad and is neither
    below 5% nor above 85% of the working-image area, the quad is convex,
    and fewer than 3 of its corners lie within 5 pixels of a border of that
    mask.  When the masks have the size of the working image, as the
    filters of OpenCV leave them, this holds for the borders of the working
    image, and no pooled quad has 3 corners within 3 pixels of them.  A quad
    with 3 corners within 3 pixels of the border fails validation, whatever
    its score would be, and is not pushed. *)
Theorem pooled_candidates_are_valid :
  forall (cv : OpenCV) (std_sort : sort_fn) (small : Mat),
    let imgArea := workingArea small in
    let gradMag := gradientMagnitude small in
    let pool := candidatePool std_sort small in
    pool = fold_left (fun pool edges => collectQuads std_sort edges imgArea gradMag pool)
                     (strategyMasks small) []
    /\ Forall (validatedOn std_sort (strategyMasks small) imgArea gradMag) pool
    /\ (Forall (sizeOf small) (strategyMasks small) ->
        Forall (fun c => validCandidate imgArea gradMag (cols small) (rows small) c
                         /\ (cornersNearBorder 3 (cols small) (rows small) (quad c) < 3)%nat)
               pool)
    /\ (forall (q : list Point) (imgArea : F64.t) (clean : Mat),
          length q = 4%nat ->
          (3 <= cornersNearBorder 3 (cols clean) (rows clean) q)%nat ->
          isGoodQuad q imgArea (cols clean) (rows clean) = false)
    /\ (forall (contour : list Point) (eps imgArea : F64.t) (clean gradMag : Mat)
               (pool : list Candidate),
          let approx := approxPolyDP contour (eps * arcLength contour true)%f64 true in
          (3 <= cornersNearBorder 3 (cols clean) (rows clean) approx)%nat ->
          tryContour clean imgArea gradMag contour eps pool = pool).
Proof.
  intros cv std_sort small imgArea gradMag pool.
  split; [apply runStrategies_masks |].
  split; [apply candidatePool_validated |].
  split; [| split].
  - intros Hsize.
    apply Forall_impl with (2 := candidatePool_valid_for_image std_sort small Hsize).
    intros c Hvalid. split; [exact Hvalid |].
    destruct Hvalid as (_ & _ & _ & _ & _ & _ & _ & Hborder & _).
    pose proof (cornersNearBorder_mono 3 5 (cols small) (rows small) (quad c) ltac:(lia)).
    lia.
  - intros q imgArea' clean. apply isGoodQuad_border.
  - intros contour eps imgArea' clean gradMag' pool' approx H3.
    unfold tryContour. fold approx.
    destruct (Nat.eqb_spec (length approx) 4) as [Hlen | Hlen]; [| reflexivity].
    rewrite (isGoodQuad_border approx imgArea' clean Hlen H3). reflexivity.
Qed.

(** On the reference scene every mask has the 40x40 pixels of the image;
    its 34 pooled candidates are valid for the borders of the image. *)
Lemma pooled_candidates_are_valid_witness :
  length (candidatePool (cv := Ref.cv) Ref.sort Ref.scene) = 34%nat
  /\ Forall (fun c => validCandidate (cv := Ref.cv)
                        (workingArea (cv := Ref.cv) Ref.scene)
                        (gradientMagnitude (cv := Ref.cv) Ref.scene) 40 40 c
                      /\ (cornersNearBorder 3 40 40 (quad c) < 3)%nat)
            (candidatePool (cv := Ref.cv) Ref.sort Ref.scene).
Proof.
  split; [vm_compute; reflexivity |].
  refine (proj1 (proj2 (proj2 (pooled_candidates_are_valid Ref.cv Ref.sort Ref.scene))) _).
  unfold strategyMasks.
  repeat first [apply Forall_nil | apply Forall_cons | apply Forall_app; split];
    vm_compute; split; reflexivity.
Defined.

(** The pool of the reference scene is not empty. *)
Example candidatePool_scene :
  length (candidatePool (cv := Ref.cv) Ref.sort Ref.scene) = 34%nat.
Proof. vm_compute. reflexivity. Qed.

(** C3 (the code differs): the angle loop of [isGoodQuad] runs over
    [j = 2, 3, 4] and takes the cosine at the corners 1, 2 and 3 only.  The
    kite passes validation although the cosine at its corner 0 is 0.87, not
    below 0.4.  At the three corners that the loop visits the absolute
    cosine is below 0.4 for every quad that passes. *)
Theorem isGoodQuad_skips_corner_0 :
  isGoodQuad (cv := Ref.cv) Ref.kite (F64.of_int 44000) 200 220 = true
  /\ F64.ltb (F64.fabs (angleCos (at_pt Ref.kite 1) (at_pt Ref.kite 3) (at_pt Ref.kite 0)))
             F64.c_0_4 = false
  /\ F64.ltb F64.c_0_4
             (F64.fabs (angleCos (at_pt Ref.kite 1) (at_pt Ref.kite 3) (at_pt Ref.kite 0)))
     = true
  /\ (forall (cv : OpenCV) (q : list Point) (imgArea : F64.t) (clean gradMag : Mat),
        length q = 4%nat ->
        isGoodQuad q imgArea (cols clean) (rows clean) = true ->
        forall j, In j [2; 3; 4]%nat -> F64.ltb (cornerCos q j) F64.c_0_4 = true).
Proof.
  split; [vm_compute; reflexivity |].
  split; [vm_compute; reflexivity |].
  split; [vm_compute; reflexivity |].
  intros cv q imgArea clean gradMag Hlen Hgood.
  apply (isGoodQuad_true q imgArea clean gradMag Hlen Hgood).
Qed.

(** [collectQuads] pools the kite, once for each tolerance. *)
Example kite_is_pooled :
  map quad (collectQuads (cv := Ref.cv) Ref.sort Ref.kiteMask (F64.of_int 44000)
                         Ref.kiteMask [])
  = [Ref.kite; Ref.kite].
Proof. vm_compute. reflexivity. Qed.

(* ------------------------------------------------------------------ *)
(** ** The selected quad *)

Lemma sorted3 {A : Type} (R : A -> A -> Prop) (x y z : A) :
  StronglySorted R [x; y; z] -> R x y /\ R x z /\ R y z.
Proof.
  intros H. inversion H as [|? ? H1 F1]; subst.
  inversion H1 as [|? ? H2 F2]; subst.
  inversion F1 as [|? ? Rxy F1']; subst. inversion F1' as [|? ? Rxz _]; subst.
  inversion F2 as [|? ? Ryz _]; subst. auto.
Qed.

(** Whatever [std::sort] does with equivalent elements, the three
    rescored candidates of [poolABC] end up in the order B, A, C. *)
Lemma poolABC_sorted (l' : list Candidate) :
  sort_contract scoreGreater (map (rescore (F64.of_int 40000)) Ref.poolABC) l' ->
  l' = map (rescore (F64.of_int 40000)) [Ref.candB; Ref.candA; Ref.candC].
Proof.
  intros [Hperm Hsorted].
  pose proof (Permutation_length Hperm) as Hlen.
  destruct l' as [|x [|y [|z [|w tl]]]]; try discriminate Hlen.
  pose proof (fun c H => Permutation_in c (Permutation_sym Hperm) H) as Hback.
  pose proof (fun c H => Permutation_in c Hperm H) as Hforth.
  assert (Hx := Hback x ltac:(cbn; auto)).
  assert (Hy := Hback y ltac:(cbn; auto)).
  assert (Hz := Hback z ltac:(cbn; auto)).
  assert (Ha := Hforth (rescore (F64.of_int 40000) Ref.candA) ltac:(cbn; auto)).
  assert (Hb := Hforth (rescore (F64.of_int 40000) Ref.candB) ltac:(cbn; auto)).
  assert (Hc := Hforth (rescore (F64.of_int 40000) Ref.candC) ltac:(cbn; auto)).
  apply sorted3 in Hsorted as (Rxy & Rxz & Ryz).
  clear Hperm Hback Hforth Hlen.
  cbn [map Ref.poolABC In] in Hx, Hy, Hz.
  destruct Hx as [<- | [<- | [<- | []]]]; destruct Hy as [<- | [<- | [<- | []]]];
    destruct Hz as [<- | [<- | [<- | []]]];
    try (vm_compute in Rxy; discriminate Rxy);
    try (vm_compute in Rxz; discriminate Rxz);
    try (vm_compute in Ryz; discriminate Ryz);
    try reflexivity;
    exfalso; clear Rxy Rxz Ryz; cbn [In] in Ha, Hb, Hc;
    first
      [ destruct Ha as [Ha | [Ha | [Ha | []]]]; vm_compute in Ha; discriminate Ha
      | destruct Hb as [Hb | [Hb | [Hb | []]]]; vm_compute in Hb; discriminate Hb
      | destruct Hc as [Hc | [Hc | [Hc | []]]]; vm_compute in Hc; discriminate Hc ].
Qed.

(** When [std::sort] meets its contract, the quad that is read through
    [best] is the quad of some candidate of the pool, though not always of
    the best one. *)
Lemma selectedQuad_in_pool (std_sort : sort_fn) (imgArea : F64.t) (pool : list Candidate) :
  pool <> [] ->
  sort_contract scoreGreater (map (rescore imgArea) pool)
                (std_sort _ scoreGreater (map (rescore imgArea) pool)) ->
  exists c, In c pool /\ selectedQuad std_sort imgArea pool = quad c.
Proof.
  intros Hne [Hperm _]. unfold selectedQuad.
  set (rescored := map (rescore imgArea) pool) in *.
  assert (Hk : (max_element scoreLess rescored < length rescored)%nat).
  { apply max_element_bound. unfold rescored. destruct pool; [congruence | discriminate]. }
  rewrite (Permutation_length Hperm) in Hk.
  pose proof (nth_In _ no_candidate Hk) as Hin.
  apply (Permutation_in _ (Permutation_sym Hperm)) in Hin.
  apply in_map_iff in Hin as (c & Hc & Hcin).
  exists c. split; [exact Hcin |].
  change (quad c) with (quad (rescore imgArea c)). rewrite Hc. reflexivity.
Qed.

(** C5 (the code differs): the combined scores of [poolABC] are 18.2, 24
    and 18, so B is the best candidate, and [std::max_element] finds it in
    slot 1.  The vector is then sorted for the log, which puts A in slot 1,
    and the quad that is read through [best] afterwards is the quad of A.
    This holds for every [std::sort] that meets the standard's contract. *)
Theorem selectedQuad_reads_sorted_slot :
  forall std_sort : sort_fn,
    sort_contract scoreGreater
      (map (rescore (F64.of_int 40000)) Ref.poolABC)
      (std_sort _ scoreGreater (map (rescore (F64.of_int 40000)) Ref.poolABC)) ->
    max_element scoreLess (map (rescore (F64.of_int 40000)) Ref.poolABC) = 1%nat
    /\ scoreLess (rescore (F64.of_int 40000) Ref.candA)
                 (rescore (F64.of_int 40000) Ref.candB) = true
    /\ scoreLess (rescore (F64.of_int 40000) Ref.candC)
                 (rescore (F64.of_int 40000) Ref.candB) = true
    /\ selectedQuad std_sort (F64.of_int 40000) Ref.poolABC = quad Ref.candA.
Proof.
  intros std_sort Hsort.
  split; [vm_compute; reflexivity |].
  split; [vm_compute; reflexivity |].
  split; [vm_compute; reflexivity |].
  unfold selectedQuad. rewrite (poolABC_sorted _ Hsort).
  vm_compute. reflexivity.
Qed.

Lemma selectedQuad_reads_sorted_slot_witness :
  selectedQuad Ref.sort (F64.of_int 40000) Ref.poolABC = quad Ref.candA.
Proof.
  apply (selectedQuad_reads_sorted_slot Ref.sort).
  split.
  - vm_compute. apply perm_swap.
  - vm_compute. repeat constructor.
Defined.

(* ------------------------------------------------------------------ *)
(** ** Corner order and coordinate mapping *)

Lemma firstArgMin_le (key : Point -> Z) (l : list Point) (i : nat) (p : Point) :
  firstArgMin key l i -> In p l -> key (nth i l origin) <= key p.
Proof. intros (_ & H & _). apply H. Qed.

Lemma firstArgMax_ge (key : Point -> Z) (l : list Point) (i : nat) (p : Point) :
  firstArgMax key l i -> In p l -> key p <= key (nth i l origin).
Proof. intros (_ & H & _). apply H. Qed.

(** C6: in every returned quad the point at index 0 has the least x+y of
    the corners and the point at index 2 the greatest, the point at index 1
    has the least y-x and the point at index 3 the greatest: top-left,
    top-right, bottom-right, bottom-left.  The returned points are corners
    of the selected quad, so the extremes are taken over the returned
    points as well.  (The sums and differences are [int]s: the coordinates
    have to be below 2^30 in absolute value.) *)
Theorem detectDocument_corner_order :
  forall (cv : OpenCV) (std_sort : sort_fn) (bgr : Mat),
    candidatePool std_sort (workingImage bgr) <> [] ->
    Forall small_coord (corners (mappedQuad std_sort bgr)) ->
    exists o0 o1 o2 o3,
      detectDocument std_sort bgr = [o0; o1; o2; o3]
      /\ incl [o0; o1; o2; o3] (corners (mappedQuad std_sort bgr))
      /\ forall p, In p (corners (mappedQuad std_sort bgr)) \/ In p [o0; o1; o2; o3] ->
           xPlusY o0 <= xPlusY p <= xPlusY o2 /\ yMinusX o1 <= yMinusX p <= yMinusX o3.
Proof.
  intros cv std_sort bgr Hpool Hsmall.
  rewrite (detectDocument_found std_sort bgr Hpool).
  pose proof (orderPoints_incl (mappedQuad std_sort bgr)) as Hincl.
  destruct (orderPoints_slots _ Hsmall) as (i0 & i1 & i2 & i3 & H0 & H1 & H2 & H3 & E).
  rewrite E in Hincl |- *.
  do 4 eexists. split; [reflexivity | split; [exact Hincl |]].
  intros p [Hp | Hp]; [| apply Hincl in Hp].
  all: repeat split;
    first [ now apply firstArgMin_le | now apply firstArgMax_ge ].
Qed.

Lemma detectDocument_corner_order_witness :
  exists o0 o1 o2 o3,
    detectDocument (cv := Ref.cv) Ref.sort Ref.scene = [o0; o1; o2; o3]
    /\ incl [o0; o1; o2; o3] (corners (mappedQuad (cv := Ref.cv) Ref.sort Ref.scene))
    /\ forall p, In p (corners (mappedQuad (cv := Ref.cv) Ref.sort Ref.scene))
                 \/ In p [o0; o1; o2; o3] ->
         xPlusY o0 <= xPlusY p <= xPlusY o2 /\ yMinusX o1 <= yMinusX p <= yMinusX o3.
Proof.
  apply (detectDocument_corner_order Ref.cv Ref.sort Ref.scene).
  - vm_compute. discriminate.
  - assert (E : corners (mappedQuad (cv := Ref.cv) Ref.sort Ref.scene) = Ref.smallDiamond)
      by (vm_compute; reflexivity).
    rewrite E. repeat constructor; cbn; lia.
Defined.

(** C7: when the larger side of the input exceeds 600, the working image
    is the input resized by [scale = 600 / max(rows, cols)] with
    [INTER_AREA]; otherwise it is a copy of the input and [scale = 1.0].
    The corners of the selected quad are mapped back by dividing each
    coordinate by [scale] and rounding: [(int)std::round(q)] is the integer
    nearest to the quotient [q = ±m * 2^e], halfway cases away from zero. *)
Theorem working_image_and_scale_back :
  forall (cv : OpenCV) (std_sort : sort_fn) (bgr : Mat),
    let larger := Z.max (rows bgr) (cols bgr) in
    let pool := candidatePool std_sort (workingImage bgr) in
    (600 < larger ->
       workingScale bgr = (F64.of_int 600 / F64.of_int larger)%f64
       /\ workingImage bgr = resize bgr (workingScale bgr) (workingScale bgr) INTER_AREA)
    /\ (larger <= 600 ->
          workingScale bgr = F64.of_int 1 /\ workingImage bgr = clone bgr)
    /\ (pool <> [] ->
          detectDocument std_sort bgr
          = orderPoints (map (scaleBack (workingScale bgr))
                             (selectedQuad std_sort (workingArea (workingImage bgr)) pool)))
    /\ (forall (scale : F64.t) (pt : Point),
          px (scaleBack scale pt) = F64.to_int (F64.round (F64.of_int (px pt) / scale)%f64)
          /\ py (scaleBack scale pt) = F64.to_int (F64.round (F64.of_int (py pt) / scale)%f64))
    /\ (forall (s : bool) (m : positive) (e : Z),
          IEEE.nearest_away m e < 2147483648 ->
          F64.to_int (F64.round (S754_finite s m e)) = cond_Zopp s (IEEE.nearest_away m e)
          /\ (0 <= e -> IEEE.nearest_away m e = Zpos m * 2 ^ e)
          /\ (e < 0 -> 2 * Z.abs (IEEE.nearest_away m e * 2 ^ (- e) - Zpos m) <= 2 ^ (- e))).
Proof.
  intros cv std_sort bgr larger pool.
  split; [| split; [| split; [| split]]].
  - intros Hbig. unfold workingImage, workingScale, TARGET. fold larger.
    replace (600 <? larger) with true by (symmetry; apply Z.ltb_lt; exact Hbig).
    split; reflexivity.
  - intros Hsmall. unfold workingImage, workingScale, TARGET. fold larger.
    replace (600 <? larger) with false by (symmetry; apply Z.ltb_ge; exact Hsmall).
    split; reflexivity.
  - intros Hpool. apply (detectDocument_found std_sort bgr Hpool).
  - intros scale pt. split; reflexivity.
  - intros s m e Hfit. split; [apply to_int_round; exact Hfit | apply nearest_away_spec].
Qed.

(** Scaling back by 1.0 leaves a corner where it is; by 0.5 it doubles
    the coordinates; a quotient of 2.5 rounds to 3. *)
Example scaleBack_examples :
  scaleBack F64.one (mkPoint 37 99) = mkPoint 37 99
  /\ scaleBack F64.c_0_5 (mkPoint 37 99) = mkPoint 74 198
  /\ F64.to_int (F64.round (F64.of_int 5 / F64.of_int 2)%f64) = 3
  /\ F64.to_int (F64.round (F64.of_int (-5) / F64.of_int 2)%f64) = -3
  /\ F64.to_int (F64.round (F64.of_int 7 / F64.of_int 3)%f64) = 2.
Proof. vm_compute. repeat split; reflexivity. Qed.

(** C10: [orderPoints] fills each of the 4 slots on its own, with the
    first corner that has the least x+y, the least y-x, the greatest x+y and
    the greatest y-x.  Every point of the result is therefore a corner of
    the argument, but the result need not be a rearrangement of it: the
    square standing on a corner passes validation, its top and left corners
    tie for the least x+y, and the result has the top corner twice and the
    left corner not at all. *)
Theorem orderPoints_slots_independent :
  (forall pts : list Point,
     Forall small_coord (corners pts) ->
     exists i0 i1 i2 i3,
       firstArgMin xPlusY (corners pts) i0 /\ firstArgMin yMinusX (corners pts) i1
       /\ firstArgMax xPlusY (corners pts) i2 /\ firstArgMax yMinusX (corners pts) i3
       /\ orderPoints pts = [nth i0 (corners pts) origin; nth i1 (corners pts) origin;
                             nth i2 (corners pts) origin; nth i3 (corners pts) origin])
  /\ (forall pts : list Point, incl (orderPoints pts) (corners pts))
  /\ (exists top right bottom left : Point,
        NoDup [top; right; bottom; left]
        /\ isGoodQuad (cv := Ref.cv) [top; right; bottom; left] (F64.of_int 40000) 200 200
           = true
        /\ isContourConvex (OpenCV := Ref.cv) [top; right; bottom; left] = true
        /\ xPlusY top = xPlusY left
        /\ orderPoints [top; right; bottom; left] = [top; top; right; bottom]
        /\ ~ In left (orderPoints [top; right; bottom; left])
        /\ ~ Permutation [top; right; bottom; left]
                         (orderPoints [top; right; bottom; left])).
Proof.
  split; [exact orderPoints_slots | split; [exact orderPoints_incl |]].
  exists (mkPoint 100 50), (mkPoint 150 100), (mkPoint 100 150), (mkPoint 50 100).
  assert (Hnotin : ~ In (mkPoint 50 100)
                     (orderPoints [mkPoint 100 50; mkPoint 150 100;
                                   mkPoint 100 150; mkPoint 50 100])).
  { vm_compute. intros [H | [H | [H | [H | []]]]]; discriminate H. }
  split; [| split; [| split; [| split; [| split; [| split]]]]].
  - repeat constructor; cbn; intuition discriminate.
  - vm_compute. reflexivity.
  - vm_compute. reflexivity.
  - reflexivity.
  - vm_compute. reflexivity.
  - exact Hnotin.
  - intros Hperm. apply Hnotin. apply (Permutation_in _ Hperm). cbn. auto.
Qed.

(* ================================================================== *)
(** * Further properties of the code *)

(** ** The size and the make-up of the candidate pool *)

Lemma appendsAtMost_compose (n m : nat) (F G : list Candidate -> list Candidate) :
  appendsAtMost n F -> appendsAtMost m G -> appendsAtMost (n + m) (fun pool => G (F pool)).
Proof.
  intros HF HG pool.
  destruct (HF pool) as (nf & Ef & Lf). destruct (HG (F pool)) as (ng & Eg & Lg).
  exists (nf ++ ng). split.
  - rewrite Eg, Ef, app_assoc. reflexivity.
  - rewrite length_app. lia.
Qed.

Lemma appendsAtMost_weaken (n m : nat) (F : list Candidate -> list Candidate) :
  (n <= m)%nat -> appendsAtMost n F -> appendsAtMost m F.
Proof.
  intros Hnm HF pool. destruct (HF pool) as (new & E & L).
  exists new. split; [exact E | lia].
Qed.

Lemma appendsAtMost_fold {X : Type} (k : nat)
      (step : list Candidate -> X -> list Candidate) (l : list X) :
  (forall x, appendsAtMost k (fun pool => step pool x)) ->
  appendsAtMost (length l * k) (fun pool => fold_left step l pool).
Proof.
  intros Hstep. induction l as [|x tl IH]; cbn [fold_left length].
  - intros pool. exists []. split; [symmetry; apply app_nil_r | cbn; lia].
  - apply (appendsAtMost_weaken (k + length tl * k)); [lia |].
    apply (appendsAtMost_compose k (length tl * k)
             (fun pool => step pool x) (fun pool => fold_left step tl pool));
      [apply Hstep | exact IH].
Qed.

Lemma upto_length (n : Z) : length (upto n) = Z.to_nat n.
Proof. unfold upto. rewrite length_map, length_seq. reflexivity. Qed.

(** A loop over the indices below [min(size, n)] reads the first [n]
    elements, in order. *)
Lemma fold_left_nth_firstn {A B : Type} (f : B -> A -> B) (d : A) (l : list A) :
  forall (n : nat) (acc : B),
    fold_left (fun acc i => f acc (nth i l d)) (seq 0 (Nat.min (length l) n)) acc
    = fold_left f (firstn n l) acc.
Proof.
  induction l as [|x tl IH]; intros n acc.
  - destruct n; reflexivity.
  - destruct n as [|n]; [rewrite Nat.min_0_r; reflexivity |].
    cbn [length firstn fold_left]. rewrite <- Nat.succ_min_distr.
    cbn [seq fold_left nth]. rewrite <- seq_shift, <- IH.
    generalize (seq 0 (Nat.min (length tl) n)) (f acc x).
    intros s. induction s as [|i s IHs]; intros b; [reflexivity |].
    cbn [map fold_left nth]. apply IHs.
Qed.

Section PoolSize.
Context {cv : OpenCV}.
Variable std_sort : sort_fn.
Variables (imgArea : F64.t) (gradMag : Mat).

Lemma tryContour_atMost (clean : Mat) (contour : list Point) (eps : F64.t) :
  appendsAtMost 1 (tryContour clean imgArea gradMag contour eps).
Proof.
  intros pool. unfold tryContour.
  destruct (_ && _).
  - eexists. split; [reflexivity | cbn; lia].
  - exists []. split; [symmetry; apply app_nil_r | cbn; lia].
Qed.

Lemma collectQuads_atMost (edges : Mat) :
  appendsAtMost (2 * Nat.min (length (sortedContours std_sort (cleanBorders edges))) 20)
                (collectQuads std_sort edges imgArea gradMag).
Proof.
  unfold collectQuads.
  set (limit := Nat.min (length (sortedContours std_sort (cleanBorders edges))) 20).
  apply (appendsAtMost_weaken (length [F64.c_0_02; F64.c_0_04] * limit));
    [cbn [length]; lia |].
  apply appendsAtMost_fold. intros eps.
  apply (appendsAtMost_weaken (length (seq 0 limit) * 1));
    [rewrite length_seq; lia |].
  apply appendsAtMost_fold. intros i. apply tryContour_atMost.
Qed.

Lemma collectQuads_atMost_40 (edges : Mat) :
  appendsAtMost 40 (collectQuads std_sort edges imgArea gradMag).
Proof.
  apply (appendsAtMost_weaken
           (2 * Nat.min (length (sortedContours std_sort (cleanBorders edges))) 20));
    [lia | apply collectQuads_atMost].
Qed.

(** [collectQuads] as a loop over the first 20 contours themselves. *)
Lemma collectQuads_firstn (edges : Mat) (pool : list Candidate) :
  collectQuads std_sort edges imgArea gradMag pool
  = fold_left (fun candidates eps =>
      fold_left (fun candidates contour =>
        tryContour (cleanBorders edges) imgArea gradMag contour eps candidates)
        (firstn 20 (sortedContours std_sort (cleanBorders edges))) candidates)
      [F64.c_0_02; F64.c_0_04] pool.
Proof.
  unfold collectQuads. cbn [fold_left].
  rewrite !(fold_left_nth_firstn
              (fun candidates contour =>
                 tryContour (cleanBorders edges) imgArea gradMag contour _ candidates)).
  reflexivity.
Qed.

Lemma tryContour_dims (clean1 clean2 : Mat) (contour : list Point) (eps : F64.t)
      (pool : list Candidate) :
  cols clean1 = cols clean2 -> rows clean1 = rows clean2 ->
  tryContour clean1 imgArea gradMag contour eps pool
  = tryContour clean2 imgArea gradMag contour eps pool.
Proof. intros Hc Hr. unfold tryContour. rewrite Hc, Hr. reflexivity. Qed.

Lemma findSquaresMultiChannel_atMost (img : Mat) :
  appendsAtMost
    (Z.to_nat (channels (pyrUp (pyrDown img (Z.quot (cols img) 2, Z.quot (rows img) 2))
                               (cols img, rows img))) * 280)
    (findSquaresMultiChannel std_sort img imgArea gradMag).
Proof.
  unfold findSquaresMultiChannel. rewrite <- upto_length.
  apply appendsAtMost_fold. intros c.
  apply (appendsAtMost_compose 40 (length [1; 2; 3; 4; 5; 6] * 40)
           (collectQuads std_sort _ imgArea gradMag)
           (fun pool => fold_left _ _ pool)).
  - apply collectQuads_atMost_40.
  - apply appendsAtMost_fold. intros l. apply collectQuads_atMost_40.
Qed.

Lemma findByMorphGradient_atMost (img : Mat) :
  appendsAtMost 80 (findByMorphGradient std_sort img imgArea gradMag).
Proof.
  unfold findByMorphGradient.
  apply (appendsAtMost_fold 40 _ [3; 5]). intros k. apply collectQuads_atMost_40.
Qed.

Lemma findBySaturation_atMost (img : Mat) :
  appendsAtMost 80 (findBySaturation std_sort img imgArea gradMag).
Proof.
  unfold findBySaturation.
  apply (appendsAtMost_fold 40 _ [_; _]). intros t. apply collectQuads_atMost_40.
Qed.

Lemma findByColorDistance_atMost (img : Mat) :
  appendsAtMost 40 (findByColorDistance std_sort img imgArea gradMag).
Proof. unfold findByColorDistance. apply collectQuads_atMost_40. Qed.

Lemma findByLabEdges_atMost (img : Mat) :
  appendsAtMost 120 (findByLabEdges std_sort img imgArea gradMag).
Proof.
  unfold findByLabEdges.
  apply (appendsAtMost_fold 40 _ [10; 25; 45]). intros lo. apply collectQuads_atMost_40.
Qed.

Lemma findByCLAHECanny_atMost (img : Mat) :
  appendsAtMost 120 (findByCLAHECanny std_sort img imgArea gradMag).
Proof.
  unfold findByCLAHECanny.
  apply (appendsAtMost_fold 40 _ [20; 40; 70]). intros lo. apply collectQuads_atMost_40.
Qed.
End PoolSize.

(** X1: one call of [collectQuads] leaves the candidates that are in the
    vector where they are and appends at most two candidates for each of
    the contours it looks at, one for each tolerance; it looks at no more
    than 20 contours, so it appends at most 40 candidates. *)
Theorem collectQuads_appends_at_most_40 :
  forall (cv : OpenCV) (std_sort : sort_fn) (edges : Mat) (imgArea : F64.t)
         (gradMag : Mat) (pool : list Candidate),
    exists new,
      collectQuads std_sort edges imgArea gradMag pool = pool ++ new
      /\ (length new
          <= 2 * Nat.min (length (sortedContours std_sort (cleanBorders edges))) 20)%nat
      /\ (length new <= 40)%nat.
Proof.
  intros cv std_sort edges imgArea gradMag pool.
  destruct (collectQuads_atMost std_sort imgArea gradMag edges pool) as (new & E & L).
  exists new. split; [exact E |]. split; [exact L |].
  eapply Nat.le_trans; [exact L |].
  pose proof (Nat.le_min_r (length (sortedContours std_sort (cleanBorders edges))) 20).
  lia.
Qed.

(** X2: [collectQuads] looks at the first 20 contours of the sorted list
    and at the size of the mask, and at nothing else of the mask: two masks
    of the same size whose sorted contour lists agree on the first 20
    entries give the same candidates, whatever contours follow. *)
Theorem collectQuads_reads_first_20_contours :
  forall (cv : OpenCV) (std_sort : sort_fn) (edges1 edges2 : Mat) (imgArea : F64.t)
         (gradMag : Mat) (pool : list Candidate),
    cols (cleanBorders edges1) = cols (cleanBorders edges2) ->
    rows (cleanBorders edges1) = rows (cleanBorders edges2) ->
    firstn 20 (sortedContours std_sort (cleanBorders edges1))
    = firstn 20 (sortedContours std_sort (cleanBorders edges2)) ->
    collectQuads std_sort edges1 imgArea gradMag pool
    = collectQuads std_sort edges2 imgArea gradMag pool.
Proof.
  intros cv std_sort edges1 edges2 imgArea gradMag pool Hc Hr Htop.
  rewrite !collectQuads_firstn, Htop.
  generalize (firstn 20 (sortedContours std_sort (cleanBorders edges2))).
  intros top. cbn [fold_left].
  assert (Hinner : forall eps acc,
            fold_left (fun candidates contour =>
              tryContour (cleanBorders edges1) imgArea gradMag contour eps candidates)
              top acc
            = fold_left (fun candidates contour =>
              tryContour (cleanBorders edges2) imgArea gradMag contour eps candidates)
              top acc).
  { intros eps. induction top as [|c tl IH]; intros acc; [reflexivity |].
    cbn [fold_left]. rewrite (tryContour_dims imgArea gradMag _ _ c eps acc Hc Hr).
    apply IH. }
  rewrite !Hinner. reflexivity.
Qed.

Lemma collectQuads_reads_first_20_contours_witness :
  length (Ref.r_contours (Ref.crowdedMask Ref.speckA)) = 21%nat
  /\ Ref.crowdedMask Ref.speckA <> Ref.crowdedMask Ref.speckB
  /\ collectQuads (cv := Ref.cv) Ref.sort (Ref.crowdedMask Ref.speckA)
                  (F64.of_int 1600) Ref.scene []
     = collectQuads (cv := Ref.cv) Ref.sort (Ref.crowdedMask Ref.speckB)
                    (F64.of_int 1600) Ref.scene [].
Proof.
  split; [reflexivity |]. split; [discriminate |].
  apply (collectQuads_reads_first_20_contours Ref.cv Ref.sort);
    vm_compute; reflexivity.
Defined.

(** X3: the pool that the six strategies leave holds at most 440
    candidates plus 280 for each colour channel of the smoothed image: every
    strategy passes a fixed number of masks to [collectQuads] (7 for each
    channel, then 2, 2, 1, 3 and 3), and each mask gives at most 40. *)
Theorem candidatePool_size_bound :
  forall (cv : OpenCV) (std_sort : sort_fn) (small : Mat),
    let filtered := pyrUp (pyrDown small (Z.quot (cols small) 2, Z.quot (rows small) 2))
                          (cols small, rows small) in
    (length (candidatePool std_sort small)
     <= Z.to_nat (channels filtered) * 280 + 440)%nat
    /\ (channels filtered = 3 -> (length (candidatePool std_sort small) <= 1280)%nat).
Proof.
  intros cv std_sort small filtered.
  set (a := workingArea small). set (g := gradientMagnitude small).
  assert (Hpool : appendsAtMost (Z.to_nat (channels filtered) * 280 + 80 + 80 + 40 + 120 + 120)
                                (runStrategies std_sort small a g)).
  { unfold runStrategies.
    pose proof (findSquaresMultiChannel_atMost std_sort a g small) as H1.
    pose proof (appendsAtMost_compose _ _ _ _ H1 (findByMorphGradient_atMost std_sort a g small))
      as H2.
    pose proof (appendsAtMost_compose _ _ _ _ H2 (findBySaturation_atMost std_sort a g small))
      as H3.
    pose proof (appendsAtMost_compose _ _ _ _ H3 (findByColorDistance_atMost std_sort a g small))
      as H4.
    pose proof (appendsAtMost_compose _ _ _ _ H4 (findByLabEdges_atMost std_sort a g small))
      as H5.
    exact (appendsAtMost_compose _ _ _ _ H5 (findByCLAHECanny_atMost std_sort a g small)). }
  assert (Hlen : (length (candidatePool std_sort small)
                  <= Z.to_nat (channels filtered) * 280 + 440)%nat).
  { unfold candidatePool. fold a g. destruct (Hpool []) as (new & E & L).
    rewrite E. cbn [app]. lia. }
  split; [exact Hlen |].
  intros H3. rewrite H3 in Hlen. change (Z.to_nat 3) with 3%nat in Hlen. lia.
Qed.

(** X4: the strategies do not interfere: the pool is what the six
    strategies find each on its own, started on an empty vector, put one
    after the other in the order in which they run. *)
Theorem candidatePool_is_concatenation :
  forall (cv : OpenCV) (std_sort : sort_fn) (small : Mat),
    let a := workingArea small in
    let g := gradientMagnitude small in
    candidatePool std_sort small
    = findSquaresMultiChannel std_sort small a g []
      ++ findByMorphGradient std_sort small a g []
      ++ findBySaturation std_sort small a g []
      ++ findByColorDistance std_sort small a g []
      ++ findByLabEdges std_sort small a g []
      ++ findByCLAHECanny std_sort small a g [].
Proof.
  intros cv std_sort small a g. unfold candidatePool, runStrategies. fold a g.
  rewrite (appendsOnly_frame _ _ (findByCLAHECanny_appends std_sort a g small)).
  rewrite (appendsOnly_frame _ _ (findByLabEdges_appends std_sort a g small)).
  rewrite (appendsOnly_frame _ _ (findByColorDistance_appends std_sort a g small)).
  rewrite (appendsOnly_frame _ _ (findBySaturation_appends std_sort a g small)).
  rewrite (appendsOnly_frame _ _ (findByMorphGradient_appends std_sort a g small)).
  rewrite <- !app_assoc. reflexivity.
Qed.

(* ------------------------------------------------------------------ *)
(** ** The corner order is canonical *)

Lemma Point_eq_dec (p q : Point) : {p = q} + {p <> q}.
Proof. decide equality; apply Z.eq_dec. Qed.

Lemma firstArgMin_onlyMin (key : Point -> Z) (l : list Point) (i : nat) (p : Point) :
  firstArgMin key l i -> onlyMin key l p -> nth i l origin = p.
Proof.
  intros (Hi & Hle & _) (Hin & Hlt).
  destruct (Point_eq_dec (nth i l origin) p) as [E | N]; [exact E | exfalso].
  pose proof (Hle p Hin). pose proof (Hlt (nth i l origin) (nth_In l origin Hi) N). lia.
Qed.

Lemma firstArgMax_onlyMax (key : Point -> Z) (l : list Point) (i : nat) (p : Point) :
  firstArgMax key l i -> onlyMax key l p -> nth i l origin = p.
Proof.
  intros (Hi & Hle & _) (Hin & Hlt).
  destruct (Point_eq_dec (nth i l origin) p) as [E | N]; [exact E | exfalso].
  pose proof (Hle p Hin). pose proof (Hlt (nth i l origin) (nth_In l origin Hi) N). lia.
Qed.

Lemma orderPoints_extremes (pts : list Point) (tl tr br bl : Point) :
  length pts = 4%nat -> Forall small_coord pts ->
  onlyMin xPlusY pts tl -> onlyMin yMinusX pts tr ->
  onlyMax xPlusY pts br -> onlyMax yMinusX pts bl ->
  orderPoints pts = [tl; tr; br; bl].
Proof.
  intros Hlen Hsmall Htl Htr Hbr Hbl.
  pose proof (corners_of_quad pts Hlen) as Hc.
  destruct (orderPoints_slots pts) as (i0 & i1 & i2 & i3 & H0 & H1 & H2 & H3 & E).
  { rewrite Hc. exact Hsmall. }
  rewrite Hc in *. rewrite E.
  rewrite (firstArgMin_onlyMin _ _ _ _ H0 Htl), (firstArgMin_onlyMin _ _ _ _ H1 Htr),
          (firstArgMax_onlyMax _ _ _ _ H2 Hbr), (firstArgMax_onlyMax _ _ _ _ H3 Hbl).
  reflexivity.
Qed.

Lemma onlyMin_perm (key : Point -> Z) (l l' : list Point) (p : Point) :
  Permutation l l' -> onlyMin key l p -> onlyMin key l' p.
Proof.
  intros HP (Hin & Hlt). split.
  - apply (Permutation_in _ HP Hin).
  - intros q Hq. apply Hlt. apply (Permutation_in _ (Permutation_sym HP) Hq).
Qed.

Lemma onlyMax_perm (key : Point -> Z) (l l' : list Point) (p : Point) :
  Permutation l l' -> onlyMax key l p -> onlyMax key l' p.
Proof.
  intros HP (Hin & Hlt). split.
  - apply (Permutation_in _ HP Hin).
  - intros q Hq. apply Hlt. apply (Permutation_in _ (Permutation_sym HP) Hq).
Qed.

Ltac rect_corner :=
  match goal with
  | H : In _ (rectangle _ _ _ _) |- _ =>
      unfold rectangle in H; cbn [In] in H;
      destruct H as [<- | [<- | [<- | [<- | []]]]]
  end.

Lemma rectangle_extremes (x0 y0 x1 y1 : Z) :
  x0 < x1 -> y0 < y1 ->
  let r := rectangle x0 y0 x1 y1 in
  onlyMin xPlusY r (mkPoint x0 y0) /\ onlyMin yMinusX r (mkPoint x1 y0)
  /\ onlyMax xPlusY r (mkPoint x1 y1) /\ onlyMax yMinusX r (mkPoint x0 y1).
Proof.
  intros Hx Hy r. unfold r.
  repeat split;
    try (unfold rectangle; cbn [In]; tauto);
    intros q Hq Hne; rect_corner;
    unfold xPlusY, yMinusX; cbn [px py]; try lia; congruence.
Qed.

(** X5: when each of the four extremes is taken at one corner only,
    [orderPoints] returns these four corners, and the order of the points
    in its argument makes no difference.  (The sums and differences are
    [int]s: the coordinates have to be below 2^30 in absolute value.) *)
Theorem orderPoints_canonical :
  forall (pts : list Point) (tl tr br bl : Point),
    length pts = 4%nat -> Forall small_coord pts ->
    onlyMin xPlusY pts tl -> onlyMin yMinusX pts tr ->
    onlyMax xPlusY pts br -> onlyMax yMinusX pts bl ->
    orderPoints pts = [tl; tr; br; bl]
    /\ forall pts', Permutation pts pts' -> orderPoints pts' = orderPoints pts.
Proof.
  intros pts tl tr br bl Hlen Hsmall Htl Htr Hbr Hbl.
  pose proof (orderPoints_extremes pts tl tr br bl Hlen Hsmall Htl Htr Hbr Hbl) as E.
  split; [exact E |].
  intros pts' HP. rewrite E.
  apply orderPoints_extremes.
  - rewrite <- (Permutation_length HP). exact Hlen.
  - apply (Permutation_Forall HP Hsmall).
  - apply (onlyMin_perm _ _ _ _ HP Htl).
  - apply (onlyMin_perm _ _ _ _ HP Htr).
  - apply (onlyMax_perm _ _ _ _ HP Hbr).
  - apply (onlyMax_perm _ _ _ _ HP Hbl).
Qed.

Lemma orderPoints_canonical_witness :
  orderPoints [mkPoint 90 10; mkPoint 5 80; mkPoint 100 95; mkPoint 10 20]
  = [mkPoint 10 20; mkPoint 90 10; mkPoint 100 95; mkPoint 5 80].
Proof.
  refine (proj1 (orderPoints_canonical
                   [mkPoint 90 10; mkPoint 5 80; mkPoint 100 95; mkPoint 10 20]
                   (mkPoint 10 20) (mkPoint 90 10) (mkPoint 100 95) (mkPoint 5 80)
                   _ _ _ _ _ _)).
  - reflexivity.
  - repeat constructor; cbn; lia.
  - split; [cbn; tauto |].
    intros q [<- | [<- | [<- | [<- | []]]]] Hne; cbn; try lia; congruence.
  - split; [cbn; tauto |].
    intros q [<- | [<- | [<- | [<- | []]]]] Hne; cbn; try lia; congruence.
  - split; [cbn; tauto |].
    intros q [<- | [<- | [<- | [<- | []]]]] Hne; cbn; try lia; congruence.
  - split; [cbn; tauto |].
    intros q [<- | [<- | [<- | [<- | []]]]] Hne; cbn; try lia; congruence.
Defined.

(** X6: the corners of an upright rectangle, given in any order, come
    back as top-left, top-right, bottom-right, bottom-left. *)
Theorem orderPoints_rectangle :
  forall (x0 y0 x1 y1 : Z) (pts : list Point),
    x0 < x1 -> y0 < y1 ->
    -1073741824 <= x0 -> x1 < 1073741824 -> -1073741824 <= y0 -> y1 < 1073741824 ->
    Permutation (rectangle x0 y0 x1 y1) pts ->
    orderPoints pts = rectangle x0 y0 x1 y1.
Proof.
  intros x0 y0 x1 y1 pts Hx Hy Hx0 Hx1 Hy0 Hy1 HP.
  destruct (rectangle_extremes x0 y0 x1 y1 Hx Hy) as (Htl & Htr & Hbr & Hbl).
  unfold rectangle at 1.
  apply orderPoints_extremes.
  - rewrite <- (Permutation_length HP). reflexivity.
  - apply (Permutation_Forall HP).
    unfold rectangle. repeat constructor; cbn [px py]; lia.
  - apply (onlyMin_perm _ _ _ _ HP Htl).
  - apply (onlyMin_perm _ _ _ _ HP Htr).
  - apply (onlyMax_perm _ _ _ _ HP Hbr).
  - apply (onlyMax_perm _ _ _ _ HP Hbl).
Qed.

Lemma orderPoints_rectangle_witness :
  orderPoints [mkPoint 170 130; mkPoint 30 130; mkPoint 30 40; mkPoint 170 40]
  = [mkPoint 30 40; mkPoint 170 40; mkPoint 170 130; mkPoint 30 130].
Proof.
  apply (orderPoints_rectangle 30 40 170 130); try lia.
  unfold rectangle.
  apply (perm_trans (l' := [mkPoint 170 130; mkPoint 30 40; mkPoint 170 40; mkPoint 30 130])).
  - apply (perm_trans (l' := [mkPoint 30 40; mkPoint 170 130; mkPoint 170 40; mkPoint 30 130])).
    + apply perm_skip. apply perm_swap.
    + apply perm_swap.
  - apply perm_skip.
    apply (perm_trans (l' := [mkPoint 30 40; mkPoint 30 130; mkPoint 170 40])).
    + apply perm_skip. apply perm_swap.
    + apply (perm_trans (l' := [mkPoint 30 130; mkPoint 30 40; mkPoint 170 40])).
      * apply perm_swap.
      * apply perm_skip. apply Permutation_refl.
Defined.

(* ------------------------------------------------------------------ *)
(** ** Symmetries of the angle cosine *)

Section FloatSymmetry.
Variables prec emax : Z.

Lemma SFmul_comm (x y : spec_float) : SFmul prec emax x y = SFmul prec emax y x.
Proof.
  destruct x as [sx | sx | | sx mx ex], y as [sy | sy | | sy my ey]; unfold SFmul;
    rewrite ?(xorb_comm sx sy); try reflexivity.
  rewrite (Pos.mul_comm mx my), (Z.add_comm ex ey). reflexivity.
Qed.

Lemma binary_round_aux_opp (s : bool) (m e : Z) (l : location) :
  binary_round_aux prec emax (negb s) m e l = SFopp (binary_round_aux prec emax s m e l).
Proof.
  unfold binary_round_aux.
  destruct (shr_fexp prec emax m e l) as [mrs' e'].
  destruct (shr_fexp prec emax _ e' loc_Exact) as [mrs'' e''].
  destruct (shr_m mrs'') as [|p|p]; try reflexivity.
  destruct (e'' <=? emax - prec); reflexivity.
Qed.

Lemma binary_round_opp (s : bool) (p : positive) (e : Z) :
  binary_round prec emax (negb s) p e = SFopp (binary_round prec emax s p e).
Proof.
  unfold binary_round. destruct (shl_align p e _) as [mz ez]. apply binary_round_aux_opp.
Qed.

Lemma of_Z_opp (z : Z) :
  z <> 0 -> IEEE.of_Z prec emax (- z) = SFopp (IEEE.of_Z prec emax z).
Proof.
  intros Hz. unfold IEEE.of_Z, binary_normalize.
  destruct z as [|p|p]; [congruence | |]; cbn [Z.opp].
  - apply (binary_round_opp false).
  - apply (binary_round_opp true).
Qed.

Lemma SFmul_opp_opp (x y : spec_float) :
  SFmul prec emax (SFopp x) (SFopp y) = SFmul prec emax x y.
Proof.
  destruct x as [sx | sx | | sx mx ex], y as [sy | sy | | sy my ey]; unfold SFmul, SFopp;
    rewrite ?xorb_negb_negb; reflexivity.
Qed.

Lemma SFmul_zero_opp (x y : spec_float) :
  IEEE.is_zero x = true ->
  sameOrZeros (SFmul prec emax x (SFopp y)) (SFmul prec emax x y)
  /\ sameOrZeros (SFmul prec emax (SFopp y) x) (SFmul prec emax y x).
Proof.
  destruct x as [sx | sx | | sx mx ex]; try discriminate. intros _.
  destruct y as [sy | sy | | sy my ey]; unfold SFmul, SFopp, sameOrZeros;
    split; (try (left; reflexivity)); right; split; reflexivity.
Qed.

(** The product of two converted integers and the product of their
    negatives. *)
Lemma of_Z_mul_opp (a b : Z) :
  sameOrZeros (SFmul prec emax (IEEE.of_Z prec emax (- a)) (IEEE.of_Z prec emax (- b)))
              (SFmul prec emax (IEEE.of_Z prec emax a) (IEEE.of_Z prec emax b)).
Proof.
  destruct (Z.eq_dec a 0) as [-> | Ha]; [| destruct (Z.eq_dec b 0) as [-> | Hb]].
  - change (- 0) with 0.
    destruct (Z.eq_dec b 0) as [-> | Hb]; [left; reflexivity |].
    rewrite (of_Z_opp b Hb). apply SFmul_zero_opp. reflexivity.
  - change (- 0) with 0. rewrite (of_Z_opp a Ha). apply SFmul_zero_opp. reflexivity.
  - rewrite (of_Z_opp a Ha), (of_Z_opp b Hb), SFmul_opp_opp. left. reflexivity.
Qed.

Lemma of_Z_sq_opp (a : Z) :
  SFmul prec emax (IEEE.of_Z prec emax (- a)) (IEEE.of_Z prec emax (- a))
  = SFmul prec emax (IEEE.of_Z prec emax a) (IEEE.of_Z prec emax a).
Proof.
  destruct (Z.eq_dec a 0) as [-> | Ha]; [reflexivity |].
  rewrite (of_Z_opp a Ha). apply SFmul_opp_opp.
Qed.

Lemma SFadd_sameOrZeros (a a' b b' : spec_float) :
  sameOrZeros a a' -> sameOrZeros b b' ->
  sameOrZeros (SFadd prec emax a b) (SFadd prec emax a' b').
Proof.
  intros [-> | [Ha Ha']] [-> | [Hb Hb']]; [left; reflexivity | | |].
  - destruct b as [sb | | |]; try discriminate. destruct b' as [sb' | | |]; try discriminate.
    destruct a' as [sa | sa | | sa ma ea]; unfold SFadd, sameOrZeros;
      try (left; reflexivity).
    right. destruct sa, sb, sb'; split; reflexivity.
  - destruct a as [sa | | |]; try discriminate. destruct a' as [sa' | | |]; try discriminate.
    destruct b' as [sb | sb | | sb mb eb]; unfold SFadd, sameOrZeros;
      try (left; reflexivity).
    right. destruct sa, sa', sb; split; reflexivity.
  - destruct a as [sa | | |]; try discriminate. destruct a' as [sa' | | |]; try discriminate.
    destruct b as [sb | | |]; try discriminate. destruct b' as [sb' | | |]; try discriminate.
    right. destruct sa, sa', sb, sb'; split; reflexivity.
Qed.

Lemma SFdiv_sameOrZeros (n n' d : spec_float) :
  sameOrZeros n n' -> sameOrZeros (SFdiv prec emax n d) (SFdiv prec emax n' d).
Proof.
  intros [-> | [Hn Hn']]; [left; reflexivity |].
  destruct n as [sn | | |]; try discriminate. destruct n' as [sn' | | |]; try discriminate.
  destruct d as [sd | sd | | sd md ed]; unfold SFdiv, sameOrZeros;
    try (left; reflexivity); right; split; reflexivity.
Qed.

(** A zero divided by a number gives a zero, unless it gives a NaN. *)
Lemma SFdiv_zero_num (n d : spec_float) :
  IEEE.is_zero n = true -> IEEE.is_nan (SFdiv prec emax n d) = false ->
  IEEE.is_zero (SFdiv prec emax n d) = true.
Proof.
  destruct n as [sn | | |]; try discriminate. intros _.
  destruct d as [sd | sd | | sd md ed]; cbn [SFdiv IEEE.is_nan IEEE.is_zero];
    congruence.
Qed.
End FloatSymmetry.

Lemma SFabs_sameOrZeros (a b : spec_float) : sameOrZeros a b -> SFabs a = SFabs b.
Proof.
  intros [-> | [Ha Hb]]; [reflexivity |].
  destruct a; try discriminate. destruct b; try discriminate. reflexivity.
Qed.

(** The product of zero and a converted [int] is a zero. *)
Lemma mul_zero_of_int (z : Z) :
  IEEE.is_zero (F64.of_int 0 * F64.of_int (CInt.wrap z))%f64 = true
  /\ IEEE.is_zero (F64.of_int (CInt.wrap z) * F64.of_int 0)%f64 = true.
Proof.
  pose proof (wrapped_fin z) as H.
  destruct (F64.of_int (CInt.wrap z)) as [s | s | | s m e]; cbn in H; try contradiction;
    split; reflexivity.
Qed.

Lemma add_zeros (a b : F64.t) :
  IEEE.is_zero a = true -> IEEE.is_zero b = true -> IEEE.is_zero (a + b)%f64 = true.
Proof.
  destruct a as [sa | | |]; try discriminate. destruct b as [sb | | |]; try discriminate.
  intros _ _. destruct sa, sb; reflexivity.
Qed.

Lemma sub_same (x : Z) : CInt.sub x x = 0.
Proof. unfold CInt.sub. rewrite Z.sub_diag. reflexivity. Qed.

(** A corner whose edges run along the two axes. *)
Lemma angleCos_axes (p1 p2 p0 : Point) :
  px p1 = px p0 \/ px p2 = px p0 ->
  py p1 = py p0 \/ py p2 = py p0 ->
  IEEE.is_zero (angleCos p1 p2 p0) = true.
Proof.
  intros Hx Hy.
  pose proof (angleCos_not_nan p1 p2 p0) as Hnan. revert Hnan.
  unfold angleCos. intros Hnan.
  apply (SFdiv_zero_num F64.prec F64.emax); [| exact Hnan].
  apply add_zeros.
  - destruct Hx as [-> | ->]; rewrite sub_same; unfold CInt.sub; apply mul_zero_of_int.
  - destruct Hy as [-> | ->]; rewrite sub_same; unfold CInt.sub; apply mul_zero_of_int.
Qed.

Lemma cornerCos_axes (q : list Point) (j : nat) :
  px (at_pt q (j mod 4)) = px (at_pt q (j - 1)) \/ px (at_pt q (j - 2)) = px (at_pt q (j - 1)) ->
  py (at_pt q (j mod 4)) = py (at_pt q (j - 1)) \/ py (at_pt q (j - 2)) = py (at_pt q (j - 1)) ->
  cornerCos q j = F64.zero.
Proof.
  intros Hx Hy. unfold cornerCos.
  pose proof (angleCos_axes _ _ _ Hx Hy) as Hz.
  destruct (angleCos _ _ _); try discriminate. reflexivity.
Qed.

Lemma small_coord_sub (p q : Point) :
  small_coord p -> small_coord q ->
  CInt.sub (px p) (px q) = px p - px q /\ CInt.sub (py p) (py q) = py p - py q.
Proof.
  intros [Hpx Hpy] [Hqx Hqy]. unfold CInt.sub.
  split; apply wrap_small; unfold CInt.in_range; lia.
Qed.

(** In a parallelogram the cosine at corner 0 is the cosine that the
    angle loop takes at corner 2. *)
Lemma parallelogram_cos (q : list Point) :
  Forall small_coord (corners q) -> parallelogram q ->
  cornerCos0 q = cornerCos q 3.
Proof.
  intros Hsmall [Hpx Hpy].
  assert (Hs : forall i, (i < 4)%nat -> small_coord (at_pt q i)).
  { intros i Hi. rewrite <- corners_nth by exact Hi.
    apply (proj1 (Forall_forall _ _) Hsmall). apply nth_In. rewrite corners_length. exact Hi. }
  pose proof (Hs 0%nat ltac:(lia)) as H0. pose proof (Hs 1%nat ltac:(lia)) as H1.
  pose proof (Hs 2%nat ltac:(lia)) as H2. pose proof (Hs 3%nat ltac:(lia)) as H3.
  unfold cornerCos0, cornerCos.
  change (3 mod 4)%nat with 3%nat. change (3 - 2)%nat with 1%nat. change (3 - 1)%nat with 2%nat.
  unfold angleCos.
  destruct (small_coord_sub _ _ H1 H0) as [-> ->].
  destruct (small_coord_sub _ _ H3 H0) as [-> ->].
  destruct (small_coord_sub _ _ H3 H2) as [-> ->].
  destruct (small_coord_sub _ _ H1 H2) as [-> ->].
  set (a := px (at_pt q 1) - px (at_pt q 0)). set (b := py (at_pt q 1) - py (at_pt q 0)).
  set (c := px (at_pt q 3) - px (at_pt q 0)). set (d := py (at_pt q 3) - py (at_pt q 0)).
  replace (px (at_pt q 3) - px (at_pt q 2)) with (- a) by (unfold a; lia).
  replace (py (at_pt q 3) - py (at_pt q 2)) with (- b) by (unfold b; lia).
  replace (px (at_pt q 1) - px (at_pt q 2)) with (- c) by (unfold c; lia).
  replace (py (at_pt q 1) - py (at_pt q 2)) with (- d) by (unfold d; lia).
  unfold angleCos_den, F64.fabs, F64.of_int, F64.mul.
  rewrite !(of_Z_sq_opp F64.prec F64.emax).
  symmetry. apply SFabs_sameOrZeros.
  apply (SFdiv_sameOrZeros F64.prec F64.emax).
  apply (SFadd_sameOrZeros F64.prec F64.emax); apply of_Z_mul_opp.
Qed.

(** X7: the cosine at a corner does not depend on which of the two
    neighbours is given first. *)
Theorem angleCos_symmetric :
  forall p1 p2 p0 : Point, angleCos p1 p2 p0 = angleCos p2 p1 p0.
Proof.
  intros p1 p2 p0. unfold angleCos, angleCos_den.
  set (dx1 := F64.of_int (CInt.sub (px p1) (px p0))).
  set (dy1 := F64.of_int (CInt.sub (py p1) (py p0))).
  set (dx2 := F64.of_int (CInt.sub (px p2) (px p0))).
  set (dy2 := F64.of_int (CInt.sub (py p2) (py p0))).
  assert (Hc : forall a b : F64.t, (a * b)%f64 = (b * a)%f64).
  { intros a b. apply SFmul_comm. }
  rewrite (Hc dx2 dx1), (Hc dy2 dy1).
  rewrite (Hc (dx2 * dx2 + dy2 * dy2)%f64 (dx1 * dx1 + dy1 * dy1)%f64).
  reflexivity.
Qed.

(** X8: in a parallelogram the cosine at corner 0, which the angle loop
    of [isGoodQuad] leaves out, is the same number as the cosine at
    corner 2, which it takes.  So a parallelogram that passes validation has
    an absolute cosine below 0.4 at corner 0 as well. *)
Theorem parallelogram_corner_0_is_covered :
  forall q : list Point,
    Forall small_coord (corners q) -> parallelogram q ->
    cornerCos0 q = cornerCos q 3
    /\ forall (cv : OpenCV) (imgArea : F64.t) (imgW imgH : Z),
         isGoodQuad q imgArea imgW imgH = true ->
         F64.ltb (cornerCos0 q) F64.c_0_4 = true.
Proof.
  intros q Hsmall Hpar.
  pose proof (parallelogram_cos q Hsmall Hpar) as E.
  split; [exact E |].
  intros cv imgArea imgW imgH H. rewrite E.
  unfold isGoodQuad in H.
  destruct (_ || _); [discriminate |].
  destruct (negb _); [discriminate |].
  destruct (3 <=? _); [discriminate |].
  apply (maxCos_below q F64.c_0_4 H). cbn [In]. tauto.
Qed.

Lemma parallelogram_corner_0_is_covered_witness :
  cornerCos0 [mkPoint 40 30; mkPoint 160 50; mkPoint 170 150; mkPoint 50 130]
  = cornerCos [mkPoint 40 30; mkPoint 160 50; mkPoint 170 150; mkPoint 50 130] 3.
Proof.
  refine (proj1 (parallelogram_corner_0_is_covered
                   [mkPoint 40 30; mkPoint 160 50; mkPoint 170 150; mkPoint 50 130] _ _)).
  - repeat constructor; cbn; lia.
  - split; reflexivity.
Defined.

(** X9: the cosine is a zero at a corner that coincides with one of its
    neighbours, and at a corner one edge of which is horizontal and the
    other one vertical, whatever the lengths of the edges. *)
Theorem angleCos_zero_on_axes :
  (forall p p2 : Point, IEEE.is_zero (angleCos p p2 p) = true)
  /\ (forall p p1 : Point, IEEE.is_zero (angleCos p1 p p) = true)
  /\ (forall p1 p2 p0 : Point,
        (px p1 = px p0 /\ py p2 = py p0) \/ (py p1 = py p0 /\ px p2 = px p0) ->
        IEEE.is_zero (angleCos p1 p2 p0) = true).
Proof.
  split; [| split].
  - intros p p2. apply angleCos_axes; left; reflexivity.
  - intros p p1. apply angleCos_axes; right; reflexivity.
  - intros p1 p2 p0 [[Hx Hy] | [Hy Hx]].
    + apply angleCos_axes; [left; exact Hx | right; exact Hy].
    + apply angleCos_axes; [right; exact Hx | left; exact Hy].
Qed.

(** X10: the greatest cosine of an upright rectangle is exactly 0, of
    whatever size the rectangle is, so the angle test of [isGoodQuad]
    passes, and the area, the convexity and the border test decide. *)
Theorem isGoodQuad_rectangle :
  forall x0 y0 x1 y1 : Z,
    maxCos (rectangle x0 y0 x1 y1) = F64.zero
    /\ forall (cv : OpenCV) (imgArea : F64.t) (imgW imgH : Z),
         let r := rectangle x0 y0 x1 y1 in
         isGoodQuad r imgArea imgW imgH
         = negb ((contourArea r <? imgArea * F64.c_0_05)%f64
                 || (contourArea r >? imgArea * F64.c_0_85)%f64)
           && isContourConvex r
           && (borderCount r imgW imgH <? 3).
Proof.
  intros x0 y0 x1 y1.
  assert (Hmax : maxCos (rectangle x0 y0 x1 y1) = F64.zero).
  { rewrite maxCos_fold. cbn [map].
    rewrite !cornerCos_axes; [reflexivity | | | | | |];
      unfold rectangle, at_pt; cbn; tauto. }
  split; [exact Hmax |].
  intros cv imgArea imgW imgH r. subst r. unfold isGoodQuad. rewrite Hmax.
  rewrite (Z.ltb_antisym 3 (borderCount (rectangle x0 y0 x1 y1) imgW imgH)).
  destruct (_ || _); [reflexivity |].
  destruct (isContourConvex _); [| reflexivity].
  destruct (3 <=? _); reflexivity.
Qed.

(* ------------------------------------------------------------------ *)
(** ** Integers in floating point: conversions that lose nothing *)

Section Canonical.
Variables prec emax : Z.
Hypothesis prec_pos : 0 < prec.
Hypothesis prec_le_emax : prec <= emax.
Hypothesis emax_ge_2 : 2 <= emax.

(** The number that an integer of at most [prec] bits converts to: the
    integer shifted to [prec] bits. *)
Lemma binary_round_canonical (s : bool) (p : positive) :
  Zpos (digits2_pos p) <= prec ->
  exists mz, binary_round prec emax s p 0
             = S754_finite s mz (Zpos (digits2_pos p) - prec)
             /\ Zpos mz = Zpos p * 2 ^ (prec - Zpos (digits2_pos p))
             /\ Zpos (digits2_pos mz) = prec.
Proof.
  intros Hd. unfold binary_round.
  set (d := Zpos (digits2_pos p)) in *.
  assert (Hf : SpecFloat.fexp prec emax (d + 0) = d - prec).
  { unfold SpecFloat.fexp, SpecFloat.emin. lia. }
  rewrite Hf.
  pose proof (shl_align_digits p 0 (d - prec)) as Hal. fold d in Hal.
  assert (Hsh : snd (shl_align p 0 (d - prec)) = d - prec
                /\ Zpos (fst (shl_align p 0 (d - prec))) = Zpos p * 2 ^ (prec - d)).
  { unfold shl_align. destruct (d - prec - 0) as [|k|k] eqn:Hk; cbn [fst snd]; try lia.
    - split; [lia |]. replace (prec - d) with 0 by lia. lia.
    - split; [reflexivity |]. fold (shift_pos k p).
      rewrite shift_pos_correct, Z.pow_pos_fold. replace (prec - d) with (Zpos k) by lia. lia. }
  destruct Hsh as [Hez Hmz].
  destruct (shl_align p 0 (d - prec)) as [mz ez]. cbn [fst snd] in Hal, Hez, Hmz. subst ez.
  assert (Hdz : Zpos (digits2_pos mz) = prec) by lia.
  exists mz. split; [| split; assumption].
  unfold binary_round_aux, shr_fexp. cbn [Zdigits2]. rewrite Hdz.
  replace (SpecFloat.fexp prec emax (prec + (d - prec)) - (d - prec)) with 0
    by (unfold SpecFloat.fexp, SpecFloat.emin; lia).
  cbn [shr shr_record_of_loc shr_m loc_of_shr_record round_nearest_even Zdigits2].
  rewrite Hdz.
  replace (SpecFloat.fexp prec emax (prec + (d - prec)) - (d - prec)) with 0
    by (unfold SpecFloat.fexp, SpecFloat.emin; lia).
  cbn [shr shr_record_of_loc shr_m].
  replace (d - prec <=? emax - prec) with true by (symmetry; apply Z.leb_le; lia).
  reflexivity.
Qed.

Lemma digits_le_of_lt (p : positive) (k : Z) :
  0 <= k -> Zpos p < 2 ^ k -> Zpos (digits2_pos p) <= k.
Proof.
  intros Hk Hp. change (Zpos (digits2_pos p)) with (Zdigits2 (Zpos p)).
  apply Zdigits2_le_of_lt; lia.
Qed.

(** A non-zero integer of at most [prec] bits converts to a finite number
    with the sign of the integer. *)
Lemma of_Z_canonical (z : Z) :
  z <> 0 -> Z.abs z < 2 ^ prec ->
  exists mz ez, IEEE.of_Z prec emax z = S754_finite (z <? 0) mz ez
                /\ - prec < ez <= 0
                /\ Zpos mz = Z.abs z * 2 ^ (- ez)
                /\ Zpos (digits2_pos mz) = prec.
Proof.
  intros Hz Habs. unfold IEEE.of_Z, binary_normalize.
  destruct z as [|p|p]; [congruence | |]; cbn [Z.abs] in Habs.
  - pose proof (digits_le_of_lt p prec ltac:(lia) Habs) as Hd.
    destruct (binary_round_canonical false p Hd) as (mz & -> & Hmz & Hdz).
    exists mz, (Zpos (digits2_pos p) - prec).
    split; [reflexivity |]. split; [lia |]. split; [| exact Hdz].
    replace (- (Zpos (digits2_pos p) - prec)) with (prec - Zpos (digits2_pos p)) by lia.
    exact Hmz.
  - pose proof (digits_le_of_lt p prec ltac:(lia) Habs) as Hd.
    destruct (binary_round_canonical true p Hd) as (mz & -> & Hmz & Hdz).
    exists mz, (Zpos (digits2_pos p) - prec).
    split; [reflexivity |]. split; [lia |]. split; [| exact Hdz].
    replace (- (Zpos (digits2_pos p) - prec)) with (prec - Zpos (digits2_pos p)) by lia.
    exact Hmz.
Qed.

(** The integer nearest to a number that is an integer. *)
Lemma nearest_away_exact (mz : positive) (ez n : Z) :
  ez <= 0 -> Zpos mz = n * 2 ^ (- ez) -> IEEE.nearest_away mz ez = n.
Proof.
  intros Hez Hmz. unfold IEEE.nearest_away.
  assert (Hp : 0 < 2 ^ (- ez)) by (apply Z.pow_pos_nonneg; lia).
  destruct (Z.leb_spec 0 ez).
  - replace ez with 0 in * by lia. cbn in Hmz |- *. lia.
  - rewrite Hmz, Z.div_mul, Z.mod_mul by lia.
    destruct (Z.leb_spec (2 ^ (- ez)) (2 * 0)); [lia | reflexivity].
Qed.
End Canonical.

(** Converting an [int] below [2^24] to [float] and back gives the [int]. *)
Lemma F32_to_int_of_int (z : Z) :
  Z.abs z < 16777216 -> F32.to_int (F32.of_int z) = z.
Proof.
  intros Hz. unfold F32.to_int, IEEE.to_int, F32.of_int.
  rewrite (trunc_of_Z F32.prec F32.emax) by (unfold F32.prec, F32.emax; cbn; lia).
  apply wrap_small. unfold CInt.in_range. lia.
Qed.

(** An [int] converts to a [float] that is a zero or finite. *)
Lemma F32_of_int_fin (z : Z) :
  -2147483648 <= z < 2147483648 -> finBound 9 34 (F32.of_int z).
Proof.
  intros Hz. unfold F32.of_int, IEEE.of_Z, binary_normalize.
  assert (Hfin : forall s p, Zpos p <= 2147483648 ->
                             finBound 9 34 (binary_round F32.prec F32.emax s p 0)).
  { intros s p Hp.
    assert (Hd : Zpos (digits2_pos p) <= 32).
    { change (Zpos (digits2_pos p)) with (Zdigits2 (Zpos p)).
      apply Zdigits2_le_of_lt; lia. }
    pose proof (Pos2Z.is_pos (digits2_pos p)).
    apply (binary_round_fin F32.prec F32.emax eq_refl);
      unfold SpecFloat.fexp, SpecFloat.emin, F32.prec, F32.emax; lia. }
  destruct z as [|p|p]; [exact I | apply Hfin; lia | apply Hfin; lia].
Qed.

(** Sample 0 of an edge: the parameter [t] is a zero, and so is the step
    from the first corner. *)
Lemma F32_step_zero (n d : Z) :
  0 < n < 2147483648 ->
  IEEE.is_zero ((F32.of_int 0 / F32.of_int n) * F32.of_int (CInt.wrap d))%f32 = true.
Proof.
  intros Hn.
  pose proof (F32_of_int_fin n ltac:(lia)) as Hfn.
  pose proof (of_Z_nonzero F32.prec F32.emax eq_refl n
                ltac:(unfold SpecFloat.emin, F32.prec, F32.emax; lia) ltac:(lia)) as Hzn.
  pose proof (F32_of_int_fin (CInt.wrap d) (wrap_in_range d)) as Hfd.
  fold (F32.of_int n) in Hzn.
  destruct (F32.of_int n) as [sn | sn | | sn mn en]; cbn in Hfn, Hzn;
    try contradiction; try discriminate.
  destruct (F32.of_int (CInt.wrap d)) as [sd | sd | | sd md ed]; cbn in Hfd;
    try contradiction; reflexivity.
Qed.

Lemma F32_add_zero (z : Z) (w : F32.t) :
  Z.abs z < 16777216 -> IEEE.is_zero w = true ->
  F32.to_int (F32.of_int z + w)%f32 = z.
Proof.
  intros Hz Hw. destruct w as [sw | | |]; try discriminate.
  destruct (Z.eq_dec z 0) as [-> | Hnz].
  - destruct sw; reflexivity.
  - destruct (of_Z_canonical F32.prec F32.emax eq_refl
                ltac:(unfold F32.prec, F32.emax; lia) ltac:(unfold F32.emax; lia)
                z Hnz ltac:(unfold F32.prec; cbn; lia))
      as (mz & ez & E & _).
    rewrite <- (F32_to_int_of_int z Hz) at 2.
    unfold F32.of_int, F32.add. rewrite E. reflexivity.
Qed.

Lemma samplePoint_0 (p1 p2 : Point) (n : Z) :
  0 < n < 2147483648 ->
  Z.abs (px p1) < 16777216 -> Z.abs (py p1) < 16777216 ->
  samplePoint p1 p2 n 0 = (px p1, py p1).
Proof.
  intros Hn Hx Hy. unfold samplePoint, CInt.sub.
  rewrite (F32_add_zero (px p1) _ Hx (F32_step_zero n _ Hn)).
  rewrite (F32_add_zero (py p1) _ Hy (F32_step_zero n _ Hn)).
  reflexivity.
Qed.

(** X11: on every edge the sample with [s = 0] falls on the first corner
    of the edge itself, so each corner of the quad is one of the sample
    points, and each corner that lies inside the gradient map is read.  (The
    coordinates go through [float]: they have to be below 2^24.) *)
Theorem edge_sampling_starts_at_corner :
  forall (cv : OpenCV) (quad : list Point) (gradMag : Mat) (i : nat),
    (i < 4)%nat ->
    Z.abs (px (at_pt quad i)) < 16777216 -> Z.abs (py (at_pt quad i)) < 16777216 ->
    let p := at_pt quad i in
    let p2 := at_pt quad ((i + 1) mod 4) in
    samplePoint p p2 (edgeSamples p p2) 0 = (px p, py p)
    /\ In (px p, py p) (edgeSamplePoints quad)
    /\ (inBounds gradMag (px p) (py p) = true ->
        In (px p, py p) (validSamples quad gradMag)).
Proof.
  intros cv quad gradMag i Hi Hx Hy p p2.
  assert (Hn : 0 < edgeSamples p p2 < 2147483648).
  { pose proof (edgeSamples_ge_10 p p2). split; [lia |].
    unfold edgeSamples, F64.to_int, IEEE.to_int.
    pose proof (wrap_in_range (IEEE.trunc (norm (point_sub p2 p)))) as Hr.
    unfold CInt.in_range in Hr. lia. }
  pose proof (samplePoint_0 p p2 _ Hn Hx Hy) as E0.
  assert (Hin : In (px p, py p) (edgeSamplePoints quad)).
  { unfold edgeSamplePoints. apply in_flat_map. exists i. split.
    - apply in_seq. lia.
    - unfold edgePoints. fold p p2. rewrite <- E0. apply in_map.
      unfold upto. apply in_map_iff. exists 0%nat. split; [reflexivity |].
      apply in_seq. lia. }
  split; [exact E0 |]. split; [exact Hin |].
  intros Hb. unfold validSamples. apply filter_In. split; [exact Hin | exact Hb].
Qed.

Lemma edge_sampling_starts_at_corner_witness :
  In (100, 50) (validSamples (cv := Ref.cv) Ref.diamond (Ref.flatMap 200 200 (F32.of_int 7))).
Proof.
  refine (proj2 (proj2 (edge_sampling_starts_at_corner Ref.cv Ref.diamond
                          (Ref.flatMap 200 200 (F32.of_int 7)) 0 _ _ _)) _).
  - lia.
  - cbn. lia.
  - cbn. lia.
  - reflexivity.
Defined.

(** X12: the array that [quadToJni] fills holds the coordinates of the 4
    corners in the order x0, y0, ..., x3, y3, and converting its floats back
    gives the [int] coordinates as long as these are below 2^24 in absolute
    value; from 2^24 + 1 on a coordinate can come back changed. *)
Theorem quadToJni_round_trip :
  (forall quad : list Point,
     length quad = 4%nat ->
     Forall (fun p => Z.abs (px p) < 16777216 /\ Z.abs (py p) < 16777216) quad ->
     exists arr, quadToJni quad = Some arr
                 /\ map F32.to_int arr = flat_map (fun p => [px p; py p]) quad)
  /\ F32.to_int (F32.of_int 16777217) = 16777216.
Proof.
  split; [| reflexivity].
  intros quad Hlen Hsmall.
  destruct quad as [|a [|b [|c [|d [|e tl]]]]]; try discriminate.
  eexists. split; [reflexivity |].
  inversion Hsmall as [|? ? [Hax Hay] Hs1]; subst.
  inversion Hs1 as [|? ? [Hbx Hby] Hs2]; subst.
  inversion Hs2 as [|? ? [Hcx Hcy] Hs3]; subst.
  inversion Hs3 as [|? ? [Hdx Hdy] _]; subst.
  cbn [seq flat_map app map at_pt nth].
  rewrite !F32_to_int_of_int by assumption. reflexivity.
Qed.

Lemma quadToJni_round_trip_witness :
  exists arr, quadToJni Ref.diamond = Some arr
              /\ map F32.to_int arr = [100; 50; 150; 100; 100; 150; 50; 100].
Proof.
  refine (proj1 quadToJni_round_trip Ref.diamond _ _).
  - reflexivity.
  - repeat constructor; cbn; lia.
Defined.

(* ------------------------------------------------------------------ *)
(** ** The scale and the mapping back *)

(** Dividing a double by 1.0 gives the double. *)
Lemma SFdiv_one (s : bool) (mz : positive) (ez : Z) :
  Zpos (digits2_pos mz) = 53 -> -1000 <= ez <= 900 ->
  (S754_finite s mz ez / F64.one)%f64 = S754_finite s mz ez.
Proof.
  intros Hdz Hez. unfold F64.div, F64.one, SFdiv, SFdiv_core_binary.
  cbn [Zdigits2]. rewrite Hdz.
  change (Zpos (digits2_pos 4503599627370496)) with 53.
  replace (SpecFloat.fexp F64.prec F64.emax (53 + ez - (53 + -52))) with (ez - 1)
    by (unfold SpecFloat.fexp, SpecFloat.emin, F64.prec, F64.emax; lia).
  replace (Z.min (ez - 1) (ez - -52)) with (ez - 1) by lia.
  replace (ez - -52 - (ez - 1)) with 53 by lia.
  rewrite Z.shiftl_mul_pow2 by lia.
  assert (Hdiv : Z.div_eucl (Zpos mz * 2 ^ 53) 4503599627370496 = (Zpos mz~0, 0)).
  { pose proof (Z_div_mod (Zpos mz * 2 ^ 53) 4503599627370496 eq_refl) as H.
    destruct (Z.div_eucl (Zpos mz * 2 ^ 53) 4503599627370496) as [q r].
    change (2 ^ 53) with (4503599627370496 * 2) in H.
    assert (q = Zpos mz~0 /\ r = 0) as [-> ->]; [| reflexivity].
    rewrite Pos2Z.inj_xO. lia. }
  rewrite Hdiv.
  change (new_location 4503599627370496 0) with loc_Exact.
  unfold binary_round_aux, shr_fexp. cbn [Zdigits2 digits2_pos].
  rewrite Pos2Z.inj_succ, Hdz.
  replace (SpecFloat.fexp F64.prec F64.emax (Z.succ 53 + (ez - 1)) - (ez - 1)) with 1
    by (unfold SpecFloat.fexp, SpecFloat.emin, F64.prec, F64.emax; lia).
  cbn [shr shr_record_of_loc iter_pos shr_1 shr_m loc_of_shr_record orb
       round_nearest_even Zdigits2].
  rewrite Hdz.
  replace (ez - 1 + 1) with ez by lia.
  replace (SpecFloat.fexp F64.prec F64.emax (53 + ez) - ez) with 0
    by (unfold SpecFloat.fexp, SpecFloat.emin, F64.prec, F64.emax; lia).
  cbn [shr shr_record_of_loc shr_m].
  replace (ez <=? F64.emax - F64.prec) with true
    by (symmetry; apply Z.leb_le; unfold F64.prec, F64.emax; lia).
  destruct s; reflexivity.
Qed.

(** An [int] divided by 1.0, rounded and converted back is the [int]. *)
Lemma to_int_round_div_one (z : Z) :
  Z.abs z < 2147483648 ->
  F64.to_int (F64.round (F64.of_int z / F64.one)%f64) = z.
Proof.
  intros Hz. destruct (Z.eq_dec z 0) as [-> | Hnz]; [reflexivity |].
  destruct (of_Z_canonical F64.prec F64.emax eq_refl
              ltac:(unfold F64.prec, F64.emax; lia) ltac:(unfold F64.emax; lia)
              z Hnz ltac:(unfold F64.prec; cbn; lia))
    as (mz & ez & E & Hez & Hmz & Hdz).
  unfold F64.of_int. rewrite E.
  rewrite SFdiv_one by (unfold F64.prec in *; try assumption; lia).
  rewrite to_int_round.
  - rewrite (nearest_away_exact mz ez (Z.abs z)) by (try assumption; lia).
    destruct (Z.ltb_spec z 0); cbn [cond_Zopp]; lia.
  - rewrite (nearest_away_exact mz ez (Z.abs z)) by (try assumption; lia). exact Hz.
Qed.

Lemma scaleBack_one (pt : Point) :
  Z.abs (px pt) < 2147483648 -> Z.abs (py pt) < 2147483648 ->
  scaleBack F64.one pt = pt.
Proof.
  intros Hx Hy. unfold scaleBack.
  rewrite (to_int_round_div_one _ Hx), (to_int_round_div_one _ Hy).
  destruct pt; reflexivity.
Qed.

Lemma div_finite_53 (m1 m2 : positive) (e1 e2 : Z) :
  Zpos (digits2_pos m1) = 53 -> Zpos (digits2_pos m2) = 53 ->
  -200 <= e1 <= 0 -> -200 <= e2 <= 0 ->
  exists m e, (S754_finite false m1 e1 / S754_finite false m2 e2)%f64 = S754_finite false m e.
Proof.
  intros Hd1 Hd2 He1 He2. unfold F64.div, SFdiv, SFdiv_core_binary.
  cbn [Zdigits2 xorb]. rewrite Hd1, Hd2.
  replace (SpecFloat.fexp F64.prec F64.emax (53 + e1 - (53 + e2))) with (e1 - e2 - 53)
    by (unfold SpecFloat.fexp, SpecFloat.emin, F64.prec, F64.emax; lia).
  replace (Z.min (e1 - e2 - 53) (e1 - e2)) with (e1 - e2 - 53) by lia.
  replace (e1 - e2 - (e1 - e2 - 53)) with 53 by lia.
  rewrite Z.shiftl_mul_pow2 by lia.
  pose proof (digits2_pos_bounds m1) as B1. pose proof (digits2_pos_bounds m2) as B2.
  rewrite Hd1 in B1. rewrite Hd2 in B2.
  change (2 ^ (53 - 1)) with 4503599627370496 in B1, B2.
  change (2 ^ 53) with 9007199254740992 in *.
  pose proof (Z_div_mod (Zpos m1 * 9007199254740992) (Zpos m2) eq_refl) as H.
  destruct (Z.div_eucl (Zpos m1 * 9007199254740992) (Zpos m2)) as [q r].
  destruct H as [Hq Hr].
  assert (Hq1 : 4503599627370496 <= q) by nia.
  assert (Hq2 : q < 18014398509481984) by nia.
  assert (Hdq : 53 <= Zdigits2 q <= 54).
  { split.
    - change 53 with (Zdigits2 4503599627370496). apply Zdigits2_mono; lia.
    - apply Zdigits2_le_of_lt; [lia | lia | exact Hq2]. }
  set (l := new_location (Zpos m2) r).
  destruct (binary_round_aux_pos F64.prec F64.emax eq_refl false q (e1 - e2 - 53) l)
    as [(m & e & E & _) | E];
    [lia | unfold SpecFloat.emin, F64.prec, F64.emax; lia | exists m, e; exact E |].
  pose proof (binary_round_aux_fin F64.prec F64.emax eq_refl false q (e1 - e2 - 53) l 200 400)
    as Hfin.
  rewrite E in Hfin. exfalso. apply Hfin;
    unfold SpecFloat.fexp, SpecFloat.emin, F64.prec, F64.emax; lia.
Qed.

Section Scale.
Context {cv : OpenCV}.

Lemma workingScale_finite (bgr : Mat) :
  exists m e, workingScale bgr = S754_finite false m e.
Proof.
  unfold workingScale, TARGET.
  destruct (Z.ltb_spec 600 (Z.max (rows bgr) (cols bgr))) as [Hl | Hs].
  - destruct (mat_dims bgr) as [Hr Hc].
    set (L := Z.max (rows bgr) (cols bgr)) in *.
    destruct (of_Z_canonical F64.prec F64.emax eq_refl
                ltac:(unfold F64.prec, F64.emax; lia) ltac:(unfold F64.emax; lia)
                L ltac:(lia) ltac:(unfold F64.prec; cbn; lia))
      as (mL & eL & E & HeL & _ & HdL).
    unfold F64.of_int at 2. rewrite E.
    replace (L <? 0) with false by (symmetry; apply Z.ltb_ge; lia).
    change (F64.of_int 600) with (S754_finite false 5277655813324800 (-43)).
    apply div_finite_53; unfold F64.prec in *; try assumption; try reflexivity; lia.
  - eexists _, _. reflexivity.
Qed.

Lemma workingScale_small (bgr : Mat) :
  Z.max (rows bgr) (cols bgr) <= 600 -> workingScale bgr = F64.one.
Proof.
  intros H. unfold workingScale, TARGET.
  destruct (Z.ltb_spec 600 (Z.max (rows bgr) (cols bgr))); [lia | reflexivity].
Qed.
End Scale.

(** X13: the scale that [detectDocument] divides by is a positive finite
    number for every image, so mapping an [int] coordinate back is never a
    division by zero and never gives a NaN. *)
Theorem workingScale_is_positive_finite :
  forall (cv : OpenCV) (bgr : Mat),
    (exists m e, workingScale bgr = S754_finite false m e)
    /\ forall x : Z,
         -2147483648 <= x < 2147483648 ->
         div64_checked (F64.of_int x) (workingScale bgr)
         = inr (F64.of_int x / workingScale bgr)%f64
         /\ IEEE.is_nan (F64.of_int x / workingScale bgr)%f64 = false.
Proof.
  intros cv bgr. destruct (workingScale_finite bgr) as (m & e & E).
  split; [exists m, e; exact E |].
  intros x Hx. rewrite E. split; [reflexivity |].
  apply (SFdiv_not_nan F64.prec F64.emax 0 32); [| reflexivity | reflexivity].
  apply of_int_fin. exact Hx.
Qed.

(** X14: an image of at most 600 pixels on its larger side is not resized,
    and mapping back by the scale 1.0 leaves every [int] coordinate as it
    is: the corners returned are the corners of the selected quad,
    put in order. *)
Theorem small_image_corners_unscaled :
  forall (cv : OpenCV) (std_sort : sort_fn) (bgr : Mat),
    Z.max (rows bgr) (cols bgr) <= 600 ->
    candidatePool std_sort (workingImage bgr) <> [] ->
    Forall (fun p => Z.abs (px p) < 2147483648 /\ Z.abs (py p) < 2147483648)
           (selectedQuad std_sort (workingArea (workingImage bgr))
                         (candidatePool std_sort (workingImage bgr))) ->
    detectDocument std_sort bgr
    = orderPoints (selectedQuad std_sort (workingArea (workingImage bgr))
                                (candidatePool std_sort (workingImage bgr)))
    /\ forall pt : Point,
         Z.abs (px pt) < 2147483648 -> Z.abs (py pt) < 2147483648 ->
         scaleBack (workingScale bgr) pt = pt.
Proof.
  intros cv std_sort bgr Hsmall Hpool Hint.
  rewrite (workingScale_small bgr Hsmall).
  split; [| intros pt; apply scaleBack_one].
  rewrite (detectDocument_found std_sort bgr Hpool). unfold mappedQuad.
  rewrite (workingScale_small bgr Hsmall). f_equal.
  induction Hint as [|p tl [Hx Hy] _ IH]; [reflexivity |].
  cbn [map]. rewrite IH, (scaleBack_one p Hx Hy). reflexivity.
Qed.

Lemma small_image_corners_unscaled_witness :
  detectDocument (cv := Ref.cv) Ref.sort Ref.scene
  = orderPoints (selectedQuad Ref.sort
                   (workingArea (workingImage (cv := Ref.cv) Ref.scene))
                   (candidatePool (cv := Ref.cv) Ref.sort
                      (workingImage (cv := Ref.cv) Ref.scene))).
Proof.
  refine (proj1 (small_image_corners_unscaled Ref.cv Ref.sort Ref.scene _ _ _)).
  - vm_compute. discriminate.
  - vm_compute. discriminate.
  - assert (E : selectedQuad Ref.sort
                  (workingArea (workingImage (cv := Ref.cv) Ref.scene))
                  (candidatePool (cv := Ref.cv) Ref.sort
                     (workingImage (cv := Ref.cv) Ref.scene)) = Ref.smallDiamond)
      by (vm_compute; reflexivity).
    rewrite E. repeat constructor; cbn; lia.
Defined.

(* ------------------------------------------------------------------ *)
(** ** The order of the scores and the candidate that is returned *)

Lemma keyLt_total (a b : Z * Z * Z) : keyLt a b \/ a = b \/ keyLt b a.
Proof.
  destruct a as [[a1 a2] a3], b as [[b1 b2] b3]. unfold keyLt.
  destruct (Z.lt_trichotomy a1 b1) as [H1 | [H1 | H1]]; [left; lia | | right; right; lia].
  destruct (Z.lt_trichotomy a2 b2) as [H2 | [H2 | H2]]; [left; lia | | right; right; lia].
  destruct (Z.lt_trichotomy a3 b3) as [H3 | [H3 | H3]]; [left; lia | | right; right; lia].
  right. left. congruence.
Qed.

Lemma ltb_nan (x y : F64.t) :
  IEEE.is_nan x = true -> F64.ltb x y = false /\ F64.ltb y x = false.
Proof.
  destruct x; try discriminate. intros _. split; [reflexivity |].
  destruct y as [s | s | | s m e]; try reflexivity; destruct s; reflexivity.
Qed.

Lemma ltb_true_not_nan (x y : F64.t) :
  F64.ltb x y = true -> IEEE.is_nan x = false /\ IEEE.is_nan y = false.
Proof.
  intros H. split.
  - destruct (IEEE.is_nan x) eqn:E; [| reflexivity].
    destruct (ltb_nan x y E) as [H1 _]. congruence.
  - destruct (IEEE.is_nan y) eqn:E; [| reflexivity].
    destruct (ltb_nan y x E) as [_ H1]. congruence.
Qed.

Lemma ltb_irrefl (x : F64.t) : F64.ltb x x = false.
Proof.
  destruct (IEEE.is_nan x) eqn:E; [apply (ltb_nan x x E) |].
  destruct (F64.ltb x x) eqn:H; [| reflexivity].
  apply (ltb_key x x E E) in H. exfalso. apply (keyLt_irrefl _ H).
Qed.

Lemma ltb_trans (x y z : F64.t) :
  F64.ltb x y = true -> F64.ltb y z = true -> F64.ltb x z = true.
Proof.
  intros Hxy Hyz.
  destruct (ltb_true_not_nan _ _ Hxy) as [Hx Hy].
  destruct (ltb_true_not_nan _ _ Hyz) as [_ Hz].
  apply (ltb_key x z Hx Hz).
  apply keyLt_trans with (ordKey y); [apply (ltb_key x y Hx Hy) | apply (ltb_key y z Hy Hz)];
    assumption.
Qed.

(** Two numbers neither of which is less than the other have the same
    place in the order. *)
Lemma ltb_tied_key (x y : F64.t) :
  IEEE.is_nan x = false -> IEEE.is_nan y = false ->
  F64.ltb x y = false -> F64.ltb y x = false -> ordKey x = ordKey y.
Proof.
  intros Hx Hy Hxy Hyx.
  destruct (keyLt_total (ordKey x) (ordKey y)) as [H | [H | H]]; [| exact H |].
  - apply (ltb_key x y Hx Hy) in H. congruence.
  - apply (ltb_key y x Hy Hx) in H. congruence.
Qed.

Lemma ltb_tied_trans (x y z : F64.t) :
  IEEE.is_nan y = false ->
  F64.ltb x y = false -> F64.ltb y x = false ->
  F64.ltb y z = false -> F64.ltb z y = false ->
  F64.ltb x z = false /\ F64.ltb z x = false.
Proof.
  intros Hy Hxy Hyx Hyz Hzy.
  destruct (IEEE.is_nan x) eqn:Hx; [apply (ltb_nan x z Hx) |].
  destruct (IEEE.is_nan z) eqn:Hz.
  { destruct (ltb_nan z x Hz) as [H1 H2]. split; assumption. }
  pose proof (ltb_tied_key x y Hx Hy Hxy Hyx) as E1.
  pose proof (ltb_tied_key y z Hy Hz Hyz Hzy) as E2.
  split.
  - destruct (F64.ltb x z) eqn:H; [| reflexivity].
    apply (ltb_key x z Hx Hz) in H. rewrite E1, E2 in H. exfalso. apply (keyLt_irrefl _ H).
  - destruct (F64.ltb z x) eqn:H; [| reflexivity].
    apply (ltb_key z x Hz Hx) in H. rewrite E1, E2 in H. exfalso. apply (keyLt_irrefl _ H).
Qed.

Lemma leb_refl (x : F64.t) : IEEE.is_nan x = false -> F64.leb x x = true.
Proof. intros Hx. apply (leb_key x x Hx Hx). apply keyLt_irrefl. Qed.

(** The first element of a sorted vector is a greatest one. *)
Lemma sorted_head_is_max (scored sorted : list Candidate) :
  scored <> [] ->
  Forall (fun c => IEEE.is_nan (edgeScore c) = false) scored ->
  sort_contract scoreGreater scored sorted ->
  In (nth 0 sorted no_candidate) scored
  /\ forall c, In c scored ->
       F64.leb (edgeScore c) (edgeScore (nth 0 sorted no_candidate)) = true.
Proof.
  intros Hne Hok [Hperm Hsorted].
  destruct sorted as [|h tl].
  { apply Permutation_sym, Permutation_nil in Hperm. congruence. }
  cbn [nth]. rewrite Forall_forall in Hok.
  assert (Hh : In h scored) by (apply (Permutation_in _ (Permutation_sym Hperm)); left; reflexivity).
  split; [exact Hh |].
  intros c Hc. apply (Permutation_in _ Hperm) in Hc.
  assert (Hcn : IEEE.is_nan (edgeScore c) = false).
  { apply Hok. apply (Permutation_in _ (Permutation_sym Hperm) Hc). }
  destruct Hc as [<- | Hc]; [apply leb_refl; exact Hcn |].
  inversion Hsorted as [|? ? _ Hall]; subst.
  rewrite Forall_forall in Hall. specialize (Hall c Hc).
  unfold scoreGreater, F64.gtb in Hall.
  apply ltb_false_leb; [apply Hok; exact Hh | exact Hcn | exact Hall].
Qed.

(** X15: the comparators that the program hands to [std::max_element]
    and [std::sort] order the candidates by their score: "greater" is "less"
    with the arguments exchanged, no candidate comes before itself, the
    order is transitive, and being tied is transitive when the score in the
    middle is not a NaN.  A NaN score in the middle ties candidates of
    different scores, which [std::sort] does not allow. *)
Theorem score_order_is_strict_weak :
  (forall a b : Candidate, scoreGreater a b = scoreLess b a)
  /\ (forall a : Candidate, scoreLess a a = false)
  /\ (forall a b c : Candidate,
        scoreLess a b = true -> scoreLess b c = true -> scoreLess a c = true)
  /\ (forall a b c : Candidate,
        IEEE.is_nan (edgeScore b) = false ->
        scoreTied a b -> scoreTied b c -> scoreTied a c)
  /\ (exists a b c : Candidate,
        IEEE.is_nan (edgeScore b) = true
        /\ scoreTied a b /\ scoreTied b c /\ scoreLess a c = true).
Proof.
  split; [intros a b; reflexivity |].
  split; [intros a; apply ltb_irrefl |].
  split; [intros a b c; apply ltb_trans |].
  split.
  - intros a b c Hb [Hab Hba] [Hbc Hcb]. unfold scoreTied, scoreLess in *.
    apply (ltb_tied_trans _ (edgeScore b)); assumption.
  - exists (mkCandidate [] F64.zero (F64.of_int 1)),
           (mkCandidate [] F64.zero S754_nan),
           (mkCandidate [] F64.zero (F64.of_int 2)).
    repeat split; reflexivity.
Qed.

(** X16: before the vector is sorted, [best] refers to the first
    candidate with the greatest combined score: no candidate has a greater
    score, and every candidate before it has a lesser one (when no combined
    score is a NaN). *)
Theorem best_is_first_maximum :
  forall (imgArea : F64.t) (pool : list Candidate),
    pool <> [] ->
    Forall (fun c => IEEE.is_nan (edgeScore (rescore imgArea c)) = false) pool ->
    let scored := map (rescore imgArea) pool in
    let best := max_element scoreLess scored in
    (best < length pool)%nat
    /\ (forall c, In c scored ->
          F64.leb (edgeScore c) (edgeScore (nth best scored no_candidate)) = true)
    /\ (forall j, (j < best)%nat ->
          scoreLess (nth j scored no_candidate) (nth best scored no_candidate) = true).
Proof.
  intros imgArea pool Hne Hok scored best.
  assert (Hne' : scored <> []).
  { unfold scored. destruct pool; [congruence | discriminate]. }
  assert (Hok' : Forall (fun c => IEEE.is_nan (edgeScore c) = false) scored).
  { unfold scored. apply Forall_map. exact Hok. }
  destruct (max_element_scoreLess scored Hne' Hok') as (Hlen & Hmax & Hfirst).
  fold best in Hlen, Hmax, Hfirst.
  split; [| split; assumption].
  unfold scored in Hlen. rewrite length_map in Hlen. exact Hlen.
Qed.

Lemma best_is_first_maximum_witness :
  (max_element scoreLess (map (rescore (F64.of_int 40000)) Ref.poolABC) < 3)%nat.
Proof.
  refine (proj1 (best_is_first_maximum (F64.of_int 40000) Ref.poolABC _ _)).
  - discriminate.
  - repeat constructor.
Defined.

(** X17: when [std::sort] meets its contract, the slot that [best]
    refers to is a slot of the sorted vector, and the quad read from it is
    the quad of a candidate of the pool; this candidate passed validation
    and its quad has 4 points, which are the 4 points that [orderPoints] and
    [quadToJni] read. *)
Theorem detectDocument_returns_a_pooled_quad :
  forall (cv : OpenCV) (std_sort : sort_fn) (bgr : Mat),
    let small := workingImage bgr in
    let pool := candidatePool std_sort small in
    pool <> [] ->
    sort_contract scoreGreater (map (rescore (workingArea small)) pool)
                  (std_sort _ scoreGreater (map (rescore (workingArea small)) pool)) ->
    (max_element scoreLess (map (rescore (workingArea small)) pool)
     < length (std_sort _ scoreGreater (map (rescore (workingArea small)) pool)))%nat
    /\ exists c,
         In c pool
         /\ pooledCandidate (workingArea small) (gradientMagnitude small) c
         /\ length (quad c) = 4%nat
         /\ detectDocument std_sort bgr
            = orderPoints (map (scaleBack (workingScale bgr)) (quad c)).
Proof.
  intros cv std_sort bgr small pool Hne Hsort.
  split.
  { destruct Hsort as [Hperm _]. rewrite <- (Permutation_length Hperm).
    apply max_element_bound. destruct pool; [congruence | discriminate]. }
  destruct (selectedQuad_in_pool std_sort (workingArea small) pool Hne Hsort)
    as (c & Hc & Hsel).
  pose proof (candidatePool_pooled std_sort small) as Hall.
  rewrite Forall_forall in Hall. pose proof (Hall c Hc) as Hvalid.
  exists c. split; [exact Hc |]. split; [exact Hvalid |]. split.
  - destruct Hvalid as (clean & Hlen & _). exact Hlen.
  - rewrite (detectDocument_found std_sort bgr Hne). unfold mappedQuad.
    fold small. fold pool. rewrite Hsel. reflexivity.
Qed.

Lemma detectDocument_returns_a_pooled_quad_witness :
  exists c,
    In c (candidatePool (cv := Ref.cv) Ref.sort (workingImage (cv := Ref.cv) Ref.scene))
    /\ length (quad c) = 4%nat
    /\ detectDocument (cv := Ref.cv) Ref.sort Ref.scene
       = orderPoints (map (scaleBack (workingScale (cv := Ref.cv) Ref.scene)) (quad c)).
Proof.
  destruct (detectDocument_returns_a_pooled_quad Ref.cv Ref.sort Ref.scene)
    as (_ & c & Hc & _ & Hlen & E).
  - vm_compute. discriminate.
  - split.
    + vm_compute. apply Permutation_refl.
    + vm_compute. repeat constructor.
  - exists c. split; [exact Hc |]. split; [exact Hlen | exact E].
Defined.

(** X18: when the best candidate is the first of the pool, as it is in a
    pool of one candidate, sorting the vector leaves a candidate of the
    greatest combined score in the slot that [best] refers to, and the quad
    returned is the quad of such a candidate (when [std::sort] meets its
    contract and no combined score is a NaN). *)
Theorem selectedQuad_is_best_when_best_is_first :
  (forall (std_sort : sort_fn) (imgArea : F64.t) (pool : list Candidate),
     let scored := map (rescore imgArea) pool in
     pool <> [] ->
     Forall (fun c => IEEE.is_nan (edgeScore c) = false) scored ->
     sort_contract scoreGreater scored (std_sort _ scoreGreater scored) ->
     max_element scoreLess scored = 0%nat ->
     exists c,
       In c scored
       /\ selectedQuad std_sort imgArea pool = quad c
       /\ forall c', In c' scored -> F64.leb (edgeScore c') (edgeScore c) = true)
  /\ (forall (imgArea : F64.t) (c : Candidate),
        max_element scoreLess (map (rescore imgArea) [c]) = 0%nat).
Proof.
  split; [| intros imgArea c; reflexivity].
  intros std_sort imgArea pool scored Hne Hok Hsort Hbest.
  assert (Hne' : scored <> []).
  { unfold scored. destruct pool; [congruence | discriminate]. }
  destruct (sorted_head_is_max scored _ Hne' Hok Hsort) as [Hin Hmax].
  exists (nth 0 (std_sort _ scoreGreater scored) no_candidate).
  split; [exact Hin |]. split; [| exact Hmax].
  unfold selectedQuad. fold scored. rewrite Hbest. reflexivity.
Qed.

Lemma selectedQuad_is_best_when_best_is_first_witness :
  exists c,
    In c (map (rescore (F64.of_int 40000)) [Ref.candB; Ref.candA; Ref.candC])
    /\ selectedQuad Ref.sort (F64.of_int 40000) [Ref.candB; Ref.candA; Ref.candC] = quad c
    /\ forall c', In c' (map (rescore (F64.of_int 40000)) [Ref.candB; Ref.candA; Ref.candC]) ->
                  F64.leb (edgeScore c') (edgeScore c) = true.
Proof.
  apply (proj1 selectedQuad_is_best_when_best_is_first Ref.sort (F64.of_int 40000)
           [Ref.candB; Ref.candA; Ref.candC]).
  - discriminate.
  - repeat constructor.
  - split.
    + vm_compute. apply Permutation_refl.
    + vm_compute. repeat constructor.
  - vm_compute. reflexivity.
Defined.

(* ------------------------------------------------------------------ *)
(** ** The border pixels of the colour-distance strategy *)

Lemma stride2_length (lo hi : Z) :
  length (stride2 lo hi) = Z.to_nat ((hi - lo + 1) / 2).
Proof. unfold stride2. rewrite length_map, length_seq. reflexivity. Qed.

(** The loop [for (i = lo; i < hi; i += 2)] visits values from [lo] on
    and below [hi]. *)
Lemma stride2_range (lo hi x : Z) : In x (stride2 lo hi) -> lo <= x < hi.
Proof.
  unfold stride2. intros H. apply in_map_iff in H as (k & <- & Hk).
  apply in_seq in Hk.
  assert (Z.of_nat k < (hi - lo + 1) / 2) by lia.
  Z.div_mod_to_equations. lia.
Qed.

Section BorderSums.
Context {cv : OpenCV}.

Lemma borderSums_fold (bgr : Mat) :
  borderSums bgr
  = fold_left (fun acc y => borderStep bgr y 0 y (CInt.sub (cols bgr) 1) acc)
              (stride2 1 (CInt.sub (rows bgr) 1))
              (fold_left (fun acc x => borderStep bgr 0 x (CInt.sub (rows bgr) 1) x acc)
                         (stride2 0 (cols bgr)) (F64.zero, F64.zero, F64.zero, 0)).
Proof. reflexivity. Qed.

(** Each pass through a border loop adds 2 to the count. *)
Lemma borderStep_count {X : Type} (bgr : Mat) (ya xa yb xb : X -> Z) (l : list X) :
  forall acc,
    0 <= snd acc -> snd acc + 2 * Z.of_nat (length l) < 2147483648 ->
    snd (fold_left (fun acc x => borderStep bgr (ya x) (xa x) (yb x) (xb x) acc) l acc)
    = snd acc + 2 * Z.of_nat (length l).
Proof.
  induction l as [|x tl IH]; intros acc H0 Hb; cbn [fold_left length] in *; [lia |].
  rewrite IH.
  - destruct acc as [[[b g] r] n]. cbn [borderStep snd] in *. unfold CInt.add.
    rewrite wrap_small by (unfold CInt.in_range; lia). lia.
  - destruct acc as [[[b g] r] n]. cbn [borderStep snd] in *. unfold CInt.add.
    rewrite wrap_small by (unfold CInt.in_range; lia). lia.
  - destruct acc as [[[b g] r] n]. cbn [borderStep snd] in *. unfold CInt.add.
    rewrite wrap_small by (unfold CInt.in_range; lia). lia.
Qed.

Lemma at_vec3b_checked_ok (m : Mat) (y x : Z) :
  0 <= y < rows m -> 0 <= x < cols m ->
  at_vec3b_checked m y x = ret (at_vec3b m y x).
Proof.
  intros Hy Hx. unfold at_vec3b_checked.
  replace (0 <=? y) with true by (symmetry; apply Z.leb_le; lia).
  replace (y <? rows m) with true by (symmetry; apply Z.ltb_lt; lia).
  replace (0 <=? x) with true by (symmetry; apply Z.leb_le; lia).
  replace (x <? cols m) with true by (symmetry; apply Z.ltb_lt; lia).
  reflexivity.
Qed.

Lemma borderStep_checked_ok (bgr : Mat) (ya xa yb xb : Z)
      (acc : F64.t * F64.t * F64.t * Z) :
  0 <= ya < rows bgr -> 0 <= xa < cols bgr ->
  0 <= yb < rows bgr -> 0 <= xb < cols bgr ->
  borderStep_checked bgr ya xa yb xb acc = ret (borderStep bgr ya xa yb xb acc).
Proof.
  intros Hya Hxa Hyb Hxb. destruct acc as [[[b g] r] n].
  unfold borderStep_checked, borderStep.
  rewrite (at_vec3b_checked_ok bgr ya xa Hya Hxa), (at_vec3b_checked_ok bgr yb xb Hyb Hxb).
  reflexivity.
Qed.

Lemma borderCount_value (bgr : Mat) :
  1 <= rows bgr -> 1 <= cols bgr -> rows bgr + cols bgr < 2147483648 ->
  snd (borderSums bgr) = 2 * ((cols bgr + 1) / 2 + (rows bgr - 1) / 2).
Proof.
  intros Hr Hc Hsum. rewrite borderSums_fold.
  unfold CInt.sub. rewrite !wrap_small by (unfold CInt.in_range; lia).
  assert (L1 : Z.of_nat (length (stride2 0 (cols bgr))) = (cols bgr + 1) / 2).
  { rewrite stride2_length. replace (cols bgr - 0 + 1) with (cols bgr + 1) by lia.
    rewrite Z2Nat.id; [reflexivity | Z.div_mod_to_equations; lia]. }
  assert (L2 : Z.of_nat (length (stride2 1 (rows bgr - 1))) = (rows bgr - 1) / 2).
  { rewrite stride2_length. replace (rows bgr - 1 - 1 + 1) with (rows bgr - 1) by lia.
    rewrite Z2Nat.id; [reflexivity | Z.div_mod_to_equations; lia]. }
  assert (B1 : (cols bgr + 1) / 2 <= (cols bgr + 1)) by (Z.div_mod_to_equations; lia).
  assert (B1' : 2 * ((cols bgr + 1) / 2) <= cols bgr + 1) by (Z.div_mod_to_equations; lia).
  assert (B2 : 2 * ((rows bgr - 1) / 2) <= rows bgr - 1) by (Z.div_mod_to_equations; lia).
  assert (B2' : 0 <= (rows bgr - 1) / 2) by (Z.div_mod_to_equations; lia).
  rewrite (borderStep_count bgr (fun y => y) (fun _ => 0) (fun y => y)
             (fun _ => cols bgr - 1)).
  - rewrite (borderStep_count bgr (fun _ => 0) (fun x => x) (fun _ => rows bgr - 1)
               (fun x => x)); cbn [snd]; lia.
  - rewrite (borderStep_count bgr (fun _ => 0) (fun x => x) (fun _ => rows bgr - 1)
               (fun x => x)); cbn [snd]; lia.
  - rewrite (borderStep_count bgr (fun _ => 0) (fun x => x) (fun _ => rows bgr - 1)
               (fun x => x)); cbn [snd]; lia.
Qed.

Lemma borderSums_checked_ok (bgr : Mat) :
  1 <= rows bgr -> 1 <= cols bgr -> rows bgr + cols bgr < 2147483648 ->
  borderSums_checked bgr = ret (borderSums bgr).
Proof.
  intros Hr Hc Hsum. unfold borderSums_checked. rewrite borderSums_fold.
  unfold CInt.sub. rewrite !wrap_small by (unfold CInt.in_range; lia).
  rewrite (foldM_ret _ (fun acc x => borderStep bgr 0 x (rows bgr - 1) x acc)).
  - cbn [bind ret].
    apply (foldM_ret _ (fun acc y => borderStep bgr y 0 y (cols bgr - 1) acc)).
    intros acc y Hy. apply stride2_range in Hy.
    apply borderStep_checked_ok; lia.
  - intros acc x Hx. apply stride2_range in Hx.
    apply borderStep_checked_ok; lia.
Qed.
End BorderSums.

(** X19: on an image of at least one row and one column the border loops
    of [findByColorDistance] read pixels inside the image only, they count
    [2 * (ceil(cols / 2) + floor((rows - 1) / 2))] pixels, which is 2 at
    least, and so the three means are not divided by a zero count.  (The
    count is an [int]: rows + cols has to fit one.) *)
Theorem border_means_never_fault :
  forall (cv : OpenCV) (bgr : Mat),
    1 <= rows bgr -> 1 <= cols bgr -> rows bgr + cols bgr < 2147483648 ->
    borderSums_checked bgr = inr (borderSums bgr)
    /\ snd (borderSums bgr) = 2 * ((cols bgr + 1) / 2 + (rows bgr - 1) / 2)
    /\ 2 <= snd (borderSums bgr)
    /\ borderMeans_checked bgr = inr (borderMeans bgr).
Proof.
  intros cv bgr Hr Hc Hsum.
  pose proof (borderSums_checked_ok bgr Hr Hc Hsum) as Hok.
  pose proof (borderCount_value bgr Hr Hc Hsum) as Hn.
  assert (H2 : 2 <= snd (borderSums bgr)).
  { rewrite Hn. Z.div_mod_to_equations. lia. }
  split; [exact Hok |]. split; [exact Hn |]. split; [exact H2 |].
  unfold borderMeans_checked, borderMeans. rewrite Hok. cbn [bind ret].
  destruct (borderSums bgr) as [[[b g] r] n]. cbn [snd] in H2.
  assert (Hz : IEEE.is_zero (F64.of_int n) = false).
  { apply (of_Z_nonzero F64.prec F64.emax eq_refl);
      [unfold SpecFloat.emin, F64.prec, F64.emax; lia | lia]. }
  unfold div64_checked. rewrite Hz. reflexivity.
Qed.

Lemma border_means_never_fault_witness :
  snd (borderSums (cv := Ref.cv) Ref.scene) = 78.
Proof.
  refine (proj1 (proj2 (border_means_never_fault Ref.cv Ref.scene _ _ _)));
    vm_compute; first [reflexivity | intros H; discriminate H].
Defined.

(* ------------------------------------------------------------------ *)
(** ** The JNI entry points *)

Lemma quadToJni_of_4 (q : list Point) :
  length q = 4%nat ->
  quadToJni q = Some (flat_map (fun p => [F32.of_int (px p); F32.of_int (py p)]) q).
Proof.
  intros Hlen. destruct q as [|a [|b [|c [|d [|e tl]]]]]; try discriminate. reflexivity.
Qed.

(** X20: the two entry points run the same code and return the same
    result for every frame.  A frame of 4 channels is converted from RGBA, a
    frame of 3 channels is taken as it is, and a frame of any other number
    of channels is converted as a grey image.  The result is the null array,
    or the x and y of 4 corners as 8 floats. *)
Theorem jni_entry_points_agree :
  forall (cv : OpenCV) (std_sort : sort_fn) (frame : Mat),
    findDocumentCornersColor std_sort frame = findDocumentCorners std_sort frame
    /\ (channels frame = 4 ->
        findDocumentCorners std_sort frame
        = quadToJni (detectDocument std_sort (cvtColor frame COLOR_RGBA2BGR)))
    /\ (channels frame = 3 ->
        findDocumentCorners std_sort frame = quadToJni (detectDocument std_sort frame))
    /\ (channels frame <> 3 -> channels frame <> 4 ->
        findDocumentCorners std_sort frame
        = quadToJni (detectDocument std_sort (cvtColor frame COLOR_GRAY2BGR)))
    /\ (findDocumentCorners std_sort frame = None
        \/ exists q,
             length q = 4%nat
             /\ findDocumentCorners std_sort frame
                = Some (flat_map (fun p => [F32.of_int (px p); F32.of_int (py p)]) q)).
Proof.
  intros cv std_sort frame.
  split; [reflexivity |].
  split; [intros H; unfold findDocumentCorners; rewrite H; reflexivity |].
  split; [intros H; unfold findDocumentCorners; rewrite H; reflexivity |].
  split.
  - intros H3 H4. unfold findDocumentCorners.
    destruct (Z.eqb_spec (channels frame) 4); [contradiction |].
    destruct (Z.eqb_spec (channels frame) 3); [contradiction | reflexivity].
  - unfold findDocumentCorners.
    set (bgr := if channels frame =? 4 then _ else _).
    destruct (candidatePool std_sort (workingImage bgr)) as [|c tl] eqn:Hpool.
    + left. rewrite (proj2 (detectDocument_empty std_sort bgr) Hpool). reflexivity.
    + right. exists (detectDocument std_sort bgr).
      assert (Hlen : length (detectDocument std_sort bgr) = 4%nat).
      { rewrite detectDocument_found by (rewrite Hpool; discriminate).
        apply orderPoints_length. }
      split; [exact Hlen | apply quadToJni_of_4; exact Hlen].
Qed.

(* ------------------------------------------------------------------ *)
(** ** Integer arithmetic in floating point that is exact *)

Lemma shr_1_exact (m : Z) :
  0 <= m ->
  shr_1 {| shr_m := 2 * m; shr_r := false; shr_s := false |}
  = {| shr_m := m; shr_r := false; shr_s := false |}.
Proof. destruct m as [|p|p]; try lia; reflexivity. Qed.

(** Shifting out bits that are all 0 leaves no remainder. *)
Lemma iter_shr_1_exact (p : positive) : forall m,
  0 <= m ->
  iter_pos shr_1 p {| shr_m := m * 2 ^ Zpos p; shr_r := false; shr_s := false |}
  = {| shr_m := m; shr_r := false; shr_s := false |}.
Proof.
  induction p as [p IH | p IH |]; intros m Hm; cbn [iter_pos].
  - assert (Hp : 0 < 2 ^ Zpos p) by (apply Z.pow_pos_nonneg; lia).
    replace (m * 2 ^ Zpos p~1) with (2 * (m * 2 ^ Zpos p * 2 ^ Zpos p)).
    + rewrite shr_1_exact by nia. rewrite IH by nia. apply IH. exact Hm.
    + replace (Zpos p~1) with (1 + Zpos p + Zpos p) by lia.
      rewrite !Z.pow_add_r by lia. change (2 ^ 1) with 2. ring.
  - assert (Hp : 0 < 2 ^ Zpos p) by (apply Z.pow_pos_nonneg; lia).
    replace (m * 2 ^ Zpos p~0) with (m * 2 ^ Zpos p * 2 ^ Zpos p).
    + rewrite IH by nia. apply IH. exact Hm.
    + replace (Zpos p~0) with (Zpos p + Zpos p) by lia.
      rewrite !Z.pow_add_r by lia. ring.
  - change (2 ^ 1) with 2. rewrite Z.mul_comm. apply shr_1_exact. exact Hm.
Qed.

Lemma Zdigits2_mul_ge (a b : Z) :
  0 < a -> 0 < b -> Zdigits2 a + Zdigits2 b - 1 <= Zdigits2 (a * b).
Proof.
  intros Ha Hb.
  destruct (Zdigits2_bounds a Ha) as (Hda & Hloa & _).
  destruct (Zdigits2_bounds b Hb) as (Hdb & Hlob & _).
  destruct (Zdigits2_bounds (a * b) ltac:(nia)) as (Hdab & _ & Hhi).
  destruct (Z.le_gt_cases (Zdigits2 a + Zdigits2 b - 1) (Zdigits2 (a * b))) as [H | H];
    [exact H | exfalso].
  assert (H1 : 2 ^ Zdigits2 (a * b) <= 2 ^ (Zdigits2 a - 1 + (Zdigits2 b - 1)))
    by (apply Z.pow_le_mono_r; lia).
  rewrite Z.pow_add_r in H1 by lia.
  assert (0 < 2 ^ (Zdigits2 a - 1)) by (apply Z.pow_pos_nonneg; lia).
  assert (0 < 2 ^ (Zdigits2 b - 1)) by (apply Z.pow_pos_nonneg; lia).
  nia.
Qed.

Lemma cond_Zopp_abs (z c : Z) : cond_Zopp (z <? 0) (Z.abs z * c) = z * c.
Proof. destruct (Z.ltb_spec z 0); cbn [cond_Zopp]; nia. Qed.

Lemma sign_mul (a b : Z) :
  a <> 0 -> b <> 0 -> xorb (a <? 0) (b <? 0) = (a * b <? 0).
Proof. destruct a, b; try congruence; reflexivity. Qed.

Lemma shl_align_fst (m : positive) (e ez : Z) :
  ez <= e -> Zpos (fst (shl_align m e ez)) = Zpos m * 2 ^ (e - ez).
Proof.
  intros H. unfold shl_align. destruct (ez - e) as [|d|d] eqn:Hd; cbn [fst]; try lia.
  - replace (e - ez) with 0 by lia. lia.
  - fold (shift_pos d m). rewrite shift_pos_correct, Z.pow_pos_fold.
    replace (e - ez) with (Zpos d) by lia. lia.
Qed.

Section ExactArith.
Variables prec emax : Z.
Hypothesis prec_pos : 0 < prec.
Hypothesis prec_le_emax : prec <= emax.
Hypothesis emax_ge_2 : 2 <= emax.

#[local] Abbreviation emin := (SpecFloat.emin prec emax).
#[local] Abbreviation fexp := (SpecFloat.fexp prec emax).

Lemma fexp_small (d : Z) : 0 < d -> fexp d = d - prec.
Proof. intros Hd. unfold SpecFloat.fexp, SpecFloat.emin. lia. Qed.

(** Rounding a mantissa [N * 2^k] to an exponent that leaves all bits of
    [N] in place is exact. *)
Lemma binary_round_aux_shift (s : bool) (N k e t : Z) :
  0 < N -> 0 <= t <= k ->
  fexp (Zdigits2 N + k + e) = e + t ->
  e + t <= emax - prec ->
  exists m, binary_round_aux prec emax s (N * 2 ^ k) e loc_Exact = S754_finite s m (e + t)
            /\ Zpos m = N * 2 ^ (k - t).
Proof.
  intros HN Ht Hf He.
  assert (Hd : Zdigits2 (N * 2 ^ k) = Zdigits2 N + k) by (apply Zdigits2_shiftl; lia).
  assert (Hd' : Zdigits2 (N * 2 ^ (k - t)) = Zdigits2 N + (k - t))
    by (apply Zdigits2_shiftl; lia).
  assert (Hpos : 0 < N * 2 ^ (k - t)).
  { apply Z.mul_pos_pos; [exact HN | apply Z.pow_pos_nonneg; lia]. }
  assert (Hshr : shr {| shr_m := N * 2 ^ k; shr_r := false; shr_s := false |} e t
                 = ({| shr_m := N * 2 ^ (k - t); shr_r := false; shr_s := false |}, e + t)).
  { unfold shr. destruct t as [|p|p]; [| | lia].
    - rewrite Z.sub_0_r, Z.add_0_r. reflexivity.
    - replace (N * 2 ^ k) with (N * 2 ^ (k - Zpos p) * 2 ^ Zpos p).
      + rewrite iter_shr_1_exact by lia. reflexivity.
      + rewrite <- Z.mul_assoc, <- Z.pow_add_r by lia. do 2 f_equal. lia. }
  unfold binary_round_aux, shr_fexp. rewrite Hd, Hf.
  replace (e + t - e) with t by lia.
  cbn [shr_record_of_loc]. rewrite Hshr.
  cbn [shr_m loc_of_shr_record round_nearest_even]. rewrite Hd'.
  replace (Zdigits2 N + (k - t) + (e + t)) with (Zdigits2 N + k + e) by lia.
  rewrite Hf. rewrite Z.sub_diag. cbn [shr shr_record_of_loc shr_m].
  destruct (N * 2 ^ (k - t)) as [|m|m] eqn:Em; try lia.
  replace (e + t <=? emax - prec) with true by (symmetry; apply Z.leb_le; lia).
  exists m. split; reflexivity.
Qed.

(** Rounding an integer [N], given as [N * 2^k] with exponent [-k]. *)
Lemma binary_round_int (s : bool) (p : positive) (N k : Z) :
  0 < N < 2 ^ prec -> 0 <= k -> Zpos p = N * 2 ^ k ->
  exists m, binary_round prec emax s p (- k) = S754_finite s m (Zdigits2 N - prec)
            /\ Zpos m = N * 2 ^ (prec - Zdigits2 N).
Proof.
  intros HN Hk Hp.
  destruct (Zdigits2_bounds N ltac:(lia)) as (HdN & _ & _).
  assert (HdN' : Zdigits2 N <= prec) by (apply Zdigits2_le_of_lt; lia).
  assert (Hdp : Zpos (digits2_pos p) = Zdigits2 N + k).
  { change (Zpos (digits2_pos p)) with (Zdigits2 (Zpos p)). rewrite Hp.
    apply Zdigits2_shiftl; lia. }
  unfold binary_round. rewrite Hdp.
  replace (Zdigits2 N + k + - k) with (Zdigits2 N) by lia.
  rewrite (fexp_small _ HdN).
  set (c := Zdigits2 N - prec).
  destruct (Z.lt_ge_cases c (- k)) as [Hlt | Hge].
  - pose proof (shl_align_fst p (- k) c ltac:(lia)) as Hfst.
    pose proof (shl_align_snd p (- k) c ltac:(lia)) as Hsnd.
    destruct (shl_align p (- k) c) as [mz ez]. cbn [fst snd] in Hfst, Hsnd. subst ez.
    destruct (binary_round_aux_shift s N (- c) c 0 ltac:(lia) ltac:(lia)) as (m & E & Hm).
    + replace (Zdigits2 N + - c + c) with (Zdigits2 N) by lia.
      rewrite (fexp_small _ HdN). unfold c. lia.
    + unfold c. lia.
    + exists m. rewrite Hfst, Hp.
      replace (N * 2 ^ k * 2 ^ (- k - c)) with (N * 2 ^ (- c)).
      * rewrite Z.add_0_r in E. split; [exact E |].
        rewrite Hm. do 2 f_equal. unfold c. lia.
      * rewrite <- Z.mul_assoc, <- Z.pow_add_r by lia. do 2 f_equal. lia.
  - assert (Hal : shl_align p (- k) c = (p, - k)).
    { unfold shl_align. destruct (c - - k) as [|d|d] eqn:Hd; try reflexivity. lia. }
    rewrite Hal.
    destruct (binary_round_aux_shift s N k (- k) (c + k) ltac:(lia) ltac:(unfold c; lia))
      as (m & E & Hm).
    + replace (Zdigits2 N + k + - k) with (Zdigits2 N) by lia.
      rewrite (fexp_small _ HdN). unfold c. lia.
    + unfold c. lia.
    + exists m. rewrite Hp.
      replace (- k + (c + k)) with c in E by lia. split; [exact E |].
      rewrite Hm. do 2 f_equal. unfold c. lia.
Qed.

Lemma holdsInt_nonzero (z : Z) (f : spec_float) : holdsInt prec z f -> z <> 0.
Proof.
  destruct f as [| | |s m e]; cbn [holdsInt]; try tauto.
  intros (_ & _ & Hm & _) ->. cbn in Hm. lia.
Qed.

Lemma holdsInt_exponent (z : Z) (s : bool) (m : positive) (e : Z) :
  holdsInt prec z (S754_finite s m e) ->
  e = Zdigits2 (Z.abs z) - prec /\ 0 < Zdigits2 (Z.abs z) <= prec.
Proof.
  intros H. pose proof (holdsInt_nonzero _ _ H) as Hz.
  destruct H as (_ & He & Hm & Hd).
  change (Zpos (digits2_pos m)) with (Zdigits2 (Zpos m)) in Hd.
  rewrite Hm, Zdigits2_shiftl in Hd by lia.
  destruct (Zdigits2_bounds (Z.abs z) ltac:(lia)) as (H0 & _). lia.
Qed.

Lemma holdsInt_unique (z : Z) (f g : spec_float) :
  holdsInt prec z f -> holdsInt prec z g -> f = g.
Proof.
  destruct f as [| | |s1 m1 e1], g as [| | |s2 m2 e2]; cbn [holdsInt]; try tauto.
  intros H1 H2.
  destruct (holdsInt_exponent _ _ _ _ H1) as [E1 _].
  destruct (holdsInt_exponent _ _ _ _ H2) as [E2 _].
  destruct H1 as (-> & _ & Hm1 & _). destruct H2 as (-> & _ & Hm2 & _).
  subst e1 e2. f_equal. apply Pos2Z.inj. rewrite Hm1, Hm2. reflexivity.
Qed.

Lemma of_Z_holdsInt (z : Z) :
  z <> 0 -> Z.abs z < 2 ^ prec -> holdsInt prec z (IEEE.of_Z prec emax z).
Proof.
  intros Hz Habs.
  destruct (of_Z_canonical prec emax prec_pos prec_le_emax emax_ge_2 z Hz Habs)
    as (mz & ez & -> & Hez & Hmz & Hdz).
  cbn [holdsInt]. repeat split; try assumption; lia.
Qed.

(** A finite number with the given sign, exponent and mantissa holds the
    integer. *)
Lemma holdsInt_intro (z : Z) (s : bool) (m : positive) :
  z <> 0 -> Z.abs z < 2 ^ prec -> s = (z <? 0) ->
  Zpos m = Z.abs z * 2 ^ (prec - Zdigits2 (Z.abs z)) ->
  holdsInt prec z (S754_finite s m (Zdigits2 (Z.abs z) - prec)).
Proof.
  intros Hz Habs Hs Hm.
  destruct (Zdigits2_bounds (Z.abs z) ltac:(lia)) as (H0 & _).
  assert (Hd : Zdigits2 (Z.abs z) <= prec) by (apply Zdigits2_le_of_lt; lia).
  cbn [holdsInt]. split; [exact Hs |]. split; [lia |]. split.
  - rewrite Hm. do 2 f_equal. lia.
  - change (Zpos (digits2_pos m)) with (Zdigits2 (Zpos m)).
    rewrite Hm, Zdigits2_shiftl by lia. lia.
Qed.

(** The product of two integers is exact when it fits the format. *)
Lemma SFmul_holdsInt (a b : Z) (x y : spec_float) :
  holdsInt prec a x -> holdsInt prec b y -> Z.abs (a * b) < 2 ^ prec ->
  holdsInt prec (a * b) (SFmul prec emax x y).
Proof.
  intros Hx Hy Hab.
  pose proof (holdsInt_nonzero _ _ Hx) as Ha. pose proof (holdsInt_nonzero _ _ Hy) as Hb.
  destruct x as [| | |sa ma ea]; try contradiction.
  destruct y as [| | |sb mb eb]; try contradiction.
  destruct (holdsInt_exponent _ _ _ _ Hx) as [Eea Hda].
  destruct (holdsInt_exponent _ _ _ _ Hy) as [Eeb Hdb].
  destruct Hx as (-> & Hea & Hma & Hdma). destruct Hy as (-> & Heb & Hmb & Hdmb).
  set (N := Z.abs (a * b)) in *.
  assert (HN : 0 < N) by (unfold N; nia).
  destruct (Zdigits2_bounds N HN) as (HdN & _).
  assert (HdN' : Zdigits2 N <= prec) by (apply Zdigits2_le_of_lt; lia).
  assert (Hprod : Zpos (ma * mb) = N * 2 ^ (- ea - eb)).
  { rewrite Pos2Z.inj_mul, Hma, Hmb. unfold N. rewrite Z.abs_mul.
    replace (- ea - eb) with (- ea + - eb) by lia. rewrite Z.pow_add_r by lia. ring. }
  assert (Hdig : prec <= Zdigits2 N + (- ea - eb)).
  { rewrite <- Zdigits2_shiftl by lia. rewrite <- Hprod, Pos2Z.inj_mul.
    pose proof (Zdigits2_mul_ge (Zpos ma) (Zpos mb) ltac:(lia) ltac:(lia)) as H.
    change (Zdigits2 (Zpos ma)) with (Zpos (digits2_pos ma)) in H.
    change (Zdigits2 (Zpos mb)) with (Zpos (digits2_pos mb)) in H. lia. }
  unfold SFmul. rewrite Hprod.
  destruct (binary_round_aux_shift (xorb (a <? 0) (b <? 0)) N (- ea - eb) (ea + eb)
              (Zdigits2 N - prec - (ea + eb)) HN ltac:(lia)) as (m & E & Hm).
  - replace (Zdigits2 N + (- ea - eb) + (ea + eb)) with (Zdigits2 N) by lia.
    rewrite (fexp_small _ HdN). lia.
  - lia.
  - rewrite E.
    replace (ea + eb + (Zdigits2 N - prec - (ea + eb))) with (Zdigits2 N - prec) by lia.
    apply holdsInt_intro; [nia | exact Hab | apply sign_mul; assumption |].
    fold N. rewrite Hm. do 2 f_equal. lia.
Qed.

(** The sum of two integers is exact when it fits the format. *)
Lemma SFadd_holdsInt (a b : Z) (x y : spec_float) :
  holdsInt prec a x -> holdsInt prec b y -> Z.abs (a + b) < 2 ^ prec ->
  (a + b = 0 -> SFadd prec emax x y = S754_zero false)
  /\ (a + b <> 0 -> holdsInt prec (a + b) (SFadd prec emax x y)).
Proof.
  intros Hx Hy Hab.
  destruct x as [| | |sa ma ea]; try contradiction.
  destruct y as [| | |sb mb eb]; try contradiction.
  destruct Hx as (-> & Hea & Hma & Hdma). destruct Hy as (-> & Heb & Hmb & Hdmb).
  unfold SFadd.
  set (ez := Z.min ea eb).
  rewrite (shl_align_fst ma ea ez) by (unfold ez; lia).
  rewrite (shl_align_fst mb eb ez) by (unfold ez; lia).
  rewrite Hma, Hmb.
  assert (Hsum : cond_Zopp (a <? 0) (Z.abs a * 2 ^ (- ea) * 2 ^ (ea - ez))
                 + cond_Zopp (b <? 0) (Z.abs b * 2 ^ (- eb) * 2 ^ (eb - ez))
                 = (a + b) * 2 ^ (- ez)).
  { rewrite <- !Z.mul_assoc, <- !Z.pow_add_r by (unfold ez; lia).
    replace (- ea + (ea - ez)) with (- ez) by lia.
    replace (- eb + (eb - ez)) with (- ez) by lia.
    rewrite !cond_Zopp_abs. ring. }
  rewrite Hsum.
  assert (Hp : 0 < 2 ^ (- ez)) by (apply Z.pow_pos_nonneg; unfold ez; lia).
  split.
  - intros H0. rewrite H0. reflexivity.
  - intros Hne. unfold binary_normalize.
    destruct ((a + b) * 2 ^ (- ez)) as [|p|p] eqn:Ep; [nia | |].
    + destruct (binary_round_int false p (Z.abs (a + b)) (- ez)) as (m & E & Hm);
        [lia | unfold ez; lia | nia |].
      replace (- - ez) with ez in E by lia. rewrite E.
      apply holdsInt_intro; [exact Hne | exact Hab | | exact Hm].
      symmetry. apply Z.ltb_ge. nia.
    + destruct (binary_round_int true p (Z.abs (a + b)) (- ez)) as (m & E & Hm);
        [lia | unfold ez; lia | nia |].
      replace (- - ez) with ez in E by lia. rewrite E.
      apply holdsInt_intro; [exact Hne | exact Hab | | exact Hm].
      symmetry. apply Z.ltb_lt. nia.
Qed.
End ExactArith.

(* ------------------------------------------------------------------ *)
(** ** The sign of the angle cosine *)

Ltac f64_unfold := unfold SpecFloat.fexp, SpecFloat.emin, F64.prec, F64.emax in *.

Lemma of_int_exact (z : Z) :
  z <> 0 -> Z.abs z < 9007199254740992 -> holdsInt 53 z (F64.of_int z).
Proof.
  intros Hz Habs. unfold F64.of_int.
  apply (of_Z_holdsInt F64.prec F64.emax eq_refl); f64_unfold; lia.
Qed.

Lemma holdsInt_finite (z : Z) (f : spec_float) :
  holdsInt 53 z f ->
  exists m e, f = S754_finite (z <? 0) m e /\ Zpos (digits2_pos m) = 53 /\ -53 < e <= 0.
Proof.
  intros H. destruct f as [| | |s m e]; try contradiction.
  destruct (holdsInt_exponent 53 _ _ _ _ H) as [He Hd].
  destruct H as (-> & _ & _ & Hdm).
  exists m, e. split; [reflexivity |]. split; [exact Hdm | lia].
Qed.

(** The product of two converted integers. *)
Lemma mul_of_int (a b : Z) :
  Z.abs a < 9007199254740992 -> Z.abs b < 9007199254740992 ->
  Z.abs (a * b) < 9007199254740992 ->
  (a * b = 0 -> IEEE.is_zero (F64.of_int a * F64.of_int b)%f64 = true)
  /\ (a * b <> 0 -> holdsInt 53 (a * b) (F64.of_int a * F64.of_int b)%f64).
Proof.
  intros Ha Hb Hab.
  destruct (Z.eq_dec a 0) as [-> | Hna]; [| destruct (Z.eq_dec b 0) as [-> | Hnb]].
  - split; [intros _ | intros H; lia].
    destruct (Z.eq_dec b 0) as [-> | Hnb]; [reflexivity |].
    destruct (holdsInt_finite b _ (of_int_exact b Hnb Hb)) as (m & e & -> & _).
    reflexivity.
  - split; [intros _ | intros H; lia].
    destruct (holdsInt_finite a _ (of_int_exact a Hna Ha)) as (m & e & -> & _).
    reflexivity.
  - split; [intros H; nia | intros _].
    apply (SFmul_holdsInt F64.prec F64.emax eq_refl);
      try (apply of_int_exact; assumption); f64_unfold; lia.
Qed.

(** The sum of two numbers each of which is a zero or holds an integer. *)
Lemma add_int_or_zero (u v : Z) (x y : F64.t) :
  (u = 0 -> IEEE.is_zero x = true) -> (u <> 0 -> holdsInt 53 u x) ->
  (v = 0 -> IEEE.is_zero y = true) -> (v <> 0 -> holdsInt 53 v y) ->
  Z.abs (u + v) < 9007199254740992 ->
  (u + v = 0 -> IEEE.is_zero (x + y)%f64 = true)
  /\ (u + v <> 0 -> holdsInt 53 (u + v) (x + y)%f64).
Proof.
  intros Hu0 Hu Hv0 Hv Hsum.
  destruct (Z.eq_dec u 0) as [-> | Hnu]; [| destruct (Z.eq_dec v 0) as [-> | Hnv]].
  - specialize (Hu0 eq_refl). destruct x as [sx | | |]; try discriminate.
    destruct (Z.eq_dec v 0) as [-> | Hnv].
    + specialize (Hv0 eq_refl). destruct y as [sy | | |]; try discriminate.
      split; [intros _; destruct sx, sy; reflexivity | intros H; lia].
    + specialize (Hv Hnv). split; [intros H; lia | intros _].
      destruct y as [| | |sy my ey]; try contradiction. exact Hv.
  - specialize (Hv0 eq_refl). destruct y as [sy | | |]; try discriminate.
    specialize (Hu Hnu). split; [intros H; lia | intros _].
    destruct x as [| | |sx mx ex]; try contradiction.
    replace (u + 0) with u by lia. exact Hu.
  - destruct (SFadd_holdsInt F64.prec F64.emax eq_refl ltac:(f64_unfold; lia)
                ltac:(f64_unfold; lia) u v x y (Hu Hnu) (Hv Hnv) Hsum) as [H0 H1].
    split; [intros H; unfold F64.add; rewrite (H0 H); reflexivity | exact H1].
Qed.

(** The square root of a positive number that is not too large is
    finite. *)
Lemma sqrt_fin (m : positive) (e : Z) :
  e <= 84 -> Zpos (digits2_pos m) + e <= 137 ->
  finBound 100 200 (F64.sqrt (S754_finite false m e)).
Proof.
  intros He Hd. unfold F64.sqrt, SFsqrt, SFsqrt_core_binary.
  set (d := Zdigits2 (Zpos m)).
  assert (Hdd : d = Zpos (digits2_pos m)) by reflexivity.
  set (e' := Z.min (SpecFloat.fexp F64.prec F64.emax (Z.div2 (d + e + 1))) (Z.div2 e)).
  assert (He' : e' <= e / 2) by (unfold e'; rewrite <- Z.div2_div; lia).
  set (s := e - 2 * e').
  assert (Hs : 0 <= s) by (unfold s; Z.div_mod_to_equations; lia).
  set (m' := match s with Zpos _ => Z.shiftl (Zpos m) s | 0 => Zpos m | Zneg _ => 0 end).
  assert (Hm' : m' = Zpos m * 2 ^ s).
  { unfold m'. destruct s as [|p|p] eqn:Es; [cbn; lia | | lia].
    rewrite Z.shiftl_mul_pow2 by lia. reflexivity. }
  assert (Hp : 0 < 2 ^ s) by (apply Z.pow_pos_nonneg; lia).
  pose proof (Z.sqrtrem_spec m' ltac:(nia)) as Hsq.
  destruct (Z.sqrtrem m') as [q r]. destruct Hsq as [Hq Hr].
  assert (Hq0 : 0 <= q) by lia.
  set (h := (d + s + 1) / 2).
  assert (Hh : d + s <= 2 * h) by (unfold h; Z.div_mod_to_equations; lia).
  assert (Hdq : Zdigits2 q <= h).
  { apply Zdigits2_le_of_lt; [exact Hq0 | unfold h; Z.div_mod_to_equations; lia |].
    destruct (Z.lt_ge_cases q (2 ^ h)) as [Hlt | Hge]; [exact Hlt | exfalso].
    assert (Hmlt : m' < 2 ^ (d + s)).
    { rewrite Hm', Z.pow_add_r by lia.
      pose proof (digits2_pos_bounds m) as [_ Hhi]. rewrite <- Hdd in Hhi. nia. }
    assert (Hpow : 2 ^ (d + s) <= 2 ^ h * 2 ^ h).
    { rewrite <- Z.pow_add_r by (unfold h; Z.div_mod_to_equations; lia).
      apply Z.pow_le_mono_r; lia. }
    assert (0 < 2 ^ h) by (apply Z.pow_pos_nonneg; unfold h; Z.div_mod_to_equations; lia).
    nia. }
  assert (Hhe : h + e' <= 69).
  { unfold h, s. Z.div_mod_to_equations. lia. }
  apply (binary_round_aux_fin F64.prec F64.emax eq_refl); f64_unfold; try lia.
Qed.

(** The divisor of [angleCos] is a positive finite number when the
    differences are [int]s. *)
Lemma angleCos_den_positive (dx1 dy1 dx2 dy2 : F64.t) :
  finBound 0 32 dx1 -> finBound 0 32 dy1 -> finBound 0 32 dx2 -> finBound 0 32 dy2 ->
  exists md ed, angleCos_den dx1 dy1 dx2 dy2 = S754_finite false md ed
                /\ Zpos (digits2_pos md) + ed <= 200.
Proof.
  intros Hx1 Hy1 Hx2 Hy2.
  pose proof (angleCos_den_nonzero dx1 dy1 dx2 dy2) as Hnz.
  unfold angleCos_den in *.
  assert (Hmul : forall a b, finBound 0 32 a -> finBound 0 32 b -> finBound 12 65 (a * b)%f64).
  { intros a b Ha Hb.
    apply (SFmul_fin F64.prec F64.emax eq_refl 0 32 0 32); try assumption; f64_bound. }
  assert (Hadd : forall a b, finBound 12 65 a -> finBound 12 65 b -> finBound 14 67 (a + b)%f64).
  { intros a b Ha Hb.
    apply (SFadd_fin F64.prec F64.emax eq_refl 12 65 12 65); try assumption; f64_bound. }
  assert (HX : finBound 82 135 ((dx1 * dx1 + dy1 * dy1) * (dx2 * dx2 + dy2 * dy2))%f64).
  { apply (SFmul_fin F64.prec F64.emax eq_refl 14 67 14 67); auto; f64_bound. }
  assert (HY : finBound 84 137
                 ((dx1 * dx1 + dy1 * dy1) * (dx2 * dx2 + dy2 * dy2) + F64.c_1em10)%f64).
  { apply (SFadd_fin F64.prec F64.emax eq_refl 82 135 (-86) (-33)); try exact HX;
      try f64_bound. cbn. lia. }
  assert (HA : aboveBit (-33)
                 ((dx1 * dx1 + dy1 * dy1) * (dx2 * dx2 + dy2 * dy2) + F64.c_1em10)%f64).
  { apply (SFadd_aboveBit F64.prec F64.emax eq_refl _ 7737125245533627 (-86)); [reflexivity |].
    apply (SFmul_notNegative F64.prec F64.emax);
      (apply (SFadd_notNegative F64.prec F64.emax);
       apply (SFmul_self_notNegative F64.prec F64.emax)). }
  destruct ((dx1 * dx1 + dy1 * dy1) * (dx2 * dx2 + dy2 * dy2) + F64.c_1em10)%f64
    as [sr | sr | | sr mr er]; cbn [finBound aboveBit] in HY, HA; try contradiction.
  destruct sr; [contradiction |].
  pose proof (sqrt_fin mr er (proj1 HY) (proj2 HY)) as Hfin.
  assert (Hcases : F64.sqrt (S754_finite false mr er) = S754_zero false
                   \/ (exists m e, F64.sqrt (S754_finite false mr er) = S754_finite false m e)
                   \/ F64.sqrt (S754_finite false mr er) = S754_infinity false).
  { unfold F64.sqrt, SFsqrt.
    destruct (SFsqrt_core_binary F64.prec F64.emax (Zpos mr) er) as [[q e'] l] eqn:Ecore.
    apply binary_round_aux_cases.
    unfold SFsqrt_core_binary in Ecore.
    pose proof (Z.sqrtrem_spec
                  (match er - 2 * Z.min (SpecFloat.fexp F64.prec F64.emax
                                           (Z.div2 (Zdigits2 (Zpos mr) + er + 1)))
                                        (Z.div2 er) with
                   | 0 => Zpos mr
                   | Zpos _ => Z.shiftl (Zpos mr)
                                 (er - 2 * Z.min (SpecFloat.fexp F64.prec F64.emax
                                                    (Z.div2 (Zdigits2 (Zpos mr) + er + 1)))
                                                 (Z.div2 er))
                   | Zneg _ => 0
                   end)) as Hsq.
    destruct (Z.sqrtrem _) as [q0 r0]. inversion Ecore; subst.
    assert (H0 : 0 <= match er - 2 * Z.min (SpecFloat.fexp F64.prec F64.emax
                                           (Z.div2 (Zdigits2 (Zpos mr) + er + 1)))
                                        (Z.div2 er) with
                   | 0 => Zpos mr
                   | Zpos _ => Z.shiftl (Zpos mr)
                                 (er - 2 * Z.min (SpecFloat.fexp F64.prec F64.emax
                                                    (Z.div2 (Zdigits2 (Zpos mr) + er + 1)))
                                                 (Z.div2 er))
                   | Zneg _ => 0
                   end).
    { destruct (er - 2 * _); [lia | | lia]. apply Z.shiftl_nonneg. lia. }
    specialize (Hsq H0). lia. }
  destruct Hcases as [E | [(m & e & E) | E]]; rewrite E in *; cbn [finBound] in Hfin.
  - discriminate Hnz.
  - exists m, e. split; [reflexivity | lia].
  - contradiction.
Qed.

(** A number that holds a non-zero integer, divided by a positive finite
    number: the quotient is not a zero and has the sign of the integer. *)
Lemma div_int_by_positive (z : Z) (x : F64.t) (md : positive) (ed : Z) :
  holdsInt 53 z x -> Zpos (digits2_pos md) + ed <= 200 ->
  (exists m e, (x / S754_finite false md ed)%f64 = S754_finite (z <? 0) m e)
  \/ (x / S754_finite false md ed)%f64 = S754_infinity (z <? 0).
Proof.
  intros Hx Hden.
  destruct (holdsInt_finite z x Hx) as (m1 & e1 & -> & Hd1 & He1).
  unfold F64.div, SFdiv, SFdiv_core_binary. cbn [Zdigits2]. rewrite Hd1.
  replace (SpecFloat.fexp F64.prec F64.emax (53 + e1 - (Zpos (digits2_pos md) + ed)))
    with (e1 - Zpos (digits2_pos md) - ed) by (f64_unfold; lia).
  replace (Z.min (e1 - Zpos (digits2_pos md) - ed) (e1 - ed))
    with (e1 - Zpos (digits2_pos md) - ed) by lia.
  replace (e1 - ed - (e1 - Zpos (digits2_pos md) - ed)) with (Zpos (digits2_pos md)) by lia.
  cbv beta iota. rewrite Z.shiftl_mul_pow2 by lia.
  set (d2 := Zpos (digits2_pos md)) in *.
  pose proof (digits2_pos_bounds md) as [_ Hhi]. fold d2 in Hhi.
  pose proof (Z_div_mod (Zpos m1 * 2 ^ d2) (Zpos md) eq_refl) as Hdm.
  destruct (Z.div_eucl (Zpos m1 * 2 ^ d2) (Zpos md)) as [q r]. destruct Hdm as [Hq Hr].
  assert (Hq1 : 1 <= q) by nia.
  destruct (Zdigits2_bounds q ltac:(lia)) as (Hdq & _).
  rewrite xorb_false_r.
  destruct (binary_round_aux_pos F64.prec F64.emax eq_refl (z <? 0) q (e1 - d2 - ed)
              (new_location (Zpos md) r) ltac:(lia) ltac:(f64_unfold; lia))
    as [(m & e & E & _) | E]; [left; exists m, e; exact E | right; exact E].
Qed.

Lemma small_sub (x y : Z) :
  Z.abs x < 33554432 -> Z.abs y < 33554432 ->
  CInt.sub x y = x - y /\ Z.abs (x - y) < 67108864.
Proof.
  intros Hx Hy. unfold CInt.sub. split; [apply wrap_small; unfold CInt.in_range |]; lia.
Qed.

(** The dividend of [angleCos] is the dot product of the two edges. *)
Lemma angleCos_num (a b c d : Z) :
  Z.abs a < 67108864 -> Z.abs b < 67108864 -> Z.abs c < 67108864 -> Z.abs d < 67108864 ->
  let num := (F64.of_int a * F64.of_int c + F64.of_int b * F64.of_int d)%f64 in
  (a * c + b * d = 0 -> IEEE.is_zero num = true)
  /\ (a * c + b * d <> 0 -> holdsInt 53 (a * c + b * d) num).
Proof.
  intros Ha Hb Hc Hd num.
  destruct (mul_of_int a c ltac:(lia) ltac:(lia) ltac:(nia)) as [P0 P1].
  destruct (mul_of_int b d ltac:(lia) ltac:(lia) ltac:(nia)) as [Q0 Q1].
  apply add_int_or_zero; try assumption. nia.
Qed.

Lemma angleCos_by_dot (p1 p2 p0 : Point) :
  Forall (fun p => Z.abs (px p) < 33554432 /\ Z.abs (py p) < 33554432) [p1; p2; p0] ->
  (edgeDot p1 p2 p0 = 0 -> exists s, angleCos p1 p2 p0 = S754_zero s)
  /\ (edgeDot p1 p2 p0 <> 0 ->
      (exists m e, angleCos p1 p2 p0 = S754_finite (edgeDot p1 p2 p0 <? 0) m e)
      \/ angleCos p1 p2 p0 = S754_infinity (edgeDot p1 p2 p0 <? 0)).
Proof.
  intros Hall.
  inversion Hall as [|? ? [H1x H1y] Hall1]; subst.
  inversion Hall1 as [|? ? [H2x H2y] Hall2]; subst.
  inversion Hall2 as [|? ? [H0x H0y] _]; subst.
  unfold angleCos, edgeDot.
  pose proof (wrapped_fin (px p1 - px p0)) as Fx1. pose proof (wrapped_fin (py p1 - py p0)) as Fy1.
  pose proof (wrapped_fin (px p2 - px p0)) as Fx2. pose proof (wrapped_fin (py p2 - py p0)) as Fy2.
  fold (CInt.sub (px p1) (px p0)) in Fx1. fold (CInt.sub (py p1) (py p0)) in Fy1.
  fold (CInt.sub (px p2) (px p0)) in Fx2. fold (CInt.sub (py p2) (py p0)) in Fy2.
  destruct (angleCos_den_positive _ _ _ _ Fx1 Fy1 Fx2 Fy2) as (md & ed & -> & Hden).
  destruct (small_sub _ _ H1x H0x) as [-> Ha]. destruct (small_sub _ _ H1y H0y) as [-> Hb].
  destruct (small_sub _ _ H2x H0x) as [-> Hc]. destruct (small_sub _ _ H2y H0y) as [-> Hd].
  destruct (angleCos_num _ _ _ _ Ha Hb Hc Hd) as [N0 N1].
  split.
  - intros H0. specialize (N0 H0).
    destruct (_ + _)%f64 as [sn | | |]; try discriminate. eexists. reflexivity.
  - intros Hne. apply div_int_by_positive; [apply N1; exact Hne | exact Hden].
Qed.

(** X21: the angle cosine has the sign of the dot product of the two
    edges: it is a zero exactly when the edges are perpendicular, positive
    exactly at an acute corner and negative exactly at an obtuse one
    (coordinates below 2^25 in absolute value, so that the dot product is
    exact in double precision). *)
Theorem angleCos_sign_is_sign_of_dot_product :
  forall p1 p2 p0 : Point,
    Forall (fun p => Z.abs (px p) < 33554432 /\ Z.abs (py p) < 33554432) [p1; p2; p0] ->
    (IEEE.is_zero (angleCos p1 p2 p0) = true <-> edgeDot p1 p2 p0 = 0)
    /\ (F64.ltb F64.zero (angleCos p1 p2 p0) = true <-> 0 < edgeDot p1 p2 p0)
    /\ (F64.ltb (angleCos p1 p2 p0) F64.zero = true <-> edgeDot p1 p2 p0 < 0).
Proof.
  intros p1 p2 p0 Hall.
  destruct (angleCos_by_dot p1 p2 p0 Hall) as [H0 H1].
  destruct (Z.eq_dec (edgeDot p1 p2 p0) 0) as [E | N].
  - destruct (H0 E) as (s & ->). rewrite E.
    repeat split; intros H; try reflexivity; try lia; destruct s; discriminate H.
  - assert (Hs : (edgeDot p1 p2 p0 <? 0) = true /\ edgeDot p1 p2 p0 < 0
                 \/ (edgeDot p1 p2 p0 <? 0) = false /\ 0 < edgeDot p1 p2 p0).
    { destruct (Z.ltb_spec (edgeDot p1 p2 p0) 0); [left | right]; split; try reflexivity; lia. }
    destruct (H1 N) as [(m & e & ->) | ->]; destruct Hs as [[-> Hs] | [-> Hs]];
      repeat split; intros H; try reflexivity; try lia; discriminate H.
Qed.

Lemma angleCos_sign_is_sign_of_dot_product_witness :
  IEEE.is_zero (angleCos (mkPoint 13 14) (mkPoint 6 13) (mkPoint 10 10)) = true
  <-> edgeDot (mkPoint 13 14) (mkPoint 6 13) (mkPoint 10 10) = 0.
Proof.
  refine (proj1 (angleCos_sign_is_sign_of_dot_product
                   (mkPoint 13 14) (mkPoint 6 13) (mkPoint 10 10) _)).
  repeat constructor; cbn; lia.
Defined.

(* ------------------------------------------------------------------ *)
(** ** The background colour of the colour-distance strategy *)

(** The sum of two converted integers is the converted sum. *)
Lemma add_of_int (u v : Z) :
  Z.abs u < 9007199254740992 -> Z.abs v < 9007199254740992 ->
  Z.abs (u + v) < 9007199254740992 ->
  (F64.of_int u + F64.of_int v)%f64 = F64.of_int (u + v).
Proof.
  intros Hu Hv Huv.
  destruct (Z.eq_dec u 0) as [-> | Hnu]; [| destruct (Z.eq_dec v 0) as [-> | Hnv]].
  - destruct (Z.eq_dec v 0) as [-> | Hnv]; [reflexivity |].
    destruct (holdsInt_finite v _ (of_int_exact v Hnv Hv)) as (m & e & E & _).
    cbn [Z.add]. rewrite E. reflexivity.
  - destruct (holdsInt_finite u _ (of_int_exact u Hnu Hu)) as (m & e & E & _).
    rewrite Z.add_0_r, E. reflexivity.
  - destruct (SFadd_holdsInt F64.prec F64.emax eq_refl ltac:(f64_unfold; lia)
                ltac:(f64_unfold; lia) u v _ _ (of_int_exact u Hnu Hu)
                (of_int_exact v Hnv Hv) Huv) as [H0 H1].
    destruct (Z.eq_dec (u + v) 0) as [E | N].
    + unfold F64.add. rewrite (H0 E), E. reflexivity.
    + apply (holdsInt_unique 53 (u + v)); [apply H1; exact N | apply of_int_exact; assumption].
Qed.

Section BackgroundColour.
Context {cv : OpenCV}.

Lemma channelTotal_app (bgr : Mat) (c : Z) (l1 l2 : list (Z * Z)) :
  channelTotal bgr c (l1 ++ l2) = channelTotal bgr c l1 + channelTotal bgr c l2.
Proof.
  unfold channelTotal. induction l1 as [|p tl IH]; cbn [app fold_right]; [reflexivity |].
  rewrite IH. ring.
Qed.

Lemma channelTotal_bounds (bgr : Mat) (c : Z) (l : list (Z * Z)) :
  (forall y x c, 0 <= at_vec3b bgr y x c <= 255) ->
  0 <= channelTotal bgr c l <= 255 * Z.of_nat (length l).
Proof.
  intros Hbyte. unfold channelTotal.
  induction l as [|p tl IH]; cbn [fold_right length]; [lia |].
  pose proof (Hbyte (fst p) (snd p) c). lia.
Qed.

(** The sums after the passes through a border loop. *)
Lemma borderStep_totals {X : Type} (bgr : Mat) (ya xa yb xb : X -> Z) (l : list X) :
  (forall y x c, 0 <= at_vec3b bgr y x c <= 255) ->
  forall (B G R n : Z),
    0 <= B -> 0 <= G -> 0 <= R ->
    B + 510 * Z.of_nat (length l) < 9007199254740992 ->
    G + 510 * Z.of_nat (length l) < 9007199254740992 ->
    R + 510 * Z.of_nat (length l) < 9007199254740992 ->
    let visited := flat_map (fun x => [(ya x, xa x); (yb x, xb x)]) l in
    fst (fold_left (fun acc x => borderStep bgr (ya x) (xa x) (yb x) (xb x) acc) l
                   (F64.of_int B, F64.of_int G, F64.of_int R, n))
    = (F64.of_int (B + channelTotal bgr 0 visited),
       F64.of_int (G + channelTotal bgr 1 visited),
       F64.of_int (R + channelTotal bgr 2 visited)).
Proof.
  intros Hbyte. induction l as [|x tl IH]; intros B G R n HB HG HR LB LG LR visited.
  - cbn. rewrite !Z.add_0_r. reflexivity.
  - cbn [fold_left]. unfold borderStep at 2.
    assert (Hstep : forall c T, 0 <= T -> T + 510 * Z.of_nat (length (x :: tl)) < 9007199254740992 ->
              (F64.of_int T + F64.of_int (CInt.add (at_vec3b bgr (ya x) (xa x) c)
                                                    (at_vec3b bgr (yb x) (xb x) c)))%f64
              = F64.of_int (T + (at_vec3b bgr (ya x) (xa x) c + at_vec3b bgr (yb x) (xb x) c))
              /\ 0 <= T + (at_vec3b bgr (ya x) (xa x) c + at_vec3b bgr (yb x) (xb x) c)
              /\ T + (at_vec3b bgr (ya x) (xa x) c + at_vec3b bgr (yb x) (xb x) c)
                 + 510 * Z.of_nat (length tl) < 9007199254740992).
    { intros c T HT LT. cbn [length] in LT.
      pose proof (Hbyte (ya x) (xa x) c). pose proof (Hbyte (yb x) (xb x) c).
      unfold CInt.add. rewrite wrap_small by (unfold CInt.in_range; lia).
      split; [apply add_of_int; lia | lia]. }
    destruct (Hstep 0 B HB LB) as (-> & HB' & LB').
    destruct (Hstep 1 G HG LG) as (-> & HG' & LG').
    destruct (Hstep 2 R HR LR) as (-> & HR' & LR').
    rewrite (IH _ _ _ _ HB' HG' HR' LB' LG' LR').
    unfold visited. cbn [flat_map app]. unfold channelTotal. cbn [fold_right fst snd].
    apply f_equal2; [apply f_equal2 |]; apply f_equal; ring.
Qed.

Lemma borderPixels_length (bgr : Mat) :
  Z.of_nat (length (borderPixels bgr))
  = 2 * Z.of_nat (length (stride2 0 (cols bgr)))
    + 2 * Z.of_nat (length (stride2 1 (rows bgr - 1))).
Proof.
  unfold borderPixels. rewrite length_app.
  assert (H : forall (X : Type) (f g : X -> Z * Z) (l : list X),
            length (flat_map (fun x => [f x; g x]) l) = (2 * length l)%nat).
  { intros X f g l. induction l as [|x tl IH]; cbn [flat_map length app]; lia. }
  rewrite !H. lia.
Qed.

Lemma borderSums_exact (bgr : Mat) :
  1 <= rows bgr -> 1 <= cols bgr -> rows bgr + cols bgr < 2147483648 ->
  (forall y x c, 0 <= at_vec3b bgr y x c <= 255) ->
  borderSums bgr
  = (F64.of_int (channelTotal bgr 0 (borderPixels bgr)),
     F64.of_int (channelTotal bgr 1 (borderPixels bgr)),
     F64.of_int (channelTotal bgr 2 (borderPixels bgr)),
     Z.of_nat (length (borderPixels bgr))).
Proof.
  intros Hr Hc Hsum Hbyte.
  pose proof (borderCount_value bgr Hr Hc Hsum) as Hn.
  assert (L1 : Z.of_nat (length (stride2 0 (cols bgr))) = (cols bgr + 1) / 2).
  { rewrite stride2_length. replace (cols bgr - 0 + 1) with (cols bgr + 1) by lia.
    rewrite Z2Nat.id; [reflexivity | Z.div_mod_to_equations; lia]. }
  assert (L2 : Z.of_nat (length (stride2 1 (rows bgr - 1))) = (rows bgr - 1) / 2).
  { rewrite stride2_length. replace (rows bgr - 1 - 1 + 1) with (rows bgr - 1) by lia.
    rewrite Z2Nat.id; [reflexivity | Z.div_mod_to_equations; lia]. }
  assert (B1 : 0 <= (cols bgr + 1) / 2 <= cols bgr) by (Z.div_mod_to_equations; lia).
  assert (B2 : 0 <= (rows bgr - 1) / 2 <= rows bgr) by (Z.div_mod_to_equations; lia).
  rewrite (surjective_pairing (borderSums bgr)), Hn. f_equal.
  - rewrite borderSums_fold.
    unfold CInt.sub. rewrite !wrap_small by (unfold CInt.in_range; lia).
    set (first_loop := fold_left _ (stride2 0 (cols bgr)) _).
    pose proof (borderStep_totals bgr (fun _ => 0) (fun x => x) (fun _ => rows bgr - 1)
                  (fun x => x) (stride2 0 (cols bgr)) Hbyte 0 0 0 0
                  ltac:(lia) ltac:(lia) ltac:(lia) ltac:(lia) ltac:(lia) ltac:(lia)) as H1.
    cbv beta zeta in H1. change (F64.of_int 0) with F64.zero in H1. fold first_loop in H1.
    set (v1 := flat_map (fun x => [(0, x); (rows bgr - 1, x)]) (stride2 0 (cols bgr))) in *.
    assert (Hv1 : Z.of_nat (length v1) = 2 * Z.of_nat (length (stride2 0 (cols bgr)))).
    { unfold v1. generalize (stride2 0 (cols bgr)). intros l.
      induction l as [|x tl IH]; cbn [flat_map length app] in *; lia. }
    rewrite (surjective_pairing first_loop), H1.
    pose proof (channelTotal_bounds bgr 0 v1 Hbyte) as T0.
    pose proof (channelTotal_bounds bgr 1 v1 Hbyte) as T1.
    pose proof (channelTotal_bounds bgr 2 v1 Hbyte) as T2.
    rewrite (borderStep_totals bgr (fun y => y) (fun _ => 0) (fun y => y)
               (fun _ => cols bgr - 1) (stride2 1 (rows bgr - 1)) Hbyte) by lia.
    unfold borderPixels. fold v1. rewrite !channelTotal_app. reflexivity.
  - rewrite borderPixels_length. lia.
Qed.
End BackgroundColour.

(** X22: when the pixel values are bytes, the three sums that
    [findByColorDistance] takes over the border are exact: each is the
    integer sum of its channel over the visited border pixels, and the count
    is the number of these pixels; so each mean is that sum divided by that
    number, rounded once.  (The image has a row and a column, and rows +
    cols fits an [int].) *)
Theorem border_sums_are_exact :
  forall (cv : OpenCV) (bgr : Mat),
    1 <= rows bgr -> 1 <= cols bgr -> rows bgr + cols bgr < 2147483648 ->
    (forall y x c, 0 <= at_vec3b bgr y x c <= 255) ->
    let n := Z.of_nat (length (borderPixels bgr)) in
    borderSums bgr
    = (F64.of_int (channelTotal bgr 0 (borderPixels bgr)),
       F64.of_int (channelTotal bgr 1 (borderPixels bgr)),
       F64.of_int (channelTotal bgr 2 (borderPixels bgr)), n)
    /\ borderMeans bgr
       = ((F64.of_int (channelTotal bgr 0 (borderPixels bgr)) / F64.of_int n)%f64,
          (F64.of_int (channelTotal bgr 1 (borderPixels bgr)) / F64.of_int n)%f64,
          (F64.of_int (channelTotal bgr 2 (borderPixels bgr)) / F64.of_int n)%f64)
    /\ Forall (fun yx => 0 <= fst yx < rows bgr /\ 0 <= snd yx < cols bgr) (borderPixels bgr).
Proof.
  intros cv bgr Hr Hc Hsum Hbyte n.
  pose proof (borderSums_exact bgr Hr Hc Hsum Hbyte) as E.
  split; [exact E |]. split.
  - unfold borderMeans. rewrite E. reflexivity.
  - unfold borderPixels. apply Forall_app. split; apply Forall_forall; intros yx Hin;
      apply in_flat_map in Hin as (i & Hi & Hyx); apply stride2_range in Hi;
      destruct Hyx as [<- | [<- | []]]; cbn [fst snd]; lia.
Qed.

Lemma border_sums_are_exact_witness :
  borderSums (cv := Ref.cv) Ref.photo
  = (F64.of_int 1258, F64.of_int 1074, F64.of_int 1402, 12)
  /\ borderMeans (cv := Ref.cv) Ref.photo
     = ((F64.of_int 1258 / F64.of_int 12)%f64,
        (F64.of_int 1074 / F64.of_int 12)%f64,
        (F64.of_int 1402 / F64.of_int 12)%f64)
  /\ at_vec3b (OpenCV := Ref.cv) Ref.photo 5 6 2 = 140.
Proof.
  assert (Hbyte : forall y x c, 0 <= at_vec3b (OpenCV := Ref.cv) Ref.photo y x c <= 255).
  { intros y x c.
    change (at_vec3b (OpenCV := Ref.cv) Ref.photo y x c)
      with ((37 * y + 11 * x + 70 * c + 5) mod 256).
    pose proof (Z.mod_pos_bound (37 * y + 11 * x + 70 * c + 5) 256 ltac:(lia)). lia. }
  assert (Hr : 1 <= rows (OpenCV := Ref.cv) Ref.photo) by (vm_compute; intros H; discriminate H).
  assert (Hc : 1 <= cols (OpenCV := Ref.cv) Ref.photo) by (vm_compute; intros H; discriminate H).
  assert (Hsum : rows (OpenCV := Ref.cv) Ref.photo + cols (OpenCV := Ref.cv) Ref.photo < 2147483648)
    by (vm_compute; reflexivity).
  destruct (border_sums_are_exact Ref.cv Ref.photo Hr Hc Hsum Hbyte) as (Hs & Hm & _).
  assert (E0 : channelTotal (cv := Ref.cv) Ref.photo 0 (borderPixels (cv := Ref.cv) Ref.photo) = 1258)
    by (vm_compute; reflexivity).
  assert (E1 : channelTotal (cv := Ref.cv) Ref.photo 1 (borderPixels (cv := Ref.cv) Ref.photo) = 1074)
    by (vm_compute; reflexivity).
  assert (E2 : channelTotal (cv := Ref.cv) Ref.photo 2 (borderPixels (cv := Ref.cv) Ref.photo) = 1402)
    by (vm_compute; reflexivity).
  assert (En : Z.of_nat (length (borderPixels (cv := Ref.cv) Ref.photo)) = 12)
    by (vm_compute; reflexivity).
  rewrite E0, E1, E2, En in Hs, Hm.
  split; [exact Hs |]. split; [exact Hm |]. vm_compute; reflexivity.
Defined.

(* ------------------------------------------------------------------ *)
(** ** The contours that are examined *)

Lemma StronglySorted_nth {A : Type} (R : A -> A -> Prop) (d : A) (l : list A) :
  StronglySorted R l ->
  forall i j, (i < j)%nat -> (j < length l)%nat -> R (nth i l d) (nth j l d).
Proof.
  induction 1 as [|x tl Hs IH Hall]; intros i j Hij Hj; cbn [length] in Hj; [lia |].
  destruct j as [|j]; [lia |]. destruct i as [|i]; cbn [nth].
  - rewrite Forall_forall in Hall. apply Hall. apply nth_In. lia.
  - apply IH; lia.
Qed.

(** X23: when [std::sort] meets its contract and no contour area is a
    NaN, the contours that [collectQuads] examines are the largest ones: the
    sorted list holds the contours that were found, and a contour at an
    index below 20 is at least as large as every contour at an index from 20
    on, which is not examined. *)
Theorem collectQuads_examines_largest_contours :
  forall (cv : OpenCV) (std_sort : sort_fn) (clean : Mat),
    let found := findContours clean RETR_EXTERNAL CHAIN_APPROX_SIMPLE in
    let sorted := sortedContours std_sort clean in
    sort_contract (fun a b => (contourArea a >? contourArea b)%f64) found sorted ->
    Forall (fun c => IEEE.is_nan (contourArea c) = false) found ->
    Permutation found sorted
    /\ forall i j, (i < 20)%nat -> (20 <= j)%nat -> (j < length sorted)%nat ->
         F64.leb (contourArea (nth j sorted [])) (contourArea (nth i sorted [])) = true.
Proof.
  intros cv std_sort clean found sorted [Hperm Hsorted] Hnan.
  split; [exact Hperm |].
  intros i j Hi Hj Hlen.
  pose proof (StronglySorted_nth _ [] sorted Hsorted i j ltac:(lia) Hlen) as Hij.
  cbv beta in Hij. unfold F64.gtb in Hij.
  assert (Hn : forall k, (k < length sorted)%nat ->
                         IEEE.is_nan (contourArea (nth k sorted [])) = false).
  { intros k Hk. rewrite Forall_forall in Hnan. apply Hnan.
    apply (Permutation_in _ (Permutation_sym Hperm)). apply nth_In. exact Hk. }
  apply ltb_false_leb; [apply Hn; lia | apply Hn; exact Hlen | exact Hij].
Qed.

Lemma collectQuads_examines_largest_contours_witness :
  F64.leb (contourArea (OpenCV := Ref.cv)
             (nth 20 (sortedContours (cv := Ref.cv) Ref.sort (Ref.crowdedMask Ref.speckA)) []))
          (contourArea (OpenCV := Ref.cv)
             (nth 0 (sortedContours (cv := Ref.cv) Ref.sort (Ref.crowdedMask Ref.speckA)) []))
  = true.
Proof.
  assert (E : sortedContours (cv := Ref.cv) Ref.sort (Ref.crowdedMask Ref.speckA)
              = repeat Ref.smallDiamond 20 ++ [Ref.speckA])
    by (vm_compute; reflexivity).
  refine (proj2 (collectQuads_examines_largest_contours Ref.cv Ref.sort
                   (Ref.crowdedMask Ref.speckA) _ _) 0%nat 20%nat _ _ _).
  - split.
    + rewrite E. apply Permutation_cons_append.
    + rewrite E. cbn [repeat app].
      repeat first [apply SSorted_nil | apply SSorted_cons | apply Forall_nil
                   | apply Forall_cons]; vm_compute; reflexivity.
  - change (findContours (OpenCV := Ref.cv) (Ref.crowdedMask Ref.speckA)
              RETR_EXTERNAL CHAIN_APPROX_SIMPLE)
      with (Ref.speckA :: repeat Ref.smallDiamond 20).
    cbn [repeat].
    repeat first [apply Forall_nil | apply Forall_cons]; vm_compute; reflexivity.
  - lia.
  - lia.
  - rewrite E. cbn. lia.
Defined.

(* ------------------------------------------------------------------ *)
(** ** The edge score is a number *)

Section NonNegative.
Variables prec emax : Z.

Lemma SFadd_nonNegative (x y : spec_float) :
  nonNegative x -> nonNegative y -> nonNegative (SFadd prec emax x y).
Proof.
  intros [Hnx Hx] [Hny Hy]. split; [| apply SFadd_notNegative; assumption].
  destruct x as [[] | [] | | [] mx ex]; destruct y as [[] | [] | | [] my ey];
    cbn [SFadd notNegative IEEE.is_nan] in *; try discriminate; try tauto; try reflexivity.
  cbn [cond_Zopp]. rewrite <- Pos2Z.inj_add. cbn [binary_normalize].
  destruct (binary_round_cases prec emax false
              (fst (shl_align mx ex (Z.min ex ey)) + fst (shl_align my ey (Z.min ex ey)))
              (Z.min ex ey))
    as [-> | [(m' & e' & ->) | ->]]; reflexivity.
Qed.

Lemma convert_nonNegative (x : spec_float) :
  nonNegative x -> nonNegative (IEEE.convert prec emax x).
Proof.
  intros [Hnx Hx].
  destruct x as [sx | sx | | [] mx ex]; cbn [IEEE.convert notNegative] in *;
    try discriminate; try tauto; try (split; assumption).
  destruct (binary_round_cases prec emax false mx ex) as [-> | [(m' & e' & ->) | ->]];
    split; first [reflexivity | exact I].
Qed.

(** A number that is not negative, divided by a positive finite number. *)
Lemma SFdiv_nonNegative (x : spec_float) (m : positive) (e : Z) :
  nonNegative x -> nonNegative (SFdiv prec emax x (S754_finite false m e)).
Proof.
  intros [Hnx Hx].
  destruct x as [sx | [] | | [] mx ex]; cbn [SFdiv notNegative IEEE.is_nan] in *;
    try discriminate; try tauto; try (split; first [reflexivity | exact I]).
  unfold SFdiv_core_binary.
  set (e' := Z.min _ _). set (m' := match _ with 0 => _ | _ => _ end).
  assert (Hm' : 0 <= m').
  { unfold m'. destruct (ex - e - e') as [|p|p]; try lia. apply Z.shiftl_nonneg. lia. }
  pose proof (Z.div_pos m' (Zpos m) Hm' ltac:(lia)) as Hq. unfold Z.div in Hq.
  destruct (Z.div_eucl m' (Zpos m)) as [q r].
  destruct (binary_round_aux_cases prec emax (xorb false false) q e'
              (new_location (Zpos m) r) Hq)
    as [-> | [(m2 & e2 & ->) | ->]]; split; first [reflexivity | exact I].
Qed.
End NonNegative.

Lemma fold_left_invariant {A B : Type} (P : B -> Prop) (f : B -> A -> B) (l : list A) :
  (forall b x, P b -> P (f b x)) -> forall b, P b -> P (fold_left f l b).
Proof.
  intros Hstep. induction l as [|x tl IH]; intros b Hb; cbn [fold_left]; [exact Hb |].
  apply IH. apply Hstep. exact Hb.
Qed.

(** A positive [int] converts to a positive finite double. *)
Lemma of_int_positive (n : Z) :
  0 < n < 2147483648 -> exists m e, F64.of_int n = S754_finite false m e.
Proof.
  intros Hn.
  destruct (holdsInt_finite n _ (of_int_exact n ltac:(lia) ltac:(lia))) as (m & e & E & _).
  exists m, e. rewrite E.
  replace (n <? 0) with false by (symmetry; apply Z.ltb_ge; lia). reflexivity.
Qed.

Section EdgeScoreNumber.
Context {cv : OpenCV}.
Variable gradMag : Mat.
Hypothesis gradient_nonNegative :
  forall y x, inBounds gradMag x y = true -> nonNegative (at_float gradMag y x).

(** What the loops keep: the sum is a number that is not negative, and
    the count is an [int]. *)
#[local] Abbreviation sumOk :=
  (fun acc : F64.t * Z => nonNegative (fst acc) /\ CInt.in_range (snd acc)).

Lemma sampleStep_sumOk (p1 p2 : Point) (nSamples : Z) (acc : F64.t * Z) (s : Z) :
  sumOk acc -> sumOk (sampleStep gradMag p1 p2 nSamples acc s).
Proof.
  destruct acc as [total count]. cbn [fst snd]. intros [Ht Hc]. unfold sampleStep.
  destruct (samplePoint p1 p2 nSamples s) as [x y].
  destruct (inBounds gradMag x y) eqn:Hb; cbn [fst snd]; [| split; assumption].
  split; [| apply wrap_in_range].
  apply SFadd_nonNegative; [exact Ht |].
  apply convert_nonNegative. apply gradient_nonNegative. exact Hb.
Qed.

Lemma edgeStep_sumOk (quad : list Point) (acc : F64.t * Z) (i : nat) :
  sumOk acc -> sumOk (edgeStep quad gradMag acc i).
Proof.
  intros H. unfold edgeStep.
  apply (fold_left_invariant sumOk); [| exact H].
  intros b s Hb. apply sampleStep_sumOk. exact Hb.
Qed.

Lemma computeEdgeScore_nonNegative (quad : list Point) :
  nonNegative (computeEdgeScore quad gradMag).
Proof.
  unfold computeEdgeScore.
  assert (H : sumOk (fold_left (edgeStep quad gradMag) (seq 0 4) (F64.zero, 0))).
  { apply (fold_left_invariant sumOk).
    - intros b i Hb. apply edgeStep_sumOk. exact Hb.
    - cbn [fst snd]. split; [split; [reflexivity | exact I] | unfold CInt.in_range; lia]. }
  destruct (fold_left (edgeStep quad gradMag) (seq 0 4) (F64.zero, 0)) as [total count].
  cbn [fst snd] in H. destruct H as [Ht Hc].
  destruct (Z.ltb_spec 0 count) as [Hpos | Hle]; [| split; [reflexivity | exact I]].
  destruct (of_int_positive count ltac:(unfold CInt.in_range in Hc; lia)) as (m & e & ->).
  apply SFdiv_nonNegative. exact Ht.
Qed.
End EdgeScoreNumber.

(** X24: when every entry of the gradient map is a number that is not
    negative (a magnitude, plus infinity included), the edge score of every
    quad, of 4 points or not, is a number that is not negative: never a
    NaN, so that the scores can be compared. *)
Theorem computeEdgeScore_is_a_number :
  forall (cv : OpenCV) (gradMag : Mat),
    (forall y x, inBounds gradMag x y = true -> nonNegative (at_float gradMag y x)) ->
    forall quad : list Point,
      IEEE.is_nan (computeEdgeScore quad gradMag) = false
      /\ notNegative (computeEdgeScore quad gradMag)
      /\ F64.ltb (computeEdgeScore quad gradMag) F64.zero = false.
Proof.
  intros cv gradMag Hgrad quad.
  destruct (computeEdgeScore_nonNegative gradMag Hgrad quad) as [Hnan Hnn].
  split; [exact Hnan |]. split; [exact Hnn |].
  destruct (computeEdgeScore quad gradMag) as [s | [] | | [] m e];
    cbn in Hnn; try contradiction; reflexivity.
Qed.

Lemma computeEdgeScore_is_a_number_witness :
  IEEE.is_nan (computeEdgeScore (cv := Ref.cv) Ref.diamond
                 (Ref.flatMap 200 200 (F32.of_int 7))) = false.
Proof.
  refine (proj1 (computeEdgeScore_is_a_number Ref.cv (Ref.flatMap 200 200 (F32.of_int 7))
                   _ Ref.diamond)).
  intros y x _. split; [reflexivity | exact I].
Defined.

(* ------------------------------------------------------------------ *)
(** ** The colour-distance map holds numbers *)

Section MoreNonNegative.
Variables prec emax : Z.

(** A difference is a NaN only for a NaN or for two infinities. *)
Lemma SFsub_not_nan (E B : Z) (x y : spec_float) :
  finBound E B x -> IEEE.is_nan y = false -> IEEE.is_nan (SFsub prec emax x y) = false.
Proof.
  destruct x as [sx | sx | | sx mx ex]; destruct y as [sy | sy | | sy my ey];
    cbn [finBound SFsub IEEE.is_nan]; try tauto; try discriminate; intros _ _;
    try reflexivity.
  - destruct sx, sy; reflexivity.
  - unfold binary_normalize.
    destruct (cond_Zopp sx (Zpos (fst (shl_align mx ex (Z.min ex ey))))
              - cond_Zopp sy (Zpos (fst (shl_align my ey (Z.min ex ey))))) as [|p|p];
      [reflexivity | |].
    + destruct (binary_round_cases prec emax false p (Z.min ex ey))
        as [-> | [(m' & e' & ->) | ->]]; reflexivity.
    + destruct (binary_round_cases prec emax true p (Z.min ex ey))
        as [-> | [(m' & e' & ->) | ->]]; reflexivity.
Qed.

(** A square is a number that is not negative, unless it is the square
    of a NaN. *)
Lemma SFmul_self_nonNegative (x : spec_float) :
  IEEE.is_nan x = false -> nonNegative (SFmul prec emax x x).
Proof.
  intros Hx. split; [| apply SFmul_self_notNegative].
  destruct x as [sx | sx | | sx mx ex]; cbn [SFmul IEEE.is_nan] in *;
    try discriminate; try reflexivity.
  destruct (binary_round_aux_cases prec emax (xorb sx sx) (Zpos (mx * mx)) (ex + ex)
              loc_Exact ltac:(lia)) as [-> | [(m' & e' & ->) | ->]]; reflexivity.
Qed.

Lemma SFsqrt_nonNegative (x : spec_float) :
  nonNegative x -> nonNegative (SFsqrt prec emax x).
Proof.
  intros [Hnx Hx]. split; [apply SFsqrt_not_nan; assumption |].
  destruct x as [sx | [] | | [] mx ex]; cbn [SFsqrt notNegative IEEE.is_nan] in *;
    try discriminate; try tauto.
  unfold SFsqrt_core_binary.
  set (e' := Z.min _ _). set (m' := match _ with 0 => _ | _ => _ end).
  pose proof (Z.sqrtrem_sqrt m') as Hq. pose proof (Z.sqrt_nonneg m') as Hnn.
  destruct (Z.sqrtrem m') as [q r]. cbn [fst] in Hq. subst q.
  destruct (binary_round_aux_cases prec emax false (Z.sqrt m') e'
              (if r =? 0 then loc_Exact else loc_Inexact (if r <=? Z.sqrt m' then Lt else Gt))
              Hnn) as [-> | [(m2 & e2 & ->) | ->]]; exact I.
Qed.
End MoreNonNegative.

(** A converted integer below 2^53 is a zero or finite. *)
Lemma of_int_fin_53 (z : Z) : Z.abs z < 9007199254740992 -> finBound 0 53 (F64.of_int z).
Proof.
  intros Hz. destruct (Z.eq_dec z 0) as [-> | Hnz]; [exact I |].
  destruct (holdsInt_finite z _ (of_int_exact z Hnz Hz)) as (m & e & -> & Hd & He).
  cbn [finBound]. lia.
Qed.

Section DistanceMap.
Context {cv : OpenCV}.

Lemma colorDistance_entries (bgr : Mat) :
  colorDistance bgr
  = mat_of_floats (rows bgr) (cols bgr)
      (colorDistanceAt bgr (fst (fst (borderMeans bgr))) (snd (fst (borderMeans bgr)))
                       (snd (borderMeans bgr))).
Proof.
  unfold colorDistance, borderMeans.
  destruct (borderSums bgr) as [[[b g] r] n]. reflexivity.
Qed.

Lemma colorDistanceAt_nonNegative (bgr : Mat) (bM gM rM : F64.t) (y x : Z) :
  (forall y x c, 0 <= at_vec3b bgr y x c <= 255) ->
  IEEE.is_nan bM = false -> IEEE.is_nan gM = false -> IEEE.is_nan rM = false ->
  nonNegative (colorDistanceAt bgr bM gM rM y x).
Proof.
  intros Hbyte Hb Hg Hr. unfold colorDistanceAt, F32.of_double.
  apply convert_nonNegative. apply SFsqrt_nonNegative.
  assert (Hd : forall c M, IEEE.is_nan M = false ->
                 nonNegative ((F64.of_int (at_vec3b bgr y x c) - M)
                              * (F64.of_int (at_vec3b bgr y x c) - M))%f64).
  { intros c M HM. apply SFmul_self_nonNegative.
    apply (SFsub_not_nan F64.prec F64.emax 0 53); [| exact HM].
    apply of_int_fin_53. pose proof (Hbyte y x c). lia. }
  repeat apply SFadd_nonNegative; apply Hd; assumption.
Qed.
End DistanceMap.

(** X25: when the pixel values are bytes, every entry of the matrix
    [dist] of [findByColorDistance] is a number that is not negative: the
    three means are numbers, and the square root is taken of a sum of
    squares, never of a negative number or a NaN.  (The image has a row and
    a column, and rows + cols fits an [int].) *)
Theorem color_distance_is_a_number :
  forall (cv : OpenCV) (bgr : Mat),
    1 <= rows bgr -> 1 <= cols bgr -> rows bgr + cols bgr < 2147483648 ->
    (forall y x c, 0 <= at_vec3b bgr y x c <= 255) ->
    let bM := fst (fst (borderMeans bgr)) in
    let gM := snd (fst (borderMeans bgr)) in
    let rM := snd (borderMeans bgr) in
    colorDistance bgr = mat_of_floats (rows bgr) (cols bgr) (colorDistanceAt bgr bM gM rM)
    /\ IEEE.is_nan bM = false /\ IEEE.is_nan gM = false /\ IEEE.is_nan rM = false
    /\ forall y x,
         IEEE.is_nan (colorDistanceAt bgr bM gM rM y x) = false
         /\ notNegative (colorDistanceAt bgr bM gM rM y x).
Proof.
  intros cv bgr Hr Hc Hsum Hbyte bM gM rM.
  split; [apply colorDistance_entries |].
  assert (Hmeans : IEEE.is_nan bM = false /\ IEEE.is_nan gM = false /\ IEEE.is_nan rM = false).
  { unfold bM, gM, rM, borderMeans.
    rewrite (borderSums_exact bgr Hr Hc Hsum Hbyte). cbn [fst snd].
    pose proof (borderCount_value bgr Hr Hc Hsum) as Hn.
    rewrite (borderSums_exact bgr Hr Hc Hsum Hbyte) in Hn. cbn [snd] in Hn.
    set (n := Z.of_nat (length (borderPixels bgr))) in *.
    assert (Hn2 : 2 <= n < 2147483648) by (rewrite Hn; Z.div_mod_to_equations; lia).
    destruct (of_int_positive n ltac:(lia)) as (m & e & ->).
    assert (Hdiv : forall c, IEEE.is_nan (F64.of_int (channelTotal bgr c (borderPixels bgr))
                                          / S754_finite false m e)%f64 = false).
    { intros c. apply (SFdiv_not_nan F64.prec F64.emax 0 53); [| reflexivity | reflexivity].
      apply of_int_fin_53.
      pose proof (channelTotal_bounds bgr c (borderPixels bgr) Hbyte). fold n in H. lia. }
    repeat split; apply Hdiv. }
  destruct Hmeans as (Hb & Hg & Hrm).
  split; [exact Hb |]. split; [exact Hg |]. split; [exact Hrm |].
  intros y x. apply colorDistanceAt_nonNegative; assumption.
Qed.

Lemma color_distance_is_a_number_witness :
  let bM := fst (fst (borderMeans (cv := Ref.cv) Ref.photo)) in
  let gM := snd (fst (borderMeans (cv := Ref.cv) Ref.photo)) in
  let rM := snd (borderMeans (cv := Ref.cv) Ref.photo) in
  (IEEE.is_nan bM = false /\ IEEE.is_nan gM = false /\ IEEE.is_nan rM = false)
  /\ (IEEE.is_nan (colorDistanceAt (cv := Ref.cv) Ref.photo bM gM rM 2 3) = false
      /\ notNegative (colorDistanceAt (cv := Ref.cv) Ref.photo bM gM rM 2 3))
  /\ bM = S754_finite false 7376990014625109 (-46)
  /\ colorDistanceAt (cv := Ref.cv) Ref.photo bM gM rM 2 3 = S754_finite false 10744235 (-16).
Proof.
  assert (Hbyte : forall y x c, 0 <= at_vec3b (OpenCV := Ref.cv) Ref.photo y x c <= 255).
  { intros y x c.
    change (at_vec3b (OpenCV := Ref.cv) Ref.photo y x c)
      with ((37 * y + 11 * x + 70 * c + 5) mod 256).
    pose proof (Z.mod_pos_bound (37 * y + 11 * x + 70 * c + 5) 256 ltac:(lia)). lia. }
  assert (Hr : 1 <= rows (OpenCV := Ref.cv) Ref.photo) by (vm_compute; intros H; discriminate H).
  assert (Hc : 1 <= cols (OpenCV := Ref.cv) Ref.photo) by (vm_compute; intros H; discriminate H).
  assert (Hsum : rows (OpenCV := Ref.cv) Ref.photo + cols (OpenCV := Ref.cv) Ref.photo < 2147483648)
    by (vm_compute; reflexivity).
  intros bM gM rM.
  destruct (color_distance_is_a_number Ref.cv Ref.photo Hr Hc Hsum Hbyte)
    as (_ & Hb & Hg & Hrm & Hdist).
  split; [repeat split; assumption |].
  split; [exact (Hdist 2 3) |].
  split; vm_compute; reflexivity.
Defined.
(* ------------------------------------------------------------------ *)
(** ** How far rounding moves a number

    Rounding [m * 2^e] gives a multiple of [2^e1], where [e1] is the
    exponent of the format at the leading bit of [m], and the result lies
    in the same interval between two neighbouring multiples as the number
    that was rounded. *)

Section RoundingError.
Variables prec emax : Z.
Hypothesis prec_pos : 0 < prec.

#[local] Abbreviation emin := (SpecFloat.emin prec emax).
#[local] Abbreviation fexp := (SpecFloat.fexp prec emax).



End RoundingError.
(* ------------------------------------------------------------------ *)
(** ** The arithmetic of [samplePoint] in numbers

    The numbers are taken [2^100] times, which makes them integers. *)





Section RoundingError2.
Variables prec emax : Z.
Hypothesis prec_pos : 0 < prec.

#[local] Abbreviation fexp := (SpecFloat.fexp prec emax).

End RoundingError2.






(* ------------------------------------------------------------------ *)
(** ** Where the samples of an edge lie *)


Section SamplePositions.
Context {cv : OpenCV}.


End SamplePositions.

(** Rounding in [float] can put a sample on the pixel before the one
    that holds the exact point: on the edge from (0,0) to (41,0), sample 1
    of 41 has the exact position 1, and falls on pixel 0. *)
Example sample_before_exact_point :
  samplePoint (mkPoint 0 0) (mkPoint 41 0) 41 1 = (0, 0)
  /\ interpolated 0 41 41 1 = 41 * 1.
Proof. split; vm_compute; reflexivity. Qed.


